(** * Dependency-graph manager: build-requires expansion, closure ordering, lock hand-over

    A shallow embedding of [conans/client/graph/graph_manager.py]:
    the [_RecipeBuildRequires] container, [GraphManager._recurse_build_requires],
    [GraphManager._load_graph] and [GraphManager.load_graph].

    Python objects are mutable and shared, so node objects live in a heap
    indexed by an object identity ([NodeKey]); the functions of the module are
    programs of a small state-and-exception monad over that heap.  The classes
    the module only calls (recipe loader, graph builder, binary analyzer, graph
    and graph-lock methods) are gathered in one record of collaborators. *)

From Stdlib Require Import Ascii String.
From stdpp Require Import base option list strings gmap sorting.

Open Scope string_scope.

(* ===================================================================== *)
(** ** Values *)
(* ===================================================================== *)

(** A Python attribute holding either a text or [None]. *)
Definition pyname := option string.

(** [ConanFileReference]: the named tuple [(name, version, user, channel,
    revision)].  Every field may be [None] (the consumer reference is built
    with [validate=False] from whatever the recipe declares). *)
Record ConanFileReference := mkRef {
  name : pyname;
  version : pyname;
  user : pyname;
  channel : pyname;
  revision : pyname
}.

#[global] Instance ConanFileReference_eq_dec : EqDecision ConanFileReference.
Proof. solve_decision. Defined.

(** Recipe kinds and binary statuses of a node.  The module imports
    [RECIPE_CONSUMER], [RECIPE_VIRTUAL], [BINARY_BUILD] and [BINARY_EDITABLE];
    the remaining constructors are the other values the specification lists
    for these two fields. *)
Inductive RecipeKind :=
  | RECIPE_CONSUMER | RECIPE_VIRTUAL | RECIPE_REGULAR | RECIPE_EDITABLE.

Inductive BinaryStatus :=
  | BINARY_UNKNOWN | BINARY_BUILD | BINARY_CACHE | BINARY_DOWNLOAD
  | BINARY_EDITABLE | BINARY_SKIP.

(** The [package_id] attribute: [None] before the analyzer ran, the
    undecided sentinel [PACKAGE_ID_UNKNOWN], or a computed identifier. *)
Inductive PackageId :=
  | PackageIdNone | PACKAGE_ID_UNKNOWN | PackageIdOf (s : string).

#[global] Instance RecipeKind_eq_dec : EqDecision RecipeKind.
Proof. solve_decision. Defined.
#[global] Instance BinaryStatus_eq_dec : EqDecision BinaryStatus.
Proof. solve_decision. Defined.
#[global] Instance PackageId_eq_dec : EqDecision PackageId.
Proof. solve_decision. Defined.

(** Exceptions that cross the functions of the module. *)
Inductive exn :=
  | ConanException (msg : string)
  | KeyError
  | TypeError
  | LockInconsistencyError
  | OtherError (what : string).

(** Result of a pure call that may raise. *)
Inductive result (A : Type) :=
  | Ok (a : A)
  | Raise (e : exn).
Arguments Ok {A} a.
Arguments Raise {A} e.

(* ===================================================================== *)
(** ** [collections.OrderedDict] *)
(* ===================================================================== *)

(** An ordered dictionary is the sequence of its items in insertion order.
    Order and position matter to the callers, hence an association list. *)
Module OrderedDict.
Abbreviation t K V := (list (K * V)).

Section Ops.
Context {K V : Type} `{EqDecision K}.
#[local] Abbreviation t := (t K V).

Definition empty : t := [].

Definition keys (d : t) : list K := d.*1.
Definition values (d : t) : list V := d.*2.

(** [d.get(k)] *)
Fixpoint get (k : K) (d : t) : option V :=
  match d with
  | [] => None
  | (k', v) :: d' => if decide (k' = k) then Some v else get k d'
  end.

(** [k in d] *)
Definition contains (k : K) (d : t) : bool := bool_decide (is_Some (get k d)).

(** [d[k] = v]: an existing key keeps its place and takes the new value,
    a new key goes to the end. *)
Fixpoint set (k : K) (v : V) (d : t) : t :=
  match d with
  | [] => [(k, v)]
  | (k', v') :: d' =>
      if decide (k' = k) then (k', v) :: d' else (k', v') :: set k v d'
  end.

(** The dictionary without the item of key [k]. *)
Fixpoint remove (k : K) (d : t) : t :=
  match d with
  | [] => []
  | (k', v') :: d' => if decide (k' = k) then d' else (k', v') :: remove k d'
  end.

(** [d.pop(k)] without default: the value and the remaining dictionary,
    [KeyError] when the key is absent. *)
Definition pop (k : K) (d : t) : result (V * t) :=
  match get k d with
  | Some v => Ok (v, remove k d)
  | None => Raise KeyError
  end.

(** Truth value of a dictionary. *)
Definition truthy (d : t) : bool :=
  match d with [] => false | _ => true end.

End Ops.
End OrderedDict.

(* ===================================================================== *)
(** ** Recipes and [_RecipeBuildRequires] *)
(* ===================================================================== *)

(** What a recipe may hand to [add]: a reference object or its text. *)
Inductive BuildRequire :=
  | BRRef (r : ConanFileReference)
  | BRText (s : string).

(** [_RecipeBuildRequires(OrderedDict)]: reference name to reference. *)
Abbreviation RecipeBuildRequires := (OrderedDict.t pyname ConanFileReference).

(** The [build_requires] attribute of a recipe object: missing, a list or
    tuple, a single text, or (once the manager has evaluated the recipe) the
    [_RecipeBuildRequires] dictionary that replaced it. *)
Inductive BuildRequiresAttr :=
  | AttrMissing
  | AttrSeq (l : list BuildRequire)
  | AttrText (s : string)
  | AttrMap (m : RecipeBuildRequires).

(** An entry of the recipe's [requires]. *)
Record Requirement := mkRequirement {
  req_ref : ConanFileReference;
  req_range_ref : ConanFileReference
}.

(** The recipe object ([conanfile]).  [cf_build_requirements] is the optional
    [build_requirements()] method: it receives the freshly built dictionary
    (reachable as [self.build_requires]) and leaves it changed, or raises. *)
Record ConanFile := mkConanFile {
  cf_display : string;
  cf_name : pyname;
  cf_version : pyname;
  cf_conan_user : pyname;
  cf_conan_channel : pyname;
  cf_requires : OrderedDict.t pyname Requirement;
  cf_options_values : string;
  cf_build_requires : BuildRequiresAttr;
  cf_build_requirements :
    option (RecipeBuildRequires -> result RecipeBuildRequires)
}.

Definition with_build_requires (a : BuildRequiresAttr) (c : ConanFile) : ConanFile :=
  {| cf_display := cf_display c; cf_name := cf_name c;
     cf_version := cf_version c; cf_conan_user := cf_conan_user c;
     cf_conan_channel := cf_conan_channel c; cf_requires := cf_requires c;
     cf_options_values := cf_options_values c;
     cf_build_requires := a;
     cf_build_requirements := cf_build_requirements c |}.

Module RBR.
Section Container.
(** [ConanFileReference.loads] (module [conans.model.ref]) parses a text; it
    raises on a text that is no reference. *)
Variable loads : string -> result ConanFileReference.

(** The first two lines of [add]: what is no reference object is parsed. *)
Definition as_reference (build_require : BuildRequire) : result ConanFileReference :=
  match build_require with
  | BRRef r => Ok r
  | BRText s => loads s
  end.

(** [add]: parse when needed, then [self[build_require.name] = build_require]. *)
Definition add (build_require : BuildRequire) (self : RecipeBuildRequires)
  : result RecipeBuildRequires :=
  match as_reference build_require with
  | Ok r => Ok (OrderedDict.set (name r) r self)
  | Raise e => Raise e
  end.

(** [__call__] *)
Definition call (build_require : BuildRequire) (self : RecipeBuildRequires)
  : result RecipeBuildRequires := add build_require self.

(** [update]: [add] every element, in order; the first failure stops it. *)
Fixpoint update (build_requires : list BuildRequire) (self : RecipeBuildRequires)
  : result RecipeBuildRequires :=
  match build_requires with
  | [] => Ok self
  | b :: rest =>
      match add b self with
      | Ok self' => update rest self'
      | Raise e => Raise e
      end
  end.

(** [__init__]: the attribute, made a list when it is neither list nor tuple,
    is added element by element to the empty dictionary.  A dictionary left
    there by an earlier evaluation is no list: it is wrapped and handed to
    the parser, which accepts texts only. *)
Definition init (conanfile : ConanFile) : result RecipeBuildRequires :=
  match cf_build_requires conanfile with
  | AttrMissing => update [] OrderedDict.empty
  | AttrSeq l => update l OrderedDict.empty
  | AttrText s => update [BRText s] OrderedDict.empty
  | AttrMap _ => Raise TypeError
  end.

End Container.
End RBR.

(* ===================================================================== *)
(** ** [fnmatch.fnmatch] *)
(* ===================================================================== *)

(** Shell-style matching as the standard library's [fnmatch.translate]
    reads a pattern: [*] any run, [?] any one character, [[seq]] and [[!seq]]
    character sets with ranges, a [[] without its closing bracket and every
    other character literal.  (POSIX: no case folding.) *)
Module Fnmatch.

Inductive token :=
  | TStar
  | TAny
  | TSet (negated : bool) (stuff : list ascii)
  | TLit (c : ascii).

(** Splits at the first closing bracket. *)
Fixpoint until_close (s : list ascii) : option (list ascii * list ascii) :=
  match s with
  | [] => None
  | c :: s' =>
      if Ascii.eqb c "]" then Some ([], s')
      else match until_close s' with
           | Some (body, rest) => Some (c :: body, rest)
           | None => None
           end
  end.

(** The set opened by a bracket, from the text after it: an optional [!],
    an optional leading closing bracket that belongs to the set, then
    everything up to the next closing bracket. *)
Definition bracket (s : list ascii) : option (bool * list ascii * list ascii) :=
  let '(neg, s1) :=
    match s with
    | c :: r => if Ascii.eqb c "!" then (true, r) else (false, s)
    | [] => (false, s)
    end in
  let '(lead, s2) :=
    match s1 with
    | c :: r => if Ascii.eqb c "]" then ([c], r) else ([], s1)
    | [] => ([], s1)
    end in
  match until_close s2 with
  | Some (body, rest) => Some (neg, (lead ++ body)%list, rest)
  | None => None
  end.

(** Tokens of a pattern.  [fuel] bounds the number of tokens, which never
    exceeds the length of the pattern. *)
Fixpoint tokens (fuel : nat) (pat : list ascii) : list token :=
  match fuel with
  | O => []
  | S fuel' =>
      match pat with
      | [] => []
      | c :: rest =>
          if Ascii.eqb c "*" then TStar :: tokens fuel' rest
          else if Ascii.eqb c "?" then TAny :: tokens fuel' rest
          else if Ascii.eqb c "[" then
            match bracket rest with
            | Some (neg, stuff, rest') => TSet neg stuff :: tokens fuel' rest'
            | None => TLit c :: tokens fuel' rest
            end
          else TLit c :: tokens fuel' rest
      end
  end.

Definition ascii_le (a b : ascii) : bool :=
  (nat_of_ascii a <=? nat_of_ascii b)%nat.

(** Membership in the body of a character set: [lo-hi] is a range. *)
Fixpoint in_set (c : ascii) (stuff : list ascii) : bool :=
  match stuff with
  | [] => false
  | lo :: rest =>
      match rest with
      | dash :: hi :: rest' =>
          if Ascii.eqb dash "-"
          then (ascii_le lo c && ascii_le c hi) || in_set c rest'
          else Ascii.eqb lo c || in_set c rest
      | _ => Ascii.eqb lo c || in_set c rest
      end
  end.

(** Whole-text match of a token list. *)
Fixpoint matches (ts : list token) (s : list ascii) : bool :=
  match ts with
  | [] => match s with [] => true | _ => false end
  | TStar :: ts' =>
      (fix star (s : list ascii) : bool :=
         matches ts' s ||
         match s with [] => false | _ :: s' => star s' end) s
  | TAny :: ts' =>
      match s with [] => false | _ :: s' => matches ts' s' end
  | TLit c :: ts' =>
      match s with
      | [] => false
      | c' :: s' => Ascii.eqb c c' && matches ts' s'
      end
  | TSet neg stuff :: ts' =>
      match s with
      | [] => false
      | c' :: s' => xorb neg (in_set c' stuff) && matches ts' s'
      end
  end.

Definition fnmatch (text pat : string) : bool :=
  let p := list_ascii_of_string pat in
  matches (tokens (length p) p) (list_ascii_of_string text).

End Fnmatch.

Example fnmatch_star : Fnmatch.fnmatch "zlib/1.2.11@conan/stable" "zlib/*" = true.
Proof. reflexivity. Qed.
Example fnmatch_set : Fnmatch.fnmatch "lib/0.1@user/channel" "l[h-j]b/0.?@*" = true.
Proof. reflexivity. Qed.
Example fnmatch_negated : Fnmatch.fnmatch "lib/0.1@user/channel" "l[!h-j]b/*" = false.
Proof. reflexivity. Qed.
Example fnmatch_open_bracket : Fnmatch.fnmatch "a[b" "a[b" = true.
Proof. reflexivity. Qed.

(* ===================================================================== *)
(** ** Nodes, the heap, graph info and the lock *)
(* ===================================================================== *)

(** Identity of a node object. *)
Definition NodeKey := nat.

(** Identifier of a node in a lock file. *)
Definition NodeId := nat.

(** The [public_closure] attribute: unset on a new node, the ordered
    dictionary (name to node) the graph builder maintains, and after
    [_load_graph] the ordered list of nodes. *)
Inductive Closure :=
  | ClosureUnset
  | ClosureMap (m : OrderedDict.t pyname NodeKey)
  | ClosureList (l : list NodeKey).

Record Node := mkNode {
  n_id : option NodeId;
  n_ref : option ConanFileReference;
  n_conanfile : ConanFile;
  n_recipe : RecipeKind;
  n_path : option string;
  n_binary : BinaryStatus;
  n_package_id : PackageId;
  n_public_closure : Closure
}.

(** Modelled from the spec: the class [Node] (module
    [conans.client.graph.graph]) is not part of this file.  The name of a node
    is the name of its reference, [None] for a node without reference; a new
    node has no lock identifier, no binary decision, no package identifier
    and no closure yet. *)
Definition node_name (n : Node) : pyname :=
  match n_ref n with
  | Some r => name r
  | None => None
  end.

Definition Node_init (ref : option ConanFileReference) (conanfile : ConanFile)
    (recipe : RecipeKind) (path : option string) : Node :=
  {| n_id := None; n_ref := ref; n_conanfile := conanfile; n_recipe := recipe;
     n_path := path; n_binary := BINARY_UNKNOWN; n_package_id := PackageIdNone;
     n_public_closure := ClosureUnset |}.

Definition node_with_conanfile (c : ConanFile) (n : Node) : Node :=
  {| n_id := n_id n; n_ref := n_ref n; n_conanfile := c; n_recipe := n_recipe n;
     n_path := n_path n; n_binary := n_binary n; n_package_id := n_package_id n;
     n_public_closure := n_public_closure n |}.

Definition node_with_closure (c : Closure) (n : Node) : Node :=
  {| n_id := n_id n; n_ref := n_ref n; n_conanfile := n_conanfile n;
     n_recipe := n_recipe n; n_path := n_path n; n_binary := n_binary n;
     n_package_id := n_package_id n; n_public_closure := c |}.

(** The heap of node objects together with the state [W] private to the
    collaborators (caches, remotes, edges of the graphs, console). *)
Record Store (W : Type) := mkStore {
  heap : NodeKey -> Node;
  next_key : NodeKey;
  st_world : W
}.
Arguments mkStore {W}.
Arguments heap {W}.
Arguments next_key {W}.
Arguments st_world {W}.

Definition store_set {W} (k : NodeKey) (n : Node) (s : Store W) : Store W :=
  {| heap := fun k' => if decide (k' = k) then n else heap s k';
     next_key := next_key s; st_world := st_world s |}.

(** The build-requires policy of a profile: pattern to references, in the
    order of declaration. *)
Abbreviation ProfileBuildRequires :=
  (OrderedDict.t string (list ConanFileReference)).

Record Profile := mkProfile {
  pf_settings : string;
  pf_build_requires : option ProfileBuildRequires;
  pf_dev_reference : option ConanFileReference
}.

(** Modelled from the spec: the class [GraphLock] (module
    [conans.model.graph_lock]) is not part of this file.  A lock maps a node
    identifier to the locked reference (with its revision) and the locked set
    of build-requirements. *)
Record LockEntry := mkLockEntry {
  lock_ref : option ConanFileReference;
  lock_build_requires : list ConanFileReference
}.

#[global] Instance LockEntry_eq_dec : EqDecision LockEntry.
Proof. solve_decision. Defined.

Abbreviation GraphLock := (gmap NodeId LockEntry).

Record GraphInfo := mkGraphInfo {
  gi_profile : Profile;
  gi_root : ConanFileReference;
  gi_options : string;
  gi_graph_lock : option GraphLock
}.

(** A call into a collaborator: it may change the store and may raise. *)
Definition Call (W A : Type) := Store W -> result A * Store W.

(** The first argument of [load_graph]: a list of references, one
    reference, or the path of a recipe. *)
Inductive Reference :=
  | RefList (l : list ConanFileReference)
  | RefOne (r : ConanFileReference)
  | RefPath (path : string).

(** ** Collaborators

    Everything [graph_manager.py] calls and does not define.  The arguments
    the manager only forwards ([check_updates], [update], [remotes],
    [recorder], the build mode patterns) are fixed during one resolution and
    belong to the collaborators. *)
Class Collaborators := {
  World : Type;
  (** A [DepsGraph] object. *)
  DepsGraph : Type;
  (** The locked [python_requires] of a node. *)
  PythonRequires : Type;
  (** [self._cache.config.revisions_enabled] *)
  revisions_enabled : bool;
  (** [ConanFileReference.loads] *)
  loads : string -> result ConanFileReference;
  (** [str(ref)], also of [None] *)
  str_of_ref : option ConanFileReference -> string;
  (** [conanfile_exception_formatter(name, method)]: what an exception
      raised inside the block leaves it as. *)
  conanfile_exception_formatter : string -> string -> exn -> exn;
  (** [self._binary_analyzer.evaluate_graph] *)
  evaluate_graph : DepsGraph -> Call World unit;
  (** [DepsGraph.ordered_iterate], as the list it yields *)
  ordered_iterate : DepsGraph -> Store World -> list NodeKey;
  (** [DepsGraph.nodes], in iteration order *)
  graph_nodes : DepsGraph -> Store World -> list NodeKey;
  (** [DepsGraph.inverse_levels] *)
  inverse_levels : DepsGraph -> Store World -> list (list NodeKey);
  (** [DepsGraphBuilder.load_graph] *)
  builder_load_graph : NodeKey -> option GraphLock -> Call World DepsGraph;
  (** [DepsGraphBuilder.extend_build_requires] *)
  extend_build_requires :
    DepsGraph -> NodeKey -> list ConanFileReference -> option GraphLock ->
    Call World DepsGraph;
  (** [self._loader.load_virtual(references, profile, scope_options)] *)
  load_virtual : list ConanFileReference -> Profile -> bool -> Call World ConanFile;
  (** [self._loader.load_class(path)] *)
  load_class : string -> Call World ConanFile;
  (** [self._loader.load_consumer(path, profile, test, name, version, user,
      channel, lock_python_requires)] *)
  load_consumer :
    string -> Profile -> option string -> ConanFileReference ->
    option PythonRequires -> Call World ConanFile;
  (** [self._loader.load_conanfile_txt(path, profile, ref)] *)
  load_conanfile_txt : string -> Profile -> ConanFileReference -> Call World ConanFile;
  (** [conanfile.requires.add_ref(ref)] *)
  requires_add_ref :
    ConanFileReference -> OrderedDict.t pyname Requirement ->
    result (OrderedDict.t pyname Requirement);
  (** [graph_lock.find_consumer_node(root_node, reference)] *)
  find_consumer_node : GraphLock -> NodeKey -> option ConanFileReference -> Call World unit;
  (** [graph_lock.get_node(ref)] *)
  lock_get_node : GraphLock -> ConanFileReference -> result NodeId;
  (** [graph_lock.python_requires(node_id)] *)
  lock_python_requires : GraphLock -> NodeId -> result PythonRequires;
  (** [BuildMode(build_mode, self._output)] *)
  new_build_mode : Call World unit;
  (** [build_mode.report_matches()] *)
  report_matches : Call World unit;
  (** [self._resolver.output] *)
  resolver_output : Store World -> list string
}.

(* ===================================================================== *)
(** ** The monad of the manager *)
(* ===================================================================== *)

(** The two call sites of [extend_build_requires]. *)
Inductive Branch := DeclaredBranch | ProfileBranch.

(** What a run did, in order.  The trace is not part of the program: it
    records which statement was reached so that properties of the control
    flow can be stated.  The trace of a nested invocation is kept inside the
    event of the call. *)
#[warnings="-register-all"]
Inductive Event :=
  | EvLoader (method : string)
  | EvNode (k : NodeKey)
  | EvLock (method : string)
  | EvBuildMode
  | EvBuildGraph (root : NodeKey)
  | EvAnalyze
  | EvSkip (k : NodeKey) (n : Node)
  | EvEvaluate (k : NodeKey) (n : Node)
  | EvExtend (b : Branch) (k : NodeKey) (node_name : pyname)
      (requires : list ConanFileReference)
  | EvRecurse (b : Branch) (policy : ProfileBuildRequires) (nested : list Event)
  | EvOrderClosure (k : NodeKey)
  | EvSeedLock
  | EvUpdateCheck
  | EvOutput (line : string).

Inductive outcome (A : Type) :=
  | Done (a : A)
  | Raised (e : exn)
  | OutOfFuel.
Arguments Done {A} a.
Arguments Raised {A} e.
Arguments OutOfFuel {A}.

Record Res (S A : Type) := mkRes {
  events : list Event;
  out : outcome A;
  final : S
}.
Arguments mkRes {S A}.
Arguments events {S A}.
Arguments out {S A}.
Arguments final {S A}.

Definition M (S A : Type) := S -> Res S A.

Definition ret {S A} (a : A) : M S A := fun s => mkRes [] (Done a) s.

Definition bind {S A B} (m : M S A) (f : A -> M S B) : M S B :=
  fun s =>
    let r := m s in
    match out r with
    | Done a =>
        let r' := f a (final r) in
        mkRes (events r ++ events r') (out r') (final r')
    | Raised e => mkRes (events r) (Raised e) (final r)
    | OutOfFuel => mkRes (events r) OutOfFuel (final r)
    end.

#[global] Instance M_ret S : MRet (M S) := @ret S.
#[global] Instance M_bind S : MBind (M S) := fun A B f m => bind m f.

Definition raise {S A} (e : exn) : M S A := fun s => mkRes [] (Raised e) s.
Definition out_of_fuel {S A} : M S A := fun s => mkRes [] OutOfFuel s.
Definition tell {S} (e : Event) : M S unit := fun s => mkRes [e] (Done tt) s.
Definition gets {S A} (f : S -> A) : M S A := fun s => mkRes [] (Done (f s)) s.
Definition modify {S} (f : S -> S) : M S unit := fun s => mkRes [] (Done tt) (f s).

Definition lift_result {S A} (r : result A) : M S A :=
  match r with
  | Ok a => ret a
  | Raise e => raise e
  end.

(** A call into a collaborator. *)
Definition call {W A} (c : Call W A) : M (Store W) A :=
  fun s =>
    match c s with
    | (Ok a, s') => mkRes [] (Done a) s'
    | (Raise e, s') => mkRes [] (Raised e) s'
    end.

(** Runs [m] and files its whole trace under one event. *)
Definition nested {S A} (wrap : list Event -> Event) (m : M S A) : M S A :=
  fun s => let r := m s in mkRes [wrap (events r)] (out r) (final r).

(** Runs a program on a component of a larger state. *)
Definition zoom {S T A} (proj : T -> S) (inj : S -> T -> T) (m : M S A) : M T A :=
  fun t => let r := m (proj t) in mkRes (events r) (out r) (inj (final r) t).

(** [for x in l: body(x)] *)
Fixpoint for_each {S A} (l : list A) (body : A -> M S unit) : M S unit :=
  match l with
  | [] => ret tt
  | x :: l' => bind (body x) (fun _ => for_each l' body)
  end.

(* ===================================================================== *)
(** ** Pure helpers of the manager *)
(* ===================================================================== *)

(** [list.sort(key=...)]: a stable sort, here by insertion from the right;
    an element goes before the first element whose key is not smaller. *)
Section StableSort.
Context {A : Type} (key : A -> nat).

Fixpoint insert_by_key (x : A) (l : list A) : list A :=
  match l with
  | [] => [x]
  | y :: l' =>
      if (key x <=? key y)%nat then x :: y :: l' else y :: insert_by_key x l'
  end.

Fixpoint sort_by_key (l : list A) : list A :=
  match l with
  | [] => []
  | x :: l' => insert_by_key x (sort_by_key l')
  end.

End StableSort.

(** [{n: i for i, level in enumerate(levels) for n in level}] *)
Definition inverse_levels_dict (levels : list (list NodeKey)) : gmap NodeKey nat :=
  foldl (fun d '(i, level) => foldl (fun d n => <[n := i]> d) d level)
        ∅ (imap pair levels).

(** The keys [inverse_levels[n]] of the elements, [None] when one is missing
    (the [KeyError] of the key function). *)
Definition decorate (inv : gmap NodeKey nat) (l : list NodeKey)
  : option (list (nat * NodeKey)) :=
  mapM (fun n => (fun i => (i, n)) <$> inv !! n) l.

(** [node_order.sort(key=lambda n: inverse_levels[n])] *)
Definition sort_by_level (inv : gmap NodeKey nat) (l : list NodeKey)
  : option (list NodeKey) :=
  (fun d => (sort_by_key fst d).*2) <$> decorate inv l.

(** The elements of a list in the order of their first occurrence (the
    iteration order the container is described to have). *)
Fixpoint first_occurrences {A} `{EqDecision A} (l : list A) : list A :=
  match l with
  | [] => []
  | x :: l' => x :: filter (fun y => y ≠ x) (first_occurrences l')
  end.

(** The guard of the first [continue]. *)
Definition is_virtual (node : Node) : bool :=
  bool_decide (n_recipe node = RECIPE_VIRTUAL).

(** The guard of the second [continue]. *)
Definition binary_is_settled (node : Node) : bool :=
  negb (bool_decide (n_binary node = BINARY_BUILD)
        || bool_decide (n_binary node = BINARY_EDITABLE))
  && bool_decide (n_recipe node ≠ RECIPE_CONSUMER)
  && bool_decide (n_package_id node ≠ PACKAGE_ID_UNKNOWN).

(** The condition of the inner [if] on a policy pattern. *)
Definition pattern_applies (node : Node) (str_ref pattern : string) : bool :=
  (bool_decide (n_recipe node = RECIPE_CONSUMER) && bool_decide (pattern = "&"))
  || (bool_decide (n_recipe node ≠ RECIPE_CONSUMER) && bool_decide (pattern = "&!"))
  || Fnmatch.fnmatch str_ref pattern.

(** One profile build-require against the dictionary of the recipe and the
    list of the requirements the profile adds. *)
Definition apply_build_require (own_name : pyname)
    (acc : RecipeBuildRequires * list ConanFileReference)
    (build_require : ConanFileReference)
  : RecipeBuildRequires * list ConanFileReference :=
  let '(package_build_requires, new_profile_build_requires) := acc in
  if OrderedDict.contains (name build_require) package_build_requires then
    (OrderedDict.set (name build_require) build_require package_build_requires,
     new_profile_build_requires)
  else if bool_decide (name build_require ≠ own_name) then
    (package_build_requires, new_profile_build_requires ++ [build_require])%list
  else acc.

(** One item of the policy. *)
Definition apply_policy_item (node : Node) (str_ref : string)
    (acc : RecipeBuildRequires * list ConanFileReference)
    (item : string * list ConanFileReference)
  : RecipeBuildRequires * list ConanFileReference :=
  if pattern_applies node str_ref item.1
  then foldl (apply_build_require (node_name node)) acc item.2
  else acc.

(** The loop over [profile_build_requires.items()]. *)
Definition apply_profile (node : Node) (str_ref : string)
    (policy : ProfileBuildRequires) (package_build_requires : RecipeBuildRequires)
  : RecipeBuildRequires * list ConanFileReference :=
  foldl (apply_policy_item node str_ref) (package_build_requires, []) policy.

(** [x or y] on attributes that hold a text or [None]. *)
Definition py_or (x y : pyname) : pyname :=
  match x with
  | Some s => if decide (s = "") then y else x
  | None => y
  end.

(** [path.endswith(".py")] *)
Definition ends_with_py (path : string) : bool :=
  bool_decide (list_ascii_of_string ".py" `suffix_of` list_ascii_of_string path).

(** Modelled from the spec: [GraphLock(deps_graph)] and
    [GraphLock.update_check_graph] (module [conans.model.graph_lock]) are not
    part of this file.  What a lock records about a node is its reference,
    revision included, and its set of build-requirements. *)
Definition locked_identity (n : Node) : LockEntry :=
  {| lock_ref := n_ref n;
     lock_build_requires :=
       match cf_build_requires (n_conanfile n) with
       | AttrMap m => OrderedDict.values m
       | _ => []
       end |}.

(** Modelled from the spec: [seed(graph)] records every node under its
    identifier. *)
Definition GraphLock_seed (nodes : list Node) : GraphLock :=
  foldl (fun lock n =>
           match n_id n with
           | Some i => <[i := locked_identity n]> lock
           | None => lock
           end) ∅ nodes.

(** Same reference, revision and set of build-requirements. *)
Definition same_identity (a b : LockEntry) : bool :=
  bool_decide (lock_ref a = lock_ref b)
  && bool_decide (lock_build_requires a ⊆ lock_build_requires b)
  && bool_decide (lock_build_requires b ⊆ lock_build_requires a).

(** A node whose identifier is in the lock with another identity. *)
Definition lock_disagrees (lock : GraphLock) (n : Node) : bool :=
  match n_id n with
  | Some i =>
      match lock !! i with
      | Some e => negb (same_identity e (locked_identity n))
      | None => false
      end
  | None => false
  end.

(** Modelled from the spec: [update_check(graph, lock)] fails with
    [LockInconsistencyError] if a node identifier of the lock now resolves to
    another reference, revision or set of build-requirements. *)
Definition GraphLock_update_check (lock : GraphLock) (nodes : list Node) : result unit :=
  if existsb (lock_disagrees lock) nodes then Raise LockInconsistencyError else Ok tt.

(* ===================================================================== *)
(** ** [GraphManager] *)
(* ===================================================================== *)

Section Manager.
Context `{C : Collaborators}.

Abbreviation St := (Store World).

Definition get_node (k : NodeKey) : M St Node := gets (fun s => heap s k).

Definition set_node (k : NodeKey) (n : Node) : M St unit := modify (store_set k n).

(** [conanfile.build_requires = m] on the recipe object of node [k]; also
    the effect of changing in place the dictionary stored there. *)
Definition set_build_requires (k : NodeKey) (m : RecipeBuildRequires) : M St unit :=
  node ← get_node k;
  set_node k (node_with_conanfile
                (with_build_requires (AttrMap m) (n_conanfile node)) node).

(** [_RecipeBuildRequires.__str__] *)
Definition RecipeBuildRequires_str (self : RecipeBuildRequires) : string :=
  String.concat ", " ((fun r => str_of_ref (Some r)) <$> OrderedDict.values self).

(** [_get_recipe_build_requires(node.conanfile)] *)
Definition _get_recipe_build_requires (k : NodeKey) : M St RecipeBuildRequires :=
  node ← get_node k;
  let conanfile := n_conanfile node in
  build_requires ← lift_result (RBR.init loads conanfile);
  set_build_requires k build_requires;;
  match cf_build_requirements conanfile with
  | None => ret build_requires
  | Some build_requirements =>
      match build_requirements build_requires with
      | Ok build_requires' =>
          set_build_requires k build_requires';; ret build_requires'
      | Raise e =>
          raise (conanfile_exception_formatter
                   (cf_display conanfile) "build_requirements" e)
      end
  end.

Section Body.
(** The recursive call, by call site: policy handed down and new subgraph. *)
Variable recurse : Branch -> ProfileBuildRequires -> DepsGraph -> M St unit.
Variable graph : DepsGraph.
Variable graph_lock : option GraphLock.

(** A turn of the loop of [_recurse_build_requires] from the call of
    [_get_recipe_build_requires] on, for a node [k] that neither [continue]
    left out; [node] is the object as the guards saw it. *)
Definition expand_node (profile_build_requires : option ProfileBuildRequires)
    (k : NodeKey) (node : Node) : M St (option ProfileBuildRequires) :=
  package_build_requires ← _get_recipe_build_requires k;
  let str_ref := str_of_ref (n_ref node) in
  let policy := default [] profile_build_requires in
  let applied := apply_profile node str_ref policy package_build_requires in
  let package_build_requires := applied.1 in
  let new_profile_build_requires := applied.2 in
  set_build_requires k package_build_requires;;
  (if OrderedDict.truthy package_build_requires then
     tell (EvExtend DeclaredBranch k (node_name node)
             (OrderedDict.values package_build_requires));;
     subgraph ← call (extend_build_requires graph k
                        (OrderedDict.values package_build_requires) graph_lock);
     recurse DeclaredBranch policy subgraph
   else ret tt);;
  (if bool_decide (new_profile_build_requires ≠ []) then
     tell (EvExtend ProfileBranch k (node_name node) new_profile_build_requires);;
     subgraph ← call (extend_build_requires graph k
                        new_profile_build_requires graph_lock);
     recurse ProfileBranch [] subgraph
   else ret tt);;
  ret (Some policy).

(** One turn of the loop of [_recurse_build_requires] on node [k]; the value
    is [profile_build_requires] as the turn leaves it. *)
Definition visit_node (profile_build_requires : option ProfileBuildRequires)
    (k : NodeKey) : M St (option ProfileBuildRequires) :=
  node ← get_node k;
  if is_virtual node then
    tell (EvSkip k node);; ret profile_build_requires
  else if binary_is_settled node then
    tell (EvSkip k node);; ret profile_build_requires
  else
    tell (EvEvaluate k node);;
    expand_node profile_build_requires k node.

(** [for node in subgraph.ordered_iterate()] *)
Fixpoint visit_nodes (profile_build_requires : option ProfileBuildRequires)
    (nodes : list NodeKey) : M St unit :=
  match nodes with
  | [] => ret tt
  | k :: nodes' =>
      profile_build_requires' ← visit_node profile_build_requires k;
      visit_nodes profile_build_requires' nodes'
  end.

(** The body of [_recurse_build_requires]. *)
Definition recurse_body (subgraph : DepsGraph)
    (profile_build_requires : option ProfileBuildRequires)
    (apply_build_requires : bool) : M St unit :=
  tell EvAnalyze;;
  call (evaluate_graph subgraph);;
  if negb apply_build_requires then ret tt
  else
    nodes ← gets (ordered_iterate subgraph);
    visit_nodes profile_build_requires nodes.

End Body.

(** [_recurse_build_requires].  [fuel] bounds the number of nested
    invocations; a call that needs more ends in [OutOfFuel]. *)
Fixpoint _recurse_build_requires (fuel : nat) (graph subgraph : DepsGraph)
    (profile_build_requires : option ProfileBuildRequires)
    (graph_lock : option GraphLock) (apply_build_requires : bool) : M St unit :=
  match fuel with
  | O => out_of_fuel
  | S fuel' =>
      recurse_body
        (fun b policy sub =>
           nested (EvRecurse b policy)
             (_recurse_build_requires fuel' graph sub (Some policy) graph_lock true))
        graph graph_lock subgraph profile_build_requires apply_build_requires
  end.

(** One turn of the loop "Sort of closures, for linking order". *)
Definition order_closure (inv : gmap NodeKey nat) (k : NodeKey) : M St unit :=
  tell (EvOrderClosure k);;
  node ← get_node k;
  match n_public_closure node with
  | ClosureMap closure =>
      popped ← lift_result (OrderedDict.pop (node_name node) closure);
      let closure := popped.2 in
      set_node k (node_with_closure (ClosureMap closure) node);;
      let node_order := OrderedDict.values closure in
      match sort_by_level inv node_order with
      | Some node_order =>
          set_node k (node_with_closure (ClosureList node_order) node)
      | None => raise KeyError
      end
  | ClosureList _ => raise TypeError
  | ClosureUnset => raise (OtherError "AttributeError")
  end.

(** "Sort of closures, for linking order": the last part of [_load_graph]. *)
Definition order_closures (graph : DepsGraph) : M St unit :=
  levels ← gets (inverse_levels graph);
  let inv := inverse_levels_dict levels in
  nodes ← gets (graph_nodes graph);
  for_each nodes (order_closure inv).

(** [_load_graph] *)
Definition _load_graph (fuel : nat) (root_node : NodeKey)
    (profile_build_requires : option ProfileBuildRequires)
    (apply_build_requires : bool) (graph_lock : option GraphLock)
  : M St DepsGraph :=
  tell (EvBuildGraph root_node);;
  graph ← call (builder_load_graph root_node graph_lock);
  _recurse_build_requires fuel graph graph profile_build_requires graph_lock
    apply_build_requires;;
  order_closures graph;;
  ret graph.

End Manager.

(* ===================================================================== *)
(** ** [GraphManager.load_graph] *)
(* ===================================================================== *)

(** The store together with the [graph_info] object of the caller. *)
Record LGState (W : Type) := mkLGState {
  lg_store : Store W;
  lg_info : GraphInfo
}.
Arguments mkLGState {W}.
Arguments lg_store {W}.
Arguments lg_info {W}.

Definition info_with_profile (p : Profile) (gi : GraphInfo) : GraphInfo :=
  {| gi_profile := p; gi_root := gi_root gi; gi_options := gi_options gi;
     gi_graph_lock := gi_graph_lock gi |}.

Definition info_with_root (r : ConanFileReference) (gi : GraphInfo) : GraphInfo :=
  {| gi_profile := gi_profile gi; gi_root := r; gi_options := gi_options gi;
     gi_graph_lock := gi_graph_lock gi |}.

Definition info_with_options (o : string) (gi : GraphInfo) : GraphInfo :=
  {| gi_profile := gi_profile gi; gi_root := gi_root gi; gi_options := o;
     gi_graph_lock := gi_graph_lock gi |}.

Definition info_with_lock (l : option GraphLock) (gi : GraphInfo) : GraphInfo :=
  {| gi_profile := gi_profile gi; gi_root := gi_root gi;
     gi_options := gi_options gi; gi_graph_lock := l |}.

Definition profile_with_dev_reference (r : option ConanFileReference) (p : Profile)
  : Profile :=
  {| pf_settings := pf_settings p; pf_build_requires := pf_build_requires p;
     pf_dev_reference := r |}.

Definition conanfile_with_requires (rs : OrderedDict.t pyname Requirement)
    (u c : pyname) (cf : ConanFile) : ConanFile :=
  {| cf_display := cf_display cf; cf_name := cf_name cf;
     cf_version := cf_version cf; cf_conan_user := u; cf_conan_channel := c;
     cf_requires := rs; cf_options_values := cf_options_values cf;
     cf_build_requires := cf_build_requires cf;
     cf_build_requirements := cf_build_requirements cf |}.

Section LoadGraph.
Context `{C : Collaborators}.

Abbreviation LG := (LGState World).

Definition on_store {A} (m : M (Store World) A) : M LG A :=
  zoom lg_store (fun s t => mkLGState s (lg_info t)) m.

Definition modify_info (f : GraphInfo -> GraphInfo) : M LG unit :=
  modify (fun t => mkLGState (lg_store t) (f (lg_info t))).

(** [Node(ref, conanfile, recipe=..., path=...)]: a new object. *)
Definition new_node (ref : option ConanFileReference) (conanfile : ConanFile)
    (recipe : RecipeKind) (path : option string) : M (Store World) NodeKey :=
  k ← gets next_key;
  modify (fun s => mkStore
            (fun k' => if decide (k' = k)
                       then Node_init ref conanfile recipe path else heap s k')
            (S k) (st_world s));;
  tell (EvNode k);;
  ret k.

(** The inner function [_inject_require]. *)
Definition _inject_require (conanfile : ConanFile) (ref : ConanFileReference)
  : result ConanFile :=
  match OrderedDict.get (name ref) (cf_requires conanfile) with
  | Some _ =>
      Ok (conanfile_with_requires
            (OrderedDict.set (name ref) (mkRequirement ref ref) (cf_requires conanfile))
            (user ref) (channel ref) conanfile)
  | None =>
      match requires_add_ref ref (cf_requires conanfile) with
      | Ok rs => Ok (conanfile_with_requires rs (user ref) (channel ref) conanfile)
      | Raise e => Raise e
      end
  end.

(** The branch of [load_graph] for a path: the recipe of the consumer and
    the reference of the root. *)
Definition load_root_from_path (path : string)
    (create_reference : option ConanFileReference)
    (processed_profile : Profile) (graph_lock : option GraphLock)
  : M LG (ConanFile * option ConanFileReference) :=
  if ends_with_py path then
    let test := (fun r => str_of_ref (Some r)) <$> create_reference in
    lock_python_requires ←
      match graph_lock, create_reference with
      | Some lock, None =>
          root ← gets (fun t => gi_root (lg_info t));
          (match name root with
           | None =>
               tell (EvLoader "load_class");;
               conanfile ← on_store (call (load_class path));
               modify_info (info_with_root
                 (mkRef (py_or (name root) (cf_name conanfile))
                        (py_or (version root) (cf_version conanfile))
                        (user root) (channel root) None))
           | Some _ => ret tt
           end);;
          root ← gets (fun t => gi_root (lg_info t));
          tell (EvLock "get_node");;
          node_id ← lift_result (lock_get_node lock root);
          tell (EvLock "python_requires");;
          reqs ← lift_result (lock_python_requires lock node_id);
          ret (Some reqs)
      | _, _ => ret None
      end;
    root ← gets (fun t => gi_root (lg_info t));
    tell (EvLoader "load_consumer");;
    conanfile ← on_store (call (load_consumer path processed_profile test root
                                  lock_python_requires));
    conanfile ←
      match create_reference with
      | Some r => lift_result (_inject_require conanfile r)
      | None => ret conanfile
      end;
    ret (conanfile,
         Some (mkRef (cf_name conanfile) (cf_version conanfile)
                     (cf_conan_user conanfile) (cf_conan_channel conanfile) None))
  else
    root ← gets (fun t => gi_root (lg_info t));
    tell (EvLoader "load_conanfile_txt");;
    conanfile ← on_store (call (load_conanfile_txt path processed_profile root));
    ret (conanfile, None).

(** [load_graph], the three cases of [reference], up to the creation of the
    root node: the root node and the reference [ref]. *)
Definition load_root (reference : Reference)
    (create_reference : option ConanFileReference)
    (processed_profile : Profile) (graph_lock : option GraphLock)
  : M LG (NodeKey * option ConanFileReference) :=
  match reference with
  | RefList references =>
      tell (EvLoader "load_virtual");;
      conanfile ← on_store (call (load_virtual references processed_profile false));
      root_node ← on_store (new_node None conanfile RECIPE_VIRTUAL None);
      ret (root_node, None)
  | RefOne reference =>
      if negb revisions_enabled && bool_decide (revision reference ≠ None) then
        raise (ConanException
          "Revisions not enabled in the client, specify a reference without revision")
      else
        tell (EvLoader "load_virtual");;
        conanfile ← on_store (call (load_virtual [reference] processed_profile true));
        root_node ← on_store (new_node None conanfile RECIPE_VIRTUAL None);
        match graph_lock with
        | Some lock =>
            tell (EvLock "find_consumer_node");;
            on_store (call (find_consumer_node lock root_node (Some reference)))
        | None => ret tt
        end;;
        ret (root_node, None)
  | RefPath path =>
      loaded ← load_root_from_path path create_reference processed_profile graph_lock;
      root_node ← on_store (new_node loaded.2 loaded.1 RECIPE_CONSUMER (Some path));
      match graph_lock with
      | Some lock =>
          tell (EvLock "find_consumer_node");;
          on_store (call (find_consumer_node lock root_node create_reference))
      | None => ret tt
      end;;
      ret (root_node, loaded.2)
  end.

(** [load_graph] from the root node to the resolved graph (up to the line
    that stores [ref] in [graph_info.root]). *)
Definition load_graph_resolve (fuel : nat) (reference : Reference)
    (create_reference : option ConanFileReference) (apply_build_requires : bool)
  : M LG DepsGraph :=
  modify_info (fun gi => info_with_profile
                 (profile_with_dev_reference create_reference (gi_profile gi)) gi);;
  processed_profile ← gets (fun t => gi_profile (lg_info t));
  graph_lock ← gets (fun t => gi_graph_lock (lg_info t));
  root ← load_root reference create_reference processed_profile graph_lock;
  let root_node := root.1 in
  tell EvBuildMode;;
  on_store (call new_build_mode);;
  profile ← gets (fun t => gi_profile (lg_info t));
  deps_graph ← on_store (_load_graph fuel root_node (pf_build_requires profile)
                           apply_build_requires graph_lock);
  node ← on_store (get_node root_node);
  modify_info (info_with_options (cf_options_values (n_conanfile node)));;
  match root.2 with
  | Some ref => modify_info (info_with_root ref)
  | None => ret tt
  end;;
  ret deps_graph.

(** The nodes of a graph, as objects. *)
Definition graph_node_objects (g : DepsGraph) (s : Store World) : list Node :=
  heap s <$> graph_nodes g s.

(** [load_graph], the [if] on [graph_info.graph_lock]: a missing lock is
    seeded from the graph, a lock that was given is checked against it. *)
Definition settle_lock (deps_graph : DepsGraph) : M LG unit :=
  graph_lock ← gets (fun t => gi_graph_lock (lg_info t));
  nodes ← gets (fun t => graph_node_objects deps_graph (lg_store t));
  match graph_lock with
  | None =>
      tell EvSeedLock;;
      modify_info (info_with_lock (Some (GraphLock_seed nodes)))
  | Some lock =>
      tell EvUpdateCheck;;
      lift_result (GraphLock_update_check lock nodes)
  end.

(** The last lines of [load_graph]: the solved version ranges are printed
    and the build mode reports its matches. *)
Definition report_resolution (deps_graph : DepsGraph) : M LG DepsGraph :=
  version_ranges_output ← gets (fun t => resolver_output (lg_store t));
  match version_ranges_output with
  | [] => ret tt
  | _ =>
      tell (EvOutput "Version ranges solved");;
      for_each version_ranges_output (fun msg => tell (EvOutput ("    " +:+ msg)));;
      tell (EvOutput "")
  end;;
  on_store (call report_matches);;
  ret deps_graph.

(** The end of [load_graph], from the lock on. *)
Definition load_graph_finish (deps_graph : DepsGraph) : M LG DepsGraph :=
  settle_lock deps_graph;;
  report_resolution deps_graph.

(** [load_graph] *)
Definition load_graph (fuel : nat) (reference : Reference)
    (create_reference : option ConanFileReference) (apply_build_requires : bool)
  : M LG DepsGraph :=
  deps_graph ← load_graph_resolve fuel reference create_reference apply_build_requires;
  load_graph_finish deps_graph.

End LoadGraph.

(* ===================================================================== *)
(** ** [load_deps_info] *)
(* ===================================================================== *)

(** One of the attributes [deps_cpp_info], [deps_user_info] and
    [deps_env_info] of a recipe object: not set, the object read from the
    build-info file, or the object [get_forbidden_access_object(field_name)]
    returns. *)
Inductive DepsAttr (I : Type) :=
  | DepsUnset
  | DepsLoaded (info : I)
  | DepsForbidden (field_name : string).
Arguments DepsUnset {I}.
Arguments DepsLoaded {I} info.
Arguments DepsForbidden {I} field_name.

(** What [load_deps_info] calls and does not define: the name of the
    build-info file ([conans.paths.BUILD_INFO]), [os.path.join], [load] of
    [conans.util.files] on the files as they are, and [TXTGenerator.loads].
    An exception that [except IOError] catches is [OtherError "IOError"]. *)
Class BuildInfoFiles := {
  DepsCppInfo : Type;
  DepsUserInfo : Type;
  DepsEnvInfo : Type;
  BUILD_INFO : string;
  path_join : string -> string -> string;
  files_load : string -> result string;
  TXTGenerator_loads : string -> result (DepsCppInfo * DepsUserInfo * DepsEnvInfo)
}.

(** The line feed of the message. *)
Definition newline : string := String (ascii_of_nat 10) EmptyString.

(** [isinstance(e, IOError)] *)
Definition is_IOError (e : exn) : bool :=
  match e with
  | OtherError what => bool_decide (what = "IOError")
  | _ => false
  end.

(** [InfoObjectNotDefined.__getitem__], which is also its [__getattr__]:
    every access to the object made for [field_name] raises. *)
Definition InfoObjectNotDefined_getitem {A} (field_name item : string) : result A :=
  Raise (ConanException
    ("self." +:+ field_name +:+
     " not defined. If you need it for a local command run 'conan install'")).

Section DepsInfo.
Context `{F : BuildInfoFiles}.

(** The three attributes of the recipe object. *)
Record DepsInfoAttrs := mkDepsInfoAttrs {
  deps_cpp_info : DepsAttr DepsCppInfo;
  deps_user_info : DepsAttr DepsUserInfo;
  deps_env_info : DepsAttr DepsEnvInfo
}.

(** The body of the [try]. *)
Definition read_build_info (info_file_path : string)
  : result (DepsCppInfo * DepsUserInfo * DepsEnvInfo) :=
  match files_load info_file_path with
  | Ok text => TXTGenerator_loads text
  | Raise e => Raise e
  end.

(** [load_deps_info(current_path, conanfile, required)]: what it raises or
    returns, and the attributes of [conanfile] as it leaves them. *)
Definition load_deps_info (current_path : pyname) (conanfile : DepsInfoAttrs)
    (required : bool) : result unit * DepsInfoAttrs :=
  match current_path with
  | None => (Ok tt, conanfile)
  | Some current_path =>
      if decide (current_path = "") then (Ok tt, conanfile)
      else
        let info_file_path := path_join current_path BUILD_INFO in
        match read_build_info info_file_path with
        | Ok (cpp, user, env) =>
            (Ok tt,
             {| deps_cpp_info := DepsLoaded cpp;
                deps_user_info := DepsLoaded user;
                deps_env_info := DepsLoaded env |})
        | Raise e =>
            if is_IOError e then
              if required then
                (Raise (ConanException
                   (BUILD_INFO +:+ " file not found in " +:+ current_path +:+ newline
                    +:+ "It is required for this command" +:+ newline
                    +:+ "You can generate it using 'conan install'")),
                 conanfile)
              else
                (Ok tt,
                 {| deps_cpp_info := DepsForbidden "deps_cpp_info";
                    deps_user_info := DepsForbidden "deps_user_info";
                    deps_env_info := deps_env_info conanfile |})
            else
              match e with
              | ConanException _ =>
                  (Raise (ConanException
                     ("Parse error in '" +:+ BUILD_INFO +:+ "' file in "
                      +:+ current_path)),
                   conanfile)
              | _ => (Raise e, conanfile)
              end
        end
  end.

(** [obj[item]] on an attribute that [load_deps_info] set; the objects read
    from the file answer as [lookup] says. *)
Definition deps_getitem {I A} (lookup : I -> string -> result A)
    (attr : DepsAttr I) (item : string) : result A :=
  match attr with
  | DepsUnset => Raise (OtherError "AttributeError")
  | DepsLoaded info => lookup info item
  | DepsForbidden field_name => InfoObjectNotDefined_getitem field_name item
  end.

End DepsInfo.

(* ===================================================================== *)
(** ** [GraphManager.load_consumer_conanfile] *)
(* ===================================================================== *)

(** Truth value of an attribute that holds a text or [None]. *)
Definition py_truthy (x : pyname) : bool :=
  match x with
  | Some s => bool_decide (s ≠ "")
  | None => false
  end.

(** What [load_consumer_conanfile] calls and does not define.  The recipe
    object comes from the loader with its three [deps_*] attributes as
    [deps_attrs_of] gives them. *)
Class LocalFlow `{C : Collaborators} `{F : BuildInfoFiles} := {
  (** [GraphInfo.load(info_folder)] *)
  GraphInfo_load : pyname -> Store World -> result GraphInfo;
  (** [GraphLockFile.load(info_folder, revisions_enabled)]: the [graph_lock]
      and the [profile] of the lock file *)
  GraphLockFile_load : pyname -> bool -> Store World -> result (GraphLock * Profile);
  (** [self._cache.default_profile] *)
  default_profile : Call World Profile;
  (** [profile.process_settings(self._cache)] and
      [profile.process_settings(self._cache, preprocess=...)]: the profile
      as the call leaves it *)
  process_settings : Profile -> option bool -> Call World Profile;
  (** [profile.options.update(options)] *)
  profile_options_update : Profile -> string -> Profile;
  (** [conanfile.config_options()] and [conanfile.configure()] *)
  config_options : ConanFile -> result ConanFile;
  configure : ConanFile -> result ConanFile;
  (** [conanfile.settings.validate()] and [conanfile.options.validate()] *)
  settings_validate : ConanFile -> result unit;
  options_validate : ConanFile -> result unit;
  (** [self._loader.load_conanfile_txt(path, profile)], without [ref] *)
  load_conanfile_txt_plain : string -> Profile -> Call World ConanFile;
  deps_attrs_of : ConanFile -> DepsInfoAttrs
}.

(** What the [try] of [load_consumer_conanfile] found in the folder. *)
Record InfoFiles := mkInfoFiles {
  if_graph_info : GraphInfo;
  if_graph_lock : GraphLock;
  if_profile : Profile
}.

Section LocalFlowDef.
Context `{L : LocalFlow}.

(** The block of a [with conanfile_exception_formatter(name, method)]. *)
Definition formatted {A} (conanfile_name method : string) (r : result A) : result A :=
  match r with
  | Ok a => Ok a
  | Raise e => Raise (conanfile_exception_formatter conanfile_name method e)
  end.

(** The two loads of the [try]: both files, nothing when [except IOError]
    catches, or the exception that passes. *)
Definition read_info_files (info_folder : pyname) (s : Store World)
  : result (option InfoFiles) :=
  match GraphInfo_load info_folder s with
  | Ok graph_info =>
      match GraphLockFile_load info_folder revisions_enabled s with
      | Ok (graph_lock, profile) => Ok (Some (mkInfoFiles graph_info graph_lock profile))
      | Raise e => if is_IOError e then Ok None else Raise e
      end
  | Raise e => if is_IOError e then Ok None else Raise e
  end.

(** [load_consumer_conanfile(conanfile_path, info_folder, deps_info_required,
    test)]: the recipe object and its three [deps_*] attributes.  (The
    environment that [get_env_context_manager] sets around the two methods is
    not modelled.) *)
Definition load_consumer_conanfile (conanfile_path : string) (info_folder : pyname)
    (deps_info_required : bool) (test : pyname)
  : M (Store World) (ConanFile * DepsInfoAttrs) :=
  found ← (s ← gets id; lift_result (read_info_files info_folder s));
  profile ←
    match found with
    | Some files =>
        tell (EvOutput ("Using lockfile: '" +:+ default "None" info_folder
                        +:+ "/conan.lock'"));;
        tell (EvOutput "Using cached profile from lockfile");;
        profile ← call (process_settings (if_profile files) (Some false));
        ret (profile_options_update profile (gi_options (if_graph_info files)))
    | None =>
        profile ← call default_profile;
        call (process_settings profile None)
    end;
  let root :=
    match found with
    | Some files =>
        let root := gi_root (if_graph_info files) in
        mkRef (name root) (version root) (user root) (channel root) None
    | None => mkRef None None None None None
    end in
  let processed_profile := profile in
  conanfile ←
    (if ends_with_py conanfile_path then
       lock_python_requires ←
         match found with
         | Some files =>
             if py_truthy test then ret None
             else
               tell (EvLock "get_node");;
               node_id ← lift_result (lock_get_node (if_graph_lock files)
                                        (gi_root (if_graph_info files)));
               tell (EvLock "python_requires");;
               reqs ← lift_result (lock_python_requires (if_graph_lock files) node_id);
               ret (Some reqs)
         | None => ret None
         end;
       tell (EvLoader "load_consumer");;
       conanfile ← call (load_consumer conanfile_path processed_profile test root
                           lock_python_requires);
       conanfile ← lift_result (formatted (cf_display conanfile) "config_options"
                                  (config_options conanfile));
       conanfile ← lift_result (formatted (cf_display conanfile) "configure"
                                  (configure conanfile));
       lift_result (settings_validate conanfile);;
       lift_result (options_validate conanfile);;
       ret conanfile
     else
       tell (EvLoader "load_conanfile_txt");;
       call (load_conanfile_txt_plain conanfile_path processed_profile));
  let loaded := load_deps_info info_folder (deps_attrs_of conanfile) deps_info_required in
  lift_result loaded.1;;
  ret (conanfile, loaded.2).

End LocalFlowDef.


(* ===================================================================== *)
(** ** Vocabulary of the properties *)
(* ===================================================================== *)

Section Runs.
Context {S : Type}.

(** [wp m s Q]: from [s], the program [m] does not run out of fuel, and if it
    returns then [Q] holds of its value and final state. *)
Definition wp {A} (m : M S A) (s : S) (Q : A -> S -> Prop) : Prop :=
  match out (m s) with
  | Done a => Q a (final (m s))
  | Raised _ => True
  | OutOfFuel => False
  end.

(** [emits φ m]: every event of every run of [m] satisfies [φ]. *)
Definition emits {A} (φ : Event -> Prop) (m : M S A) : Prop :=
  forall s, Forall φ (events (m s)).

End Runs.

(** The events filed under an event. *)
Definition nested_events (e : Event) : list Event :=
  match e with
  | EvRecurse _ _ tr => tr
  | _ => []
  end.

(** [deep φ e]: [φ] holds of [e] and of every event below it. *)
#[warnings="-register-all"]
Inductive deep (φ : Event -> Prop) : Event -> Prop :=
  | deep_here e : φ e -> Forall (deep φ) (nested_events e) -> deep φ e.

(** An event that a run with an empty policy may produce: no extension for
    the profile, and nested invocations with an empty policy only. *)
Definition quiet (e : Event) : Prop :=
  match e with
  | EvExtend ProfileBranch _ _ _ => False
  | EvRecurse ProfileBranch _ _ => False
  | EvRecurse DeclaredBranch p _ => p = []
  | _ => True
  end.

(** The invocation for the requirements a profile adds gets an empty policy
    and runs quietly. *)
Definition profile_branch_quiet (e : Event) : Prop :=
  match e with
  | EvRecurse ProfileBranch p tr => p = [] /\ Forall (deep quiet) tr
  | _ => True
  end.

(** No requirement that the profile adds to a node carries the name of the
    node. *)
Definition no_self_requirement (e : Event) : Prop :=
  match e with
  | EvExtend ProfileBranch _ nm reqs => Forall (fun r => name r ≠ nm) reqs
  | _ => True
  end.

(** The node a turn of the loop looked at, for the two events of a turn. *)
Definition visited (e : Event) : option NodeKey :=
  match e with
  | EvSkip k _ | EvEvaluate k _ => Some k
  | _ => None
  end.

(** A node whose build-requirements have to be evaluated: not virtual, and
    to be built, editable, the consumer, or of undecided package id. *)
Definition needs_build_requires (n : Node) : Prop :=
  n_recipe n ≠ RECIPE_VIRTUAL
  /\ (n_binary n = BINARY_BUILD \/ n_binary n = BINARY_EDITABLE
      \/ n_recipe n = RECIPE_CONSUMER \/ n_package_id n = PACKAGE_ID_UNKNOWN).

(** A turn evaluated a node that needed it, or skipped one that did not. *)
Definition turn_justified (e : Event) : Prop :=
  match e with
  | EvEvaluate _ n => needs_build_requires n
  | EvSkip _ n => ~ needs_build_requires n
  | _ => True
  end.

(** What the rest of a turn and the invocations below it may emit. *)
Definition below_a_turn (e : Event) : Prop :=
  visited e = None /\ deep turn_justified e.

(** The build-requires of the policy items whose pattern applies, in order. *)
Definition applicable (node : Node) (str_ref : string) (policy : ProfileBuildRequires)
  : list ConanFileReference :=
  policy ≫= (fun item => if pattern_applies node str_ref item.1 then item.2 else []).

Section Measure.
Context `{C : Collaborators}.

(** The value of [_get_recipe_build_requires], as a function of the recipe. *)
Definition recipe_build_requires (conanfile : ConanFile) : result RecipeBuildRequires :=
  match RBR.init loads conanfile with
  | Ok m =>
      match cf_build_requirements conanfile with
      | None => Ok m
      | Some method =>
          match method m with
          | Ok m' => Ok m'
          | Raise e =>
              Raise (conanfile_exception_formatter
                       (cf_display conanfile) "build_requirements" e)
          end
      end
  | Raise e => Raise e
  end.

(** A node as [set_build_requires k m] leaves it. *)
Definition node_evaluated (m : RecipeBuildRequires) (n : Node) : Node :=
  node_with_conanfile (with_build_requires (AttrMap m) (n_conanfile n)) n.

(** [s'] is [s] but for the [build_requires] attribute of node [k]. *)
Definition evaluated_at (k : NodeKey) (m : RecipeBuildRequires)
    (s s' : Store World) : Prop :=
  next_key s' = next_key s
  /\ heap s' k = node_evaluated m (heap s k)
  /\ forall x, x ≠ k -> heap s' x = heap s x.

(** An upper bound of the length of the chains of build-requirements that
    start at a package, by package name. *)
Variable name_depth : pyname -> nat.

(** An entry of a recipe's build-requirements that lies below depth [D]. *)
Definition shallower (D : nat) (kv : pyname * ConanFileReference) : Prop :=
  name_depth kv.1 < D /\ name_depth (name kv.2) < D.

(** The recipe of a node only asks for packages below the node. *)
Definition recipe_descends (n : Node) : Prop :=
  forall m, recipe_build_requires (n_conanfile n) = Ok m ->
            Forall (shallower (name_depth (node_name n))) m.

(** Node [x] exists in [s], its recipe descends, and it lies at depth [d]
    at most. *)
Definition settled (s : Store World) (x : NodeKey) (d : nat) : Prop :=
  x < next_key s
  /\ recipe_descends (heap s x)
  /\ name_depth (node_name (heap s x)) <= d.

(** Every settled node stays settled. *)
Definition stable (s s' : Store World) : Prop :=
  forall x d, settled s x d -> settled s' x d.

(** The nodes that an invocation on [sub] started in [s] will visit (those
    the graph yields once the analyzer has run) are settled at depth [d]. *)
Definition graph_settled (sub : DepsGraph) (s : Store World) (d : nat) : Prop :=
  forall s1 x, evaluate_graph sub s = (Ok tt, s1) ->
               x ∈ ordered_iterate sub s1 -> settled s x d.

(** The analyzer leaves recipes and references alone. *)
Definition analyzer_keeps_recipes : Prop :=
  forall g s s', evaluate_graph g s = (Ok tt, s') -> stable s s'.

(** The builder leaves the recipes and references of the nodes it finds
    alone, and the nodes it adds are settled no deeper than what was asked
    for. *)
Definition builder_follows_depth : Prop :=
  forall g k reqs lock s sub s',
    extend_build_requires g k reqs lock s = (Ok sub, s') ->
    stable s s'
    /\ forall d, Forall (fun r => name_depth (name r) <= d) reqs ->
                 graph_settled sub s' d.

End Measure.
(** A program that leaves [graph_info.graph_lock] as it is. *)
Definition keeps_lock `{C : Collaborators} {A} (m : M (LGState World) A) : Prop :=
  forall s, gi_graph_lock (lg_info (final (m s))) = gi_graph_lock (lg_info s).

(** The level of a node in the dictionary of inverse levels ([0] when it has
    none). *)
Definition level_in (inv : gmap NodeKey nat) (n : NodeKey) : nat :=
  default 0 (inv !! n).

(** What the ordering pass does to one node: its closure was a dictionary
    with an entry under the name of the node, and becomes the list of the
    other entries' nodes, sorted by level. *)
Definition closure_ordered (inv : gmap NodeKey nat) (n n' : Node) : Prop :=
  exists closure self order,
    n_public_closure n = ClosureMap closure
    /\ OrderedDict.get (node_name n) closure = Some self
    /\ sort_by_level inv
         (OrderedDict.values (OrderedDict.remove (node_name n) closure)) = Some order
    /\ n' = node_with_closure (ClosureList order) n.

(* ===================================================================== *)
(** ** Vocabulary of the further properties *)
(* ===================================================================== *)

(** Every key is the name of the reference stored under it, and no key
    occurs twice. *)
Definition keyed_by_name (d : RecipeBuildRequires) : Prop :=
  NoDup (OrderedDict.keys d) /\ Forall (fun kv => kv.1 = name kv.2) d.

(** [returns φ m s Q]: from [s], the program [m] returns a value and a state
    that satisfy [Q], and every event of the run satisfies [φ]. *)
Definition returns {S A} (φ : Event -> Prop) (m : M S A) (s : S)
    (Q : A -> S -> Prop) : Prop :=
  Forall φ (events (m s)) /\ exists a, out (m s) = Done a /\ Q a (final (m s)).

(** An event of the part of [_load_graph] that expands build-requirements. *)
Definition expansion_event (e : Event) : Prop :=
  match e with
  | EvSkip _ _ | EvEvaluate _ _ | EvExtend _ _ _ _ | EvRecurse _ _ _ => True
  | _ => False
  end.

(** An extension of the graph, or an invocation nested in this one. *)
Definition extension_event (e : Event) : Prop :=
  match e with
  | EvExtend _ _ _ _ | EvRecurse _ _ _ => True
  | _ => False
  end.

(** A nested invocation for declared requirements got the policy [P]. *)
Definition policy_handed_down (P : ProfileBuildRequires) (e : Event) : Prop :=
  match e with
  | EvRecurse DeclaredBranch p _ => p = P
  | _ => True
  end.

(** A nested invocation got the policy [P] or the empty policy. *)
Definition policy_inherited (P : ProfileBuildRequires) (e : Event) : Prop :=
  match e with
  | EvRecurse DeclaredBranch p _ => p = P \/ p = []
  | EvRecurse ProfileBranch p _ => p = []
  | _ => True
  end.


(** [n'] is [n] but for its closure. *)
Definition same_but_closure (n n' : Node) : Prop :=
  exists c, n' = node_with_closure c n.

(** A node that the ordering pass can handle: its closure is a dictionary
    that holds an entry under the name of the node, and every other entry
    is a node with a level. *)
Definition orderable (inv : gmap NodeKey nat) (n : Node) : Prop :=
  exists closure self,
    n_public_closure n = ClosureMap closure
    /\ OrderedDict.get (node_name n) closure = Some self
    /\ Forall (fun m => is_Some (inv !! m))
         (OrderedDict.values (OrderedDict.remove (node_name n) closure)).

(** The calls that look up the locked [python_requires] of the consumer. *)
Definition lock_lookup_event (e : Event) : Prop :=
  match e with
  | EvLock method => method = "get_node" \/ method = "python_requires"
  | EvLoader method => method = "load_class"
  | _ => False
  end.

(** Neither the event nor an event below it is such a call. *)
Definition no_lock_lookup (e : Event) : Prop :=
  deep (fun e => ~ lock_lookup_event e) e.

(** A call on the lock. *)
Definition lock_event (e : Event) : Prop :=
  match e with
  | EvLock _ => True
  | _ => False
  end.

(** A line printed, or a call on the lock. *)
Definition output_or_lock_event (e : Event) : Prop :=
  match e with
  | EvOutput _ | EvLock _ => True
  | _ => False
  end.

(** A first argument of [load_graph] that is the path of a recipe in
    Python. *)
Definition is_recipe_path (reference : Reference) : bool :=
  match reference with
  | RefPath path => ends_with_py path
  | _ => false
  end.

Section MoreVocabulary.
Context `{C : Collaborators}.

(** A node for which a turn of the loop finds nothing to resolve: it is
    skipped, or its recipe ends with no build-requirement and the policy has
    none for it but under its own name. *)
Definition nothing_to_add (policy : ProfileBuildRequires) (n : Node) : Prop :=
  ~ needs_build_requires n
  \/ (recipe_build_requires (n_conanfile n) = Ok []
      /\ Forall (fun r => name r = node_name n)
           (applicable n (str_of_ref (n_ref n)) policy)).

(** [s'] is [s] but for the node [k]. *)
Definition same_but_node (k : NodeKey) (s s' : Store World) : Prop :=
  st_world s' = st_world s
  /\ next_key s' = next_key s
  /\ forall x, x ≠ k -> heap s' x = heap s x.

(** [m], started in [s], leaves the component [f] of [graph_info] as it
    was. *)
Definition keeps_info {X A} (f : GraphInfo -> X)
    (m : M (LGState World) A) (s : LGState World) : Prop :=
  f (lg_info (final (m s))) = f (lg_info s).

End MoreVocabulary.

(* ===================================================================== *)
(** ** A small installation

    Concrete collaborators, used to run the manager on examples: a registry
    of four packages, two consumer recipes, a builder that creates one node
    per requested build-requirement, and an analyzer that decides to build
    everything. *)
(* ===================================================================== *)

Module Demo.

(** Splits a text at the first occurrence of a character. *)
Fixpoint split_at (c : ascii) (s : string) : option (string * string) :=
  match s with
  | EmptyString => None
  | String c' s' =>
      if Ascii.eqb c c' then Some (EmptyString, s')
      else match split_at c s' with
           | Some (a, b) => Some (String c' a, b)
           | None => None
           end
  end.

(** Reads [name/version@user/channel]. *)
Definition parse_reference (text : string) : result ConanFileReference :=
  match split_at "/" text with
  | Some (nm, rest) =>
      match split_at "@" rest with
      | Some (ver, rest') =>
          match split_at "/" rest' with
          | Some (usr, chan) =>
              Ok (mkRef (Some nm) (Some ver) (Some usr) (Some chan) None)
          | None => Raise (ConanException "invalid reference")
          end
      | None => Raise (ConanException "invalid reference")
      end
  | None => Raise (ConanException "invalid reference")
  end.

Definition str_of_field (x : pyname) : string := default "None" x.

Definition print_reference (r : option ConanFileReference) : string :=
  match r with
  | None => "None"
  | Some r =>
      str_of_field (name r) +:+ "/" +:+ str_of_field (version r) +:+ "@" +:+
      str_of_field (user r) +:+ "/" +:+ str_of_field (channel r)
  end.

Definition ref_of (nm ver : string) : ConanFileReference :=
  mkRef (Some nm) (Some ver) (Some "user") (Some "channel") None.

Definition recipe (nm : string) (build_requires : list BuildRequire) : ConanFile :=
  {| cf_display := nm; cf_name := Some nm; cf_version := Some "1.0";
     cf_conan_user := Some "user"; cf_conan_channel := Some "channel";
     cf_requires := []; cf_options_values := "";
     cf_build_requires := AttrSeq build_requires;
     cf_build_requirements := None |}.

(** The recipes in the cache, by package name. *)
Definition registry : list (pyname * ConanFile) :=
  [ (Some "b1", recipe "b1" []);
    (Some "t", recipe "t" [BRText "u/1.0@user/channel"]);
    (Some "u", recipe "u" []);
    (Some "toolX", recipe "toolX" []) ].

(** The recipes of the user, by path. *)
Definition consumers : list (string * ConanFile) :=
  [ ("app/conanfile.py", recipe "app" [BRText "b1/1.0@user/channel"]);
    ("tool_user/conanfile.py", recipe "tool_user" [BRRef (ref_of "toolX" "1.0")]) ].

(** Length of the longest chain of declared build-requirements that starts
    at a package. *)
Definition name_depth (nm : pyname) : nat :=
  if decide (nm = Some "app") then 1
  else if decide (nm = Some "t") then 1
  else if decide (nm = Some "tool_user") then 1
  else 0.

(** Nodes of the graph with their distance to the root, in order of
    creation. *)
Record world := mkWorld { w_nodes : list (NodeKey * nat) }.

Inductive graph :=
  | Whole
  | Part (nodes : list NodeKey).

Definition nodes_of (g : graph) (s : Store world) : list NodeKey :=
  match g with
  | Whole => (w_nodes (st_world s)).*1
  | Part l => l
  end.

Definition level_of (k : NodeKey) (s : Store world) : nat :=
  default 0 (OrderedDict.get k (w_nodes (st_world s))).

Definition node_decide_build (n : Node) : Node :=
  {| n_id := n_id n; n_ref := n_ref n; n_conanfile := n_conanfile n;
     n_recipe := n_recipe n; n_path := n_path n; n_binary := BINARY_BUILD;
     n_package_id := PackageIdOf (print_reference (n_ref n));
     n_public_closure := n_public_closure n |}.

Definition analyze (g : graph) : Call world unit :=
  fun s =>
    (Ok tt,
     mkStore (fun k => if bool_decide (k ∈ nodes_of g s)
                       then node_decide_build (heap s k) else heap s k)
             (next_key s) (st_world s)).

Definition node_with_id (i : option NodeId) (n : Node) : Node :=
  {| n_id := i; n_ref := n_ref n; n_conanfile := n_conanfile n;
     n_recipe := n_recipe n; n_path := n_path n; n_binary := n_binary n;
     n_package_id := n_package_id n; n_public_closure := n_public_closure n |}.

Definition closure_add (nm : pyname) (x : NodeKey) (n : Node) : Node :=
  match n_public_closure n with
  | ClosureMap m => node_with_closure (ClosureMap (OrderedDict.set nm x m)) n
  | _ => n
  end.

(** A new node for one build-requirement of node [k]. *)
Definition add_build_require (k : NodeKey) (s : Store world)
    (cf : ConanFile) (req : ConanFileReference) : NodeKey * Store world :=
  let x := next_key s in
  let fresh :=
    node_with_id (Some x)
      (node_with_closure (ClosureMap [(name req, x)])
         (Node_init (Some req) cf RECIPE_REGULAR None)) in
  (x, mkStore (fun k' => if decide (k' = x) then fresh
                         else if decide (k' = k) then closure_add (name req) x (heap s k)
                         else heap s k')
              (S x)
              (mkWorld (w_nodes (st_world s) ++ [(x, S (level_of k s))]))).

Fixpoint extend_nodes (k : NodeKey) (reqs : list ConanFileReference)
    (s : Store world) : result (list NodeKey) * Store world :=
  match reqs with
  | [] => (Ok [], s)
  | req :: reqs' =>
      match OrderedDict.get (name req) registry with
      | None => (Raise (ConanException "recipe not found"), s)
      | Some cf =>
          let '(x, s') := add_build_require k s cf req in
          match extend_nodes k reqs' s' with
          | (Ok xs, s'') => (Ok (x :: xs), s'')
          | (Raise e, s'') => (Raise e, s'')
          end
      end
  end.

Definition extend (g : graph) (k : NodeKey)
    (reqs : list ConanFileReference) (lock : option GraphLock) : Call world graph :=
  fun s =>
    match extend_nodes k reqs s with
    | (Ok xs, s') => (Ok (Part xs), s')
    | (Raise e, s') => (Raise e, s')
    end.

Definition build_root (root : NodeKey) (lock : option GraphLock)
  : Call world graph :=
  fun s =>
    let n := heap s root in
    let n' := node_with_closure (ClosureMap [(node_name n, root)])
                (node_with_id (Some (default root (n_id n))) n) in
    (Ok Whole, mkStore (fun k => if decide (k = root) then n' else heap s k)
                       (next_key s) (mkWorld [(root, 0)])).

Definition levels (g : graph) (s : Store world) : list (list NodeKey) :=
  let ns := nodes_of g s in
  let top := foldr max 0 ((fun k => level_of k s) <$> ns) in
  (fun i => filter (fun k => level_of k s = i) ns) <$> seq 0 (S top).

Definition load_consumer_recipe (path : string) : Call world ConanFile :=
  fun s =>
    match OrderedDict.get path consumers with
    | Some cf => (Ok cf, s)
    | None => (Raise (ConanException "conanfile not found"), s)
    end.

Definition virtual_recipe (refs : list ConanFileReference) : ConanFile :=
  {| cf_display := "virtual"; cf_name := None; cf_version := None;
     cf_conan_user := None; cf_conan_channel := None;
     cf_requires := (fun r => (name r, mkRequirement r r)) <$> refs;
     cf_options_values := ""; cf_build_requires := AttrMissing;
     cf_build_requirements := None |}.

#[export] Instance collaborators : Collaborators := {|
  World := world;
  DepsGraph := graph;
  PythonRequires := unit;
  revisions_enabled := false;
  loads := parse_reference;
  str_of_ref := print_reference;
  conanfile_exception_formatter := fun nm method e =>
    ConanException (nm +:+ ": Error in " +:+ method +:+ "() method");
  evaluate_graph := analyze;
  ordered_iterate := nodes_of;
  graph_nodes := nodes_of;
  inverse_levels := levels;
  builder_load_graph := build_root;
  extend_build_requires := extend;
  load_virtual := fun refs _ _ s => (Ok (virtual_recipe refs), s);
  load_class := load_consumer_recipe;
  load_consumer := fun path _ _ _ _ => load_consumer_recipe path;
  load_conanfile_txt := fun _ _ _ s => (Ok (virtual_recipe []), s);
  requires_add_ref := fun r rs => Ok (OrderedDict.set (name r) (mkRequirement r r) rs);
  find_consumer_node := fun _ root _ s =>
    (Ok tt, store_set root (node_with_id (Some 0) (heap s root)) s);
  lock_get_node := fun _ _ => Ok 0;
  lock_python_requires := fun _ _ => Ok tt;
  new_build_mode := fun s => (Ok tt, s);
  report_matches := fun s => (Ok tt, s);
  resolver_output := fun _ => []
|}.

(** An empty store. *)
Definition blank : Node := Node_init None (virtual_recipe []) RECIPE_VIRTUAL None.

Definition empty_store : Store world := mkStore (fun _ => blank) 0 (mkWorld []).

Definition profile_of (policy : ProfileBuildRequires) : Profile :=
  {| pf_settings := ""; pf_build_requires := Some policy; pf_dev_reference := None |}.

Definition start (policy : ProfileBuildRequires) (lock : option GraphLock)
  : LGState world :=
  mkLGState empty_store
    {| gi_profile := profile_of policy;
       gi_root := mkRef None None None None None;
       gi_options := ""; gi_graph_lock := lock |}.

(** The store once the consumer [app] is the only node of the graph. *)
Definition app_node : Node :=
  node_with_closure (ClosureMap [(Some "app", 0)])
    (node_with_id (Some 0)
       (Node_init (Some (mkRef (Some "app") (Some "1.0") (Some "user") (Some "channel") None))
          (recipe "app" [BRText "b1/1.0@user/channel"]) RECIPE_CONSUMER
          (Some "app/conanfile.py"))).

Definition app_store : Store world :=
  mkStore (fun _ => app_node) 1 (mkWorld [(0, 0)]).

(** A library node with its closure. *)
Definition lib_node (nm : string) (k : NodeKey)
    (closure : OrderedDict.t pyname NodeKey) : Node :=
  node_with_closure (ClosureMap closure)
    (node_with_id (Some k)
       (Node_init (Some (ref_of nm "1.0")) (recipe nm []) RECIPE_REGULAR None)).

(** A resolved graph of four nodes: the consumer sees [x2], two levels
    down, then [x1] and [x3], one level down. *)
Definition linked_store : Store world :=
  mkStore
    (fun k =>
       match k with
       | 0 => node_with_closure
                (ClosureMap [(Some "app", 0); (Some "x2", 2); (Some "x1", 1);
                             (Some "x3", 3)]) app_node
       | 1 => lib_node "x1" 1 [(Some "x1", 1); (Some "x2", 2)]
       | 2 => lib_node "x2" 2 [(Some "x2", 2)]
       | _ => lib_node "x3" 3 [(Some "x3", 3)]
       end)
    4 (mkWorld [(0, 0); (1, 1); (2, 2); (3, 1)]).

(** A policy that gives the tool [t] to every package but the consumer. *)
Definition tool_for_all : ProfileBuildRequires := [("&!", [ref_of "t" "1.0"])].

(** A policy that pins [toolX] for the consumer. *)
Definition pin_toolX : ProfileBuildRequires := [("&", [ref_of "toolX" "2.0"])].

End Demo.

(** ** Further scenes

    Stores and recipes for the further properties: a recipe whose
    [build_requirements()] raises, graphs that the ordering pass cannot
    handle, a recipe under test, and folders with and without the files of
    the local flow. *)

Module Scenes.
Import Demo.

(** A recipe whose [build_requirements()] raises. *)
Definition failing_recipe : ConanFile :=
  {| cf_display := "bad/1.0@user/channel"; cf_name := Some "bad";
     cf_version := Some "1.0";
     cf_conan_user := Some "user"; cf_conan_channel := Some "channel";
     cf_requires := []; cf_options_values := "";
     cf_build_requires := AttrSeq [BRText "b1/1.0@user/channel"];
     cf_build_requirements := Some (fun _ => Raise (OtherError "ZeroDivisionError")) |}.

Definition failing_store : Store world :=
  store_set 0 (node_with_conanfile failing_recipe app_node) app_store.

(** [linked_store] with the closure of node [2] keyed by another name. *)
Definition headless_store : Store world :=
  store_set 2 (lib_node "x2" 2 [(Some "x9", 2)]) linked_store.

(** [linked_store] with a node without level in the closure of node [1]. *)
Definition unlevelled_store : Store world :=
  store_set 1 (lib_node "x1" 1 [(Some "x1", 1); (Some "x9", 9)]) linked_store.

(** A recipe that already requires the package under test. *)
Definition test_recipe : ConanFile :=
  {| cf_display := "test_package"; cf_name := None; cf_version := None;
     cf_conan_user := None; cf_conan_channel := None;
     cf_requires := [(Some "zlib", mkRequirement (ref_of "zlib" "0.9") (ref_of "zlib" "0.9"));
                     (Some "b1", mkRequirement (ref_of "b1" "0.1") (ref_of "b1" "0.1"))];
     cf_options_values := ""; cf_build_requires := AttrMissing;
     cf_build_requirements := None |}.

(** Two recipes for the same build-requirements: one declares both, the
    other declares the first and adds the second in
    [build_requirements()]. *)
Definition declaring_recipe : ConanFile :=
  recipe "app" [BRText "b1/1.0@user/channel"; BRText "t/1.0@user/channel"].

Definition calling_recipe : ConanFile :=
  {| cf_display := "app"; cf_name := Some "app"; cf_version := Some "1.0";
     cf_conan_user := Some "user"; cf_conan_channel := Some "channel";
     cf_requires := []; cf_options_values := "";
     cf_build_requires := AttrSeq [BRText "b1/1.0@user/channel"];
     cf_build_requirements :=
       Some (RBR.update parse_reference [BRText "t/1.0@user/channel"]) |}.

Definition declaring_store : Store world :=
  store_set 0 (node_with_conanfile declaring_recipe app_node) app_store.

Definition calling_store : Store world :=
  store_set 0 (node_with_conanfile calling_recipe app_node) app_store.

End Scenes.

Module DemoFiles.

(** A folder [build] with a build-info file, a folder [broken] whose file does
    not parse, and no other file. *)
#[export] Instance files : BuildInfoFiles := {|
  DepsCppInfo := string;
  DepsUserInfo := string;
  DepsEnvInfo := string;
  BUILD_INFO := "conanbuildinfo.txt";
  path_join := fun a b => a +:+ "/" +:+ b;
  files_load := fun path =>
    if decide (path = "build/conanbuildinfo.txt") then Ok "[includedirs]"
    else if decide (path = "broken/conanbuildinfo.txt") then Ok "[["
    else Raise (OtherError "IOError");
  TXTGenerator_loads := fun text =>
    if decide (text = "[[") then Raise (ConanException "Bad section")
    else Ok (text, "user", "env")
|}.

Definition fresh : DepsInfoAttrs :=
  {| deps_cpp_info := DepsUnset; deps_user_info := DepsUnset;
     deps_env_info := DepsUnset |}.

End DemoFiles.

Module DemoLocal.
Import Demo.

(** A folder [build] that holds graph info and lock file of [tool_user], and
    no other folder. *)
Definition build_info : GraphInfo :=
  {| gi_profile := profile_of [];
     gi_root := mkRef (Some "tool_user") (Some "1.0") (Some "user") (Some "channel") None;
     gi_options := "shared=True"; gi_graph_lock := None |}.

#[export] Instance local_flow : LocalFlow (C := collaborators) (F := DemoFiles.files) := {|
  GraphInfo_load := fun folder _ =>
    if decide (folder = Some "build") then Ok build_info
    else Raise (OtherError "IOError");
  GraphLockFile_load := fun folder _ _ =>
    if decide (folder = Some "build") then Ok (∅, profile_of [])
    else Raise (OtherError "IOError");
  default_profile := fun s => (Ok (profile_of []), s);
  process_settings := fun profile _ s => (Ok profile, s);
  profile_options_update := fun profile _ => profile;
  config_options := fun conanfile => Ok conanfile;
  configure := fun conanfile => Ok conanfile;
  settings_validate := fun _ => Ok tt;
  options_validate := fun _ => Ok tt;
  load_conanfile_txt_plain := fun _ _ s => (Ok (virtual_recipe []), s);
  deps_attrs_of := fun _ => DemoFiles.fresh
|}.

End DemoLocal.

(* ===================================================================== *)
(** * Properties *)
(* ===================================================================== *)

(** ** Ordered dictionaries *)

Module OrderedDictFacts.
Import OrderedDict.
Section Facts.
Context {K V : Type} `{EqDecision K}.
Implicit Types (k : K) (v : V) (d : t K V).

Lemma get_None_keys k d : get k d = None <-> k ∉ keys d.
Proof.
  unfold keys. induction d as [|[k' v'] d IH]; simpl.
  - split; [intros _; apply not_elem_of_nil | done].
  - rewrite not_elem_of_cons. case_decide; subst.
    + split; [done | intros [? _]; done].
    + rewrite IH. split; [intros ?; split; [congruence | done] | intros [_ ?]; done].
Qed.

Lemma get_Some_keys k d : is_Some (get k d) <-> k ∈ keys d.
Proof.
  destruct (get k d) as [v|] eqn:E.
  - split; [intros _ | eauto].
    destruct (decide (k ∈ keys d)) as [|Hn]; [done|].
    apply get_None_keys in Hn. congruence.
  - split; [intros [? ?]; done | intros Hin].
    apply get_None_keys in E. done.
Qed.

Lemma contains_spec k d : contains k d = true <-> k ∈ keys d.
Proof. unfold contains. rewrite bool_decide_eq_true. apply get_Some_keys. Qed.

Lemma get_set_eq k v d : get k (set k v d) = Some v.
Proof.
  induction d as [|[k' v'] d IH]; simpl.
  - by rewrite decide_True.
  - destruct (decide (k' = k)); simpl; [by rewrite decide_True | by rewrite decide_False].
Qed.

Lemma get_set_ne k k0 v d : k0 ≠ k -> get k0 (set k v d) = get k0 d.
Proof.
  intros Hne. induction d as [|[k' v'] d IH]; simpl.
  - by rewrite decide_False.
  - destruct (decide (k' = k)); simpl; subst.
    + by rewrite !decide_False.
    + by rewrite IH.
Qed.

Lemma set_present k v d : k ∈ keys d -> keys (set k v d) = keys d.
Proof.
  unfold keys. induction d as [|[k' v'] d IH]; simpl.
  - by intros ?%elem_of_nil.
  - intros Hin. destruct (decide (k' = k)); simpl; [done|].
    f_equal. apply IH. apply elem_of_cons in Hin as [?|?]; [congruence | done].
Qed.

Lemma set_absent k v d : k ∉ keys d -> set k v d = (d ++ [(k, v)])%list.
Proof.
  unfold keys. induction d as [|[k' v'] d IH]; simpl; [done|].
  intros [? ?]%not_elem_of_cons. rewrite decide_False by done. by rewrite IH.
Qed.

Lemma keys_set k v d :
  keys (set k v d) = if decide (k ∈ keys d) then keys d else (keys d ++ [k])%list.
Proof.
  case_decide.
  - by apply set_present.
  - rewrite set_absent by done. unfold keys. by rewrite fmap_app.
Qed.

Lemma keys_set_NoDup k v d : NoDup (keys d) -> NoDup (keys (set k v d)).
Proof.
  intros Hd. rewrite keys_set. case_decide; [done|].
  apply NoDup_app. split_and!; [done | | apply NoDup_singleton].
  intros x Hx ->%list_elem_of_singleton. done.
Qed.

Lemma truthy_keys d : truthy d = false <-> keys d = [].
Proof. destruct d as [|[??]?]; simpl; split; done. Qed.

Lemma get_remove_eq k d : NoDup (keys d) -> get k (remove k d) = None.
Proof.
  unfold keys. induction d as [|[k' v'] d IH]; simpl; [done|].
  intros [Hk Hd]%NoDup_cons. destruct (decide (k' = k)); subst; simpl.
  - by apply get_None_keys.
  - rewrite decide_False by done. by apply IH.
Qed.

Lemma keys_remove k d : keys (remove k d) `sublist_of` keys d.
Proof.
  unfold keys. induction d as [|[k' v'] d IH]; simpl; [done|].
  destruct (decide (k' = k)); simpl.
  - by apply sublist_cons.
  - by apply sublist_skip.
Qed.

Lemma filter_absent k d :
  k ∉ keys d -> filter (fun kv => kv.1 ≠ k) d = d.
Proof.
  unfold keys. induction d as [|[k' v'] d IH]; [done|].
  rewrite fmap_cons. intros [? ?]%not_elem_of_cons.
  rewrite filter_cons_True by (simpl; naive_solver). by rewrite IH.
Qed.

Lemma remove_filter k d :
  NoDup (keys d) -> remove k d = filter (fun kv => kv.1 ≠ k) d.
Proof.
  unfold keys. induction d as [|[k' v'] d IH]; [done|].
  rewrite fmap_cons. intros [Hk Hd]%NoDup_cons. cbn [remove].
  destruct (decide (k' = k)); subst.
  - rewrite filter_cons_False by (simpl; intros ?; done).
    symmetry. by apply filter_absent.
  - rewrite filter_cons_True by done. by rewrite IH.
Qed.

End Facts.
End OrderedDictFacts.

(** ** The container of recipe build-requirements *)

Section ContainerFacts.
Variable loads : string -> result ConanFileReference.
Import OrderedDict OrderedDictFacts.

Lemma add_parsed b r (self : RecipeBuildRequires) :
  RBR.as_reference loads b = Ok r ->
  RBR.add loads b self = Ok (set (name r) r self).
Proof. unfold RBR.add. by intros ->. Qed.

Lemma last_filter_cons {A} (P : A -> Prop) `{forall x, Decision (P x)} x l :
  last (filter P (x :: l)) =
  match last (filter P l) with
  | Some y => Some y
  | None => if decide (P x) then Some x else None
  end.
Proof.
  rewrite filter_cons. case_decide; [|by destruct (last _)].
  destruct (filter P l) as [|y l'] eqn:E; [done|].
  change (last (x :: y :: l')) with (last (y :: l')).
  destruct (last (y :: l')) eqn:E'; [done|].
  by apply last_None in E'.
Qed.

Lemma update_from bs refs (d : RecipeBuildRequires) :
  Forall2 (fun b r => RBR.as_reference loads b = Ok r) bs refs ->
  exists d',
    RBR.update loads bs d = Ok d'
    /\ keys d' =
       (keys d ++ filter (fun k => k ∉ keys d) (first_occurrences (name <$> refs)))%list
    /\ forall k, get k d' =
         match last (filter (fun r => name r = k) refs) with
         | Some r => Some r
         | None => get k d
         end.
Proof.
  intros Hall. revert d.
  induction Hall as [|b r bs refs Hb Hall IH]; intros d.
  - exists d. simpl. split_and!; [done | by rewrite app_nil_r | done].
  - destruct (IH (set (name r) r d)) as (d' & Hupd & Hkeys & Hget).
    exists d'. split_and!.
    + simpl. by rewrite (add_parsed _ _ _ Hb).
    + rewrite Hkeys, keys_set. rewrite fmap_cons. cbn [first_occurrences].
      case_decide as Hin.
      * rewrite filter_cons_False by (intros ?; done).
        f_equal. rewrite list_filter_filter. apply list_filter_iff.
        intros k. split; [intros ?; split; [done | congruence] | tauto].
      * rewrite filter_cons_True by done. rewrite <- app_assoc. simpl.
        do 2 f_equal. rewrite list_filter_filter. apply list_filter_iff.
        intros k. rewrite not_elem_of_app, list_elem_of_singleton. tauto.
    + intros k. rewrite Hget, last_filter_cons.
      destruct (last (filter _ refs)); [done|].
      case_decide as Hk.
      * subst k. apply get_set_eq.
      * by apply get_set_ne.
Qed.

End ContainerFacts.

(** C8.  [_RecipeBuildRequires] is an ordered dictionary with
    override-on-add: adding a build-requirement under a name that is already
    a key leaves the sequence of keys as it was, stores the new reference
    under that key and touches no other entry; adding one under a new name
    puts it after all the entries; hence, after any sequence of additions to
    an empty container, the keys are the names in the order of their first
    addition and each name holds the reference of its last addition. *)
Theorem recipe_build_requires_override_on_add
    (loads : string -> result ConanFileReference) :
  (forall b r (self : RecipeBuildRequires),
      RBR.as_reference loads b = Ok r ->
      name r ∈ OrderedDict.keys self ->
      exists self',
        RBR.add loads b self = Ok self'
        /\ OrderedDict.keys self' = OrderedDict.keys self
        /\ OrderedDict.get (name r) self' = Some r
        /\ forall k, k ≠ name r -> OrderedDict.get k self' = OrderedDict.get k self)
  /\ (forall b r (self : RecipeBuildRequires),
      RBR.as_reference loads b = Ok r ->
      name r ∉ OrderedDict.keys self ->
      RBR.add loads b self = Ok (self ++ [(name r, r)])%list)
  /\ (forall bs refs,
      Forall2 (fun b r => RBR.as_reference loads b = Ok r) bs refs ->
      exists d,
        RBR.update loads bs OrderedDict.empty = Ok d
        /\ OrderedDict.keys d = first_occurrences (name <$> refs)
        /\ forall k, OrderedDict.get k d = last (filter (fun r => name r = k) refs)).
Proof.
  split_and!.
  - intros b r self Hb Hin. exists (OrderedDict.set (name r) r self).
    split_and!.
    + by apply add_parsed.
    + by apply OrderedDictFacts.set_present.
    + apply OrderedDictFacts.get_set_eq.
    + intros k Hk. by apply OrderedDictFacts.get_set_ne.
  - intros b r self Hb Hin. rewrite (add_parsed _ _ _ _ Hb).
    by rewrite OrderedDictFacts.set_absent.
  - intros bs refs Hall.
    destruct (update_from loads bs refs OrderedDict.empty Hall) as (d & Hupd & Hkeys & Hget).
    exists d. split_and!; [done | |].
    + rewrite Hkeys. simpl. generalize (first_occurrences (name <$> refs)).
      intros l. induction l as [|x l IHl]; [done|].
      rewrite filter_cons_True by apply not_elem_of_nil. by rewrite IHl.
    + intros k. rewrite Hget. by destruct (last _).
Qed.

(** ** Patterns of the profile policy *)

Lemma fnmatch_consumer_pattern s : Fnmatch.fnmatch s "&" = true <-> s = "&".
Proof.
  unfold Fnmatch.fnmatch. cbv zeta.
  change (Fnmatch.tokens _ _) with [Fnmatch.TLit "&"%char].
  destruct s as [|c [|c' s]]; cbn -[Ascii.eqb]; [done | | ].
  - destruct (Ascii.eqb_spec "&" c) as [<-|Hne]; [done|].
    split; [done | congruence].
  - rewrite andb_false_r. done.
Qed.

Lemma fnmatch_others_pattern s : Fnmatch.fnmatch s "&!" = true <-> s = "&!".
Proof.
  unfold Fnmatch.fnmatch. cbv zeta.
  change (Fnmatch.tokens _ _) with [Fnmatch.TLit "&"%char; Fnmatch.TLit "!"%char].
  destruct s as [|c [|c' [|c'' s]]]; cbn -[Ascii.eqb]; [done | | | ].
  - rewrite andb_false_r. done.
  - destruct (Ascii.eqb_spec "&" c) as [<-|Hne]; cbn -[Ascii.eqb].
    + destruct (Ascii.eqb_spec "!" c') as [<-|Hne]; [done|].
      split; [done | congruence].
    + split; [done | congruence].
  - rewrite !andb_false_r. done.
Qed.

(** C4.  For a node whose printed reference is neither of the two reserved
    texts, the pattern ["&"] applies exactly to the consumer, the pattern
    ["&!"] exactly to the nodes that are not the consumer, and any other
    pattern exactly when it matches the printed reference as a shell
    pattern. *)
Theorem policy_pattern_matching `{C : Collaborators} (node : Node) (pattern : string) :
  str_of_ref (n_ref node) ≠ "&" ->
  str_of_ref (n_ref node) ≠ "&!" ->
  (pattern = "&" ->
     (pattern_applies node (str_of_ref (n_ref node)) pattern = true
      <-> n_recipe node = RECIPE_CONSUMER))
  /\ (pattern = "&!" ->
     (pattern_applies node (str_of_ref (n_ref node)) pattern = true
      <-> n_recipe node ≠ RECIPE_CONSUMER))
  /\ (pattern ≠ "&" -> pattern ≠ "&!" ->
     (pattern_applies node (str_of_ref (n_ref node)) pattern = true
      <-> Fnmatch.fnmatch (str_of_ref (n_ref node)) pattern = true)).
Proof.
  intros Hc Ho. unfold pattern_applies.
  rewrite !orb_true_iff, !andb_true_iff, !bool_decide_eq_true.
  split_and!.
  - intros ->. rewrite fnmatch_consumer_pattern.
    split; [intros [[[? _]|[_ ?]]|?]; done | intros ?; by left; left].
  - intros ->. rewrite fnmatch_others_pattern.
    split; [intros [[[_ ?]|[? _]]|?]; done | intros ?; by left; right].
  - intros H1 H2. split; [intros [[[_ ?]|[_ ?]]|?]; done | intros ?; by right].
Qed.

(** C4 at the consumer [app] of the example installation. *)
Lemma policy_pattern_matching_witness :
  (pattern_applies Demo.app_node "app/1.0@user/channel" "&" = true
   <-> n_recipe Demo.app_node = RECIPE_CONSUMER)
  /\ (pattern_applies Demo.app_node "app/1.0@user/channel" "zlib/*" = true
   <-> Fnmatch.fnmatch "app/1.0@user/channel" "zlib/*" = true).
Proof.
  destruct (policy_pattern_matching (C := Demo.collaborators) Demo.app_node "&")
    as (H1 & _ & _); [vm_compute; congruence | vm_compute; congruence |].
  destruct (policy_pattern_matching (C := Demo.collaborators) Demo.app_node "zlib/*")
    as (_ & _ & H3); [vm_compute; congruence | vm_compute; congruence |].
  split; [apply H1; reflexivity | apply H3; vm_compute; congruence].
Defined.

(** ** The loop over the profile policy *)

Section ProfileFacts.
Import OrderedDict OrderedDictFacts.
Implicit Types (pkg : RecipeBuildRequires) (newp : list ConanFileReference).

Lemma apply_profile_flat node str_ref policy pkg :
  apply_profile node str_ref policy pkg =
  foldl (apply_build_require (node_name node)) (pkg, []) (applicable node str_ref policy).
Proof.
  unfold apply_profile, applicable. generalize (pkg, @nil ConanFileReference).
  induction policy as [|item policy IH]; intros acc; [done|].
  cbn [foldl]. rewrite IH. rewrite bind_cons, foldl_app.
  unfold apply_policy_item. by destruct (pattern_applies _ _ _).
Qed.

Lemma apply_build_require_present own pkg newp br :
  name br ∈ keys pkg ->
  apply_build_require own (pkg, newp) br = (set (name br) br pkg, newp).
Proof.
  intros Hin. unfold apply_build_require.
  by rewrite (proj2 (contains_spec _ _) Hin).
Qed.

Lemma apply_build_require_absent own pkg newp br :
  name br ∉ keys pkg ->
  apply_build_require own (pkg, newp) br =
  (pkg, if decide (name br ≠ own) then newp ++ [br] else newp)%list.
Proof.
  intros Hin. unfold apply_build_require.
  destruct (contains (name br) pkg) eqn:E; [by apply contains_spec in E|].
  case_bool_decide; case_decide; done.
Qed.

Lemma fold_build_requires own brs pkg newp :
  let acc := foldl (apply_build_require own) (pkg, newp) brs in
  keys acc.1 = keys pkg
  /\ (forall k, get k acc.1 =
        if decide (k ∈ keys pkg)
        then match last (filter (fun r => name r = k) brs) with
             | Some r => Some r
             | None => get k pkg
             end
        else None)
  /\ acc.2 = (newp ++ filter (fun r => (name r ∉ keys pkg) /\ (name r ≠ own)) brs)%list.
Proof.
  cbv zeta. revert pkg newp.
  induction brs as [|br brs IH]; intros pkg newp; cbn [foldl fst snd].
  - split_and!; [done | | by rewrite app_nil_r].
    intros k. case_decide as Hk; [done|]. by apply get_None_keys.
  - destruct (decide (name br ∈ keys pkg)) as [Hin|Hin].
    + rewrite apply_build_require_present by done.
      destruct (IH (set (name br) br pkg) newp) as (Hk & Hg & Hn).
      rewrite set_present in * by done.
      split_and!; [done | | ].
      * intros k. rewrite Hg. destruct (decide (k ∈ keys pkg)); [|done].
        rewrite last_filter_cons. destruct (last _); [done|].
        case_decide; [subst; apply get_set_eq | by apply get_set_ne].
      * rewrite Hn. rewrite filter_cons_False by tauto. done.
    + rewrite apply_build_require_absent by done.
      set (newp' := if decide (name br ≠ own) then (newp ++ [br])%list else newp).
      destruct (IH pkg newp') as (Hk & Hg & Hn).
      split_and!; [done | | ].
      * intros k. rewrite Hg. destruct (decide (k ∈ keys pkg)) as [Hkin|]; [|done].
        rewrite last_filter_cons. destruct (last _); [done|].
        rewrite decide_False; [done|]. intros <-. done.
      * rewrite Hn. subst newp'. destruct (decide (name br ≠ own)).
        -- rewrite filter_cons_True by done. by rewrite <- app_assoc.
        -- rewrite filter_cons_False by tauto. done.
Qed.

Lemma apply_profile_spec node str_ref policy pkg :
  let applied := apply_profile node str_ref policy pkg in
  let brs := applicable node str_ref policy in
  keys applied.1 = keys pkg
  /\ (forall k, get k applied.1 =
        if decide (k ∈ keys pkg)
        then match last (filter (fun r => name r = k) brs) with
             | Some r => Some r
             | None => get k pkg
             end
        else None)
  /\ applied.2 = filter (fun r => (name r ∉ keys pkg) /\ (name r ≠ node_name node)) brs.
Proof. cbv zeta. rewrite apply_profile_flat. apply fold_build_requires. Qed.

Lemma apply_profile_empty node str_ref pkg :
  apply_profile node str_ref [] pkg = (pkg, []).
Proof. done. Qed.

End ProfileFacts.
(** ** Reasoning about runs *)

Section RunFacts.
Context {S : Type}.

Lemma wp_fuel {A} (m : M S A) s Q : wp m s Q -> out (m s) ≠ OutOfFuel.
Proof. unfold wp. by destruct (out (m s)). Qed.

Lemma wp_mono {A} (m : M S A) s (Q Q' : A -> S -> Prop) :
  wp m s Q -> (forall a s', Q a s' -> Q' a s') -> wp m s Q'.
Proof. unfold wp. destruct (out (m s)); auto. Qed.

Lemma wp_ret {A} (a : A) s (Q : A -> S -> Prop) : Q a s -> wp (ret a) s Q.
Proof. done. Qed.

Lemma wp_bind {A B} (m : M S A) (f : A -> M S B) s (Q : B -> S -> Prop) :
  wp m s (fun a s' => wp (f a) s' Q) -> wp (m ≫= f) s Q.
Proof.
  unfold wp, mbind, M_bind, bind. destruct (out (m s)); simpl; [|done..].
  by destruct (out (f a (final (m s)))).
Qed.

Lemma bind_Done {A B} (m : M S A) (f : A -> M S B) s b :
  out ((m ≫= f) s) = Done b ->
  exists a, out (m s) = Done a /\ out (f a (final (m s))) = Done b.
Proof.
  unfold mbind, M_bind, bind. destruct (out (m s)) as [a| |]; simpl; [|done..].
  intros E. by exists a.
Qed.

Lemma wp_raise {A} e s (Q : A -> S -> Prop) : wp (raise e) s Q.
Proof. done. Qed.

Lemma wp_tell e s (Q : unit -> S -> Prop) : Q tt s -> wp (tell e) s Q.
Proof. done. Qed.

Lemma wp_gets {A} (f : S -> A) s (Q : A -> S -> Prop) : Q (f s) s -> wp (gets f) s Q.
Proof. done. Qed.

Lemma wp_modify (f : S -> S) s (Q : unit -> S -> Prop) : Q tt (f s) -> wp (modify f) s Q.
Proof. done. Qed.

Lemma wp_lift_result {A} (r : result A) s (Q : A -> S -> Prop) :
  (forall a, r = Ok a -> Q a s) -> wp (lift_result r) s Q.
Proof. destruct r; simpl; [|done]. intros H. by apply H. Qed.

Lemma wp_nested {A} wrap (m : M S A) s (Q : A -> S -> Prop) :
  wp m s Q -> wp (nested wrap m) s Q.
Proof. done. Qed.

Lemma emits_ret {A} φ (a : A) : emits (S:=S) φ (ret a).
Proof. intros s. constructor. Qed.

Lemma emits_bind {A B} φ (m : M S A) (f : A -> M S B) :
  emits φ m -> (forall a, emits (S:=S) φ (f a)) -> emits (S:=S) φ (m ≫= f).
Proof.
  intros Hm Hf s. unfold mbind, M_bind, bind.
  destruct (out (m s)) eqn:E; simpl; [|apply Hm..].
  apply Forall_app. split; [apply Hm | apply Hf].
Qed.

Lemma emits_raise {A} φ e : emits (S:=S) φ (raise (A:=A) e).
Proof. intros s. constructor. Qed.

Lemma emits_tell φ e : φ e -> emits (S:=S) φ (tell e).
Proof. intros H s. by repeat constructor. Qed.

Lemma emits_gets {A} φ (f : S -> A) : emits (S:=S) φ (gets f).
Proof. intros s. constructor. Qed.

Lemma emits_modify φ (f : S -> S) : emits (S:=S) φ (modify f).
Proof. intros s. constructor. Qed.

Lemma emits_lift_result {A} φ (r : result A) : emits (S:=S) φ (lift_result r).
Proof. destruct r; [apply emits_ret | apply emits_raise]. Qed.

Lemma emits_nested {A} φ wrap (m : M S A) :
  (forall s, φ (wrap (events (m s)))) -> emits (S:=S) φ (nested wrap m).
Proof. intros H s. by repeat constructor. Qed.

Lemma emits_out_of_fuel {A} φ : emits (S:=S) φ (out_of_fuel (A:=A)).
Proof. intros s. constructor. Qed.

End RunFacts.

Lemma wp_call {W A} (c : Call W A) s (Q : A -> Store W -> Prop) :
  (forall a s', c s = (Ok a, s') -> Q a s') -> wp (call c) s Q.
Proof.
  unfold wp, call. destruct (c s) as [[a|e] s'] eqn:E; simpl; [|done].
  intros H. by apply H.
Qed.

Lemma emits_call {W A} φ (c : Call W A) : emits φ (call c).
Proof. intros s. unfold call. destruct (c s) as [[a|e] s']; constructor. Qed.

(** ** Traces with nested invocations *)

Lemma deep_leaf φ e : nested_events e = [] -> φ e -> deep φ e.
Proof. intros E H. constructor; [done|]. rewrite E. constructor. Qed.

(** ** Evaluation of a recipe *)

Section RecipeFacts.
Context `{C : Collaborators}.

Lemma wp_set_build_requires k m s (Q : unit -> Store World -> Prop) :
  (forall s', evaluated_at k m s s' -> Q tt s') ->
  wp (set_build_requires k m) s Q.
Proof.
  intros H. unfold set_build_requires, wp. simpl. apply H.
  split_and!; simpl; [done | by rewrite decide_True | intros x ?; by rewrite decide_False].
Qed.

Lemma evaluated_at_twice k m m' s s' s'' :
  evaluated_at k m s s' -> evaluated_at k m' s' s'' -> evaluated_at k m' s s''.
Proof.
  intros (Hn & Hk & Ho) (Hn' & Hk' & Ho'). split_and!.
  - congruence.
  - rewrite Hk', Hk. done.
  - intros x Hx. rewrite Ho', Ho; done.
Qed.

Lemma wp_get_recipe_build_requires k s (Q : RecipeBuildRequires -> Store World -> Prop) :
  (forall m s', recipe_build_requires (n_conanfile (heap s k)) = Ok m ->
                evaluated_at k m s s' -> Q m s') ->
  wp (_get_recipe_build_requires k) s Q.
Proof.
  intros H. unfold _get_recipe_build_requires.
  apply wp_bind, wp_gets. apply wp_bind, wp_lift_result. intros m Hm.
  apply wp_bind, wp_set_build_requires. intros s1 H1.
  unfold recipe_build_requires in H. rewrite Hm in H.
  destruct (cf_build_requirements (n_conanfile (heap s k))) as [method|].
  - destruct (method m) as [m'|e] eqn:E; [|apply wp_raise].
    apply wp_bind, wp_set_build_requires. intros s2 H2.
    apply wp_ret, H; [done|]. by eapply evaluated_at_twice.
  - apply wp_ret, H; done.
Qed.

Lemma emits_get_recipe_build_requires φ k : emits φ (_get_recipe_build_requires k).
Proof.
  unfold _get_recipe_build_requires, set_build_requires, get_node, set_node.
  apply emits_bind; [apply emits_gets|]. intros node.
  apply emits_bind; [apply emits_lift_result|]. intros m.
  apply emits_bind; [apply emits_bind; [apply emits_gets | intros; apply emits_modify]|].
  intros _. destruct (cf_build_requirements _); [|apply emits_ret].
  destruct (r m); [|apply emits_raise].
  apply emits_bind; [|intros; apply emits_ret].
  apply emits_bind; [apply emits_gets | intros; apply emits_modify].
Qed.

End RecipeFacts.

(** ** Termination of the expansion *)

Section MeasureFacts.
Context `{C : Collaborators}.
Variable name_depth : pyname -> nat.
#[local] Abbreviation shallower := (shallower name_depth).
#[local] Abbreviation recipe_descends := (recipe_descends name_depth).
#[local] Abbreviation settled := (settled name_depth).
#[local] Abbreviation stable := (stable name_depth).
#[local] Abbreviation graph_settled := (graph_settled name_depth).
Lemma stable_refl s : stable s s.
Proof. by intros x d. Qed.

Lemma stable_trans s1 s2 s3 : stable s1 s2 -> stable s2 s3 -> stable s1 s3.
Proof. intros H1 H2 x d ?. by apply H2, H1. Qed.

Lemma settled_ext (s s' : Store World) x d :
  x < next_key s' ->
  n_conanfile (heap s' x) = n_conanfile (heap s x) ->
  n_ref (heap s' x) = n_ref (heap s x) ->
  settled s x d -> settled s' x d.
Proof.
  intros Hx Hc Hr (_ & Hdesc & Hd). unfold settled, recipe_descends, node_name in *.
  rewrite Hc, Hr. done.
Qed.

Lemma evaluated_at_stable k m s s' : evaluated_at k m s s' -> stable s s'.
Proof.
  intros (Hn & Hk & Ho) x d (Hx & Hr & Hd). unfold settled. rewrite Hn.
  destruct (decide (x = k)) as [->|Hne].
  - rewrite Hk. split_and!; [done | | done].
    intros m' Hm'. unfold recipe_build_requires in Hm'. simpl in Hm'. done.
  - rewrite Ho by done. done.
Qed.

Lemma Forall_set {V} (Ψ : pyname * V -> Prop) k v (m : OrderedDict.t pyname V) :
  Forall Ψ m -> Ψ (k, v) -> Forall Ψ (OrderedDict.set k v m).
Proof.
  intros Hm Hkv. induction Hm as [|[k' v'] m Hx Hm IH]; simpl.
  - by repeat constructor.
  - destruct (decide (k' = k)) as [->|]; constructor; done.
Qed.

Lemma shallower_key D (m : RecipeBuildRequires) k :
  Forall (shallower D) m -> k ∈ OrderedDict.keys m -> name_depth k < D.
Proof.
  intros Hm Hk. unfold OrderedDict.keys in Hk.
  apply list_elem_of_fmap in Hk as ([k' v] & -> & Hin).
  rewrite Forall_forall in Hm. by destruct (Hm _ Hin).
Qed.

Lemma fold_build_requires_shallower D own brs pkg newp :
  Forall (shallower D) pkg ->
  Forall (shallower D) (foldl (apply_build_require own) (pkg, newp) brs).1.
Proof.
  revert pkg newp. induction brs as [|br brs IH]; intros pkg newp Hpkg; [done|].
  cbn [foldl]. destruct (decide (name br ∈ OrderedDict.keys pkg)) as [Hin|Hin].
  - rewrite apply_build_require_present by done. apply IH.
    apply Forall_set; [done|]. pose proof (shallower_key _ _ _ Hpkg Hin). by split.
  - rewrite apply_build_require_absent by done. by apply IH.
Qed.

Lemma apply_profile_shallower D node str_ref policy pkg :
  Forall (shallower D) pkg ->
  Forall (shallower D) (apply_profile node str_ref policy pkg).1.
Proof. rewrite apply_profile_flat. apply fold_build_requires_shallower. Qed.

Lemma shallower_values D (m : RecipeBuildRequires) :
  Forall (shallower D) m ->
  Forall (fun r => name_depth (name r) <= D - 1) (OrderedDict.values m).
Proof.
  unfold OrderedDict.values. intros Hm. apply Forall_fmap.
  eapply Forall_impl; [done|]. intros [k r] [_ ?]. simpl in *. lia.
Qed.

Section Builder.
Variable L : nat.
Hypothesis depth_bounded : forall nm, name_depth nm <= L.
Hypothesis analyzer_stable : analyzer_keeps_recipes name_depth.
Hypothesis builder_sound : builder_follows_depth name_depth.

Section Body.
Variable recurse : Branch -> ProfileBuildRequires -> DepsGraph -> M (Store World) unit.
Variable graph : DepsGraph.
Variable graph_lock : option GraphLock.
Variable policy : ProfileBuildRequires.
Variable d : nat.
Hypothesis recurse_declared :
  forall d' sub s, d' < d -> graph_settled sub s d' ->
    wp (recurse DeclaredBranch policy sub) s (fun _ s' => stable s s').
Hypothesis recurse_profile :
  policy = [] \/
  forall sub s, graph_settled sub s L ->
    wp (recurse ProfileBranch [] sub) s (fun _ s' => stable s s').

Lemma visit_node_wp pbr k s :
  default [] pbr = policy ->
  settled s k d ->
  wp (visit_node recurse graph graph_lock pbr k) s
     (fun pbr' s' => stable s s' /\ default [] pbr' = policy).
Proof.
  intros Hp (Hk & Hr & Hd). unfold visit_node.
  apply wp_bind, wp_gets.
  destruct (is_virtual (heap s k)).
  { apply wp_bind, wp_tell, wp_ret. split; [apply stable_refl | done]. }
  destruct (binary_is_settled (heap s k)).
  { apply wp_bind, wp_tell, wp_ret. split; [apply stable_refl | done]. }
  apply wp_bind, wp_tell. unfold expand_node.
  apply wp_bind, wp_get_recipe_build_requires. intros m s1 Hm H1.
  cbv zeta. rewrite Hp.
  set (applied := apply_profile (heap s k) (str_of_ref (n_ref (heap s k))) policy m).
  apply wp_bind, wp_set_build_requires. intros s2 H2.
  assert (stable s s2) as Hs2.
  { eapply stable_trans; by eapply evaluated_at_stable. }
  assert (Forall (shallower (name_depth (node_name (heap s k)))) applied.1) as Happ.
  { apply apply_profile_shallower. by apply Hr. }
  apply wp_bind.
  apply wp_mono with (Q := fun _ s' => stable s2 s').
  { destruct (OrderedDict.truthy applied.1) eqn:Et; [|apply wp_ret, stable_refl].
    apply wp_bind, wp_tell. apply wp_bind, wp_call. intros sub s3 Hext.
    destruct (builder_sound _ _ _ _ _ _ _ Hext) as (Hs3 & Hnew).
    assert (0 < name_depth (node_name (heap s k))) as Hpos.
    { destruct applied.1 as [|kv ?]; [done|].
      apply Forall_cons in Happ as [[? _] _]. lia. }
    eapply wp_mono.
    - apply (recurse_declared (name_depth (node_name (heap s k)) - 1)); [lia|].
      apply Hnew. by apply shallower_values.
    - intros ? s4 Hs4. simpl in Hs4. by eapply stable_trans. }
  intros ? s4 Hs4. apply wp_bind.
  apply wp_mono with (Q := fun _ s' => stable s4 s').
  { case_bool_decide as En; [|apply wp_ret, stable_refl].
    destruct recurse_profile as [Hempty|Hrec].
    { exfalso. apply En. subst applied. rewrite Hempty. done. }
    apply wp_bind, wp_tell. apply wp_bind, wp_call. intros sub s5 Hext.
    destruct (builder_sound _ _ _ _ _ _ _ Hext) as (Hs5 & Hnew).
    eapply wp_mono.
    - apply Hrec. apply Hnew.
      apply Forall_forall. intros r _. apply depth_bounded.
    - intros ? s6 Hs6. simpl in Hs6. by eapply stable_trans. }
  intros ? s6 Hs6. apply wp_ret. split; [|done].
  eapply stable_trans; [|done]. by eapply stable_trans.
Qed.

Lemma visit_nodes_wp nodes pbr s :
  default [] pbr = policy ->
  (forall x, x ∈ nodes -> settled s x d) ->
  wp (visit_nodes recurse graph graph_lock pbr nodes) s (fun _ s' => stable s s').
Proof.
  revert pbr s. induction nodes as [|k nodes IH]; intros pbr s Hp Hall.
  - apply wp_ret, stable_refl.
  - cbn [visit_nodes]. apply wp_bind.
    eapply wp_mono; [apply visit_node_wp; [done|] |].
    + apply Hall. by left.
    + intros pbr' s' [Hs' Hp']. simpl.
      eapply wp_mono; [apply IH; [done|] |].
      * intros x Hx. apply Hs', Hall. by right.
      * intros ? s'' Hs''. simpl in Hs''. by eapply stable_trans.
Qed.

Lemma recurse_body_wp sub pbr apply_build_requires s :
  default [] pbr = policy ->
  graph_settled sub s d ->
  wp (recurse_body recurse graph graph_lock sub pbr apply_build_requires) s
     (fun _ s' => stable s s').
Proof.
  intros Hp Hsub. unfold recurse_body.
  apply wp_bind, wp_tell. apply wp_bind, wp_call. intros [] s1 Hev.
  pose proof (analyzer_stable _ _ _ Hev) as Hs1.
  destruct apply_build_requires; simpl; [|by apply wp_ret].
  apply wp_bind, wp_gets.
  eapply wp_mono; [apply visit_nodes_wp; [done|] |].
  - intros x Hx. apply Hs1. by eapply Hsub.
  - intros ? s2 Hs2. simpl in Hs2. by eapply stable_trans.
Qed.

End Body.

(** With an empty policy, fuel beyond the depth of the nodes is enough. *)
Lemma recurse_wp_empty fuel graph sub pbr lock apply_build_requires s d :
  default [] pbr = [] ->
  graph_settled sub s d ->
  d < fuel ->
  wp (_recurse_build_requires fuel graph sub pbr lock apply_build_requires) s
     (fun _ s' => stable s s').
Proof.
  revert sub pbr apply_build_requires s d.
  induction fuel as [|fuel IH]; intros sub pbr ap s d Hp Hsub Hd; [lia|].
  cbn [_recurse_build_requires].
  eapply recurse_body_wp with (policy := []) (d := d); [ | by left | done | done].
  intros d' sub' s' Hd' Hsub'. apply wp_nested.
  eapply IH; [done | done | lia].
Qed.

(** With any policy, it takes [L + 1] more. *)
Lemma recurse_wp fuel graph sub pbr lock apply_build_requires s d :
  graph_settled sub s d ->
  d + L + 1 < fuel ->
  wp (_recurse_build_requires fuel graph sub pbr lock apply_build_requires) s
     (fun _ s' => stable s s').
Proof.
  revert sub pbr apply_build_requires s d.
  induction fuel as [|fuel IH]; intros sub pbr ap s d Hsub Hd; [lia|].
  cbn [_recurse_build_requires].
  eapply recurse_body_wp with (policy := default [] pbr) (d := d); [ | | done | done].
  - intros d' sub' s' Hd' Hsub'. apply wp_nested. eapply IH; [done | lia].
  - right. intros sub' s' Hsub'. apply wp_nested.
    eapply recurse_wp_empty; [done | done | lia].
Qed.

End Builder.
End MeasureFacts.

(** ** Events of the expansion *)

Section EventFacts.
Context `{C : Collaborators}.

Section Body.
Variable φ : Event -> Prop.
Variable recurse : Branch -> ProfileBuildRequires -> DepsGraph -> M (Store World) unit.
Variable graph : DepsGraph.
Variable graph_lock : option GraphLock.
Variable policy : ProfileBuildRequires.
Hypothesis analyze_ok : φ EvAnalyze.
Hypothesis skip_ok : forall k n, φ (EvSkip k n).
Hypothesis evaluate_ok : forall k n, φ (EvEvaluate k n).
Hypothesis declared_ok : forall k nm reqs, φ (EvExtend DeclaredBranch k nm reqs).
Hypothesis recurse_declared : forall sub, emits φ (recurse DeclaredBranch policy sub).
Hypothesis profile_ok :
  policy = [] \/
  ((forall k node pkg,
      φ (EvExtend ProfileBranch k (node_name node)
           (apply_profile node (str_of_ref (n_ref node)) policy pkg).2))
   /\ forall sub, emits φ (recurse ProfileBranch [] sub)).

Lemma expand_node_emits pbr k node :
  default [] pbr = policy ->
  emits φ (expand_node recurse graph graph_lock pbr k node).
Proof.
  intros Hp. unfold expand_node.
  apply emits_bind; [apply emits_get_recipe_build_requires | intros m].
  cbv zeta. rewrite Hp.
  apply emits_bind.
  { unfold set_build_requires, get_node, set_node.
    apply emits_bind; [apply emits_gets | intros; apply emits_modify]. }
  intros _. apply emits_bind.
  { destruct (OrderedDict.truthy _); [|apply emits_ret].
    apply emits_bind; [by apply emits_tell | intros _].
    apply emits_bind; [apply emits_call | intros sub]. apply recurse_declared. }
  intros _. apply emits_bind; [|intros; apply emits_ret].
  case_bool_decide as En; [|apply emits_ret].
  destruct profile_ok as [Hempty|[Hext Hrec]].
  { exfalso. apply En. rewrite Hempty. done. }
  apply emits_bind; [apply emits_tell, Hext | intros _].
  apply emits_bind; [apply emits_call | intros sub]. apply Hrec.
Qed.

Lemma visit_node_emits pbr k :
  (forall n, φ (EvSkip k n)) ->
  (forall n, φ (EvEvaluate k n)) ->
  default [] pbr = policy ->
  emits φ (visit_node recurse graph graph_lock pbr k).
Proof.
  intros Hskip Heval Hp. unfold visit_node.
  apply emits_bind; [apply emits_gets|]. intros node.
  destruct (is_virtual node).
  { apply emits_bind; [by apply emits_tell | intros; apply emits_ret]. }
  destruct (binary_is_settled node).
  { apply emits_bind; [by apply emits_tell | intros; apply emits_ret]. }
  apply emits_bind; [by apply emits_tell | intros _].
  by apply expand_node_emits.
Qed.

Lemma visit_node_policy pbr k s pbr' :
  out (visit_node recurse graph graph_lock pbr k s) = Done pbr' ->
  default [] pbr' = default [] pbr.
Proof.
  unfold visit_node. intros E.
  apply bind_Done in E as (node & _ & E). cbv beta in E.
  destruct (is_virtual node).
  { apply bind_Done in E as (? & _ & E). by injection E as <-. }
  destruct (binary_is_settled node).
  { apply bind_Done in E as (? & _ & E). by injection E as <-. }
  unfold expand_node in E.
  repeat (cbv beta zeta in E; apply bind_Done in E as (? & _ & E)).
  by injection E as <-.
Qed.

Lemma visit_nodes_emits nodes pbr :
  default [] pbr = policy ->
  emits φ (visit_nodes recurse graph graph_lock pbr nodes).
Proof.
  revert pbr. induction nodes as [|k nodes IH]; intros pbr Hp; [apply emits_ret|].
  cbn [visit_nodes]. intros s. unfold mbind, M_bind, bind.
  pose proof (visit_node_emits pbr k (skip_ok k) (evaluate_ok k) Hp s) as Hk.
  destruct (out (visit_node recurse graph graph_lock pbr k s)) as [pbr'| |] eqn:E;
    simpl; [|done..].
  apply Forall_app. split; [done|]. apply IH.
  apply visit_node_policy in E. congruence.
Qed.

Lemma recurse_body_emits sub pbr apply_build_requires :
  default [] pbr = policy ->
  emits φ (recurse_body recurse graph graph_lock sub pbr apply_build_requires).
Proof.
  intros Hp. unfold recurse_body.
  apply emits_bind; [by apply emits_tell | intros _].
  apply emits_bind; [apply emits_call | intros _].
  destruct apply_build_requires; simpl; [|apply emits_ret].
  apply emits_bind; [apply emits_gets | intros nodes].
  by apply visit_nodes_emits.
Qed.

End Body.

Lemma recurse_quiet fuel graph sub pbr lock apply_build_requires :
  default [] pbr = [] ->
  emits (deep quiet)
    (_recurse_build_requires fuel graph sub pbr lock apply_build_requires).
Proof.
  revert sub pbr apply_build_requires.
  induction fuel as [|fuel IH]; intros sub pbr ap Hp; [apply emits_out_of_fuel|].
  cbn [_recurse_build_requires].
  apply recurse_body_emits with (policy := []); try done;
    try (intros; by apply deep_leaf).
  - intros sub'. apply emits_nested. intros s.
    constructor; [done|]. by apply IH.
  - by left.
Qed.

Lemma recurse_profile_branch_quiet fuel graph sub pbr lock apply_build_requires :
  emits (deep profile_branch_quiet)
    (_recurse_build_requires fuel graph sub pbr lock apply_build_requires).
Proof.
  revert sub pbr apply_build_requires.
  induction fuel as [|fuel IH]; intros sub pbr ap; [apply emits_out_of_fuel|].
  cbn [_recurse_build_requires].
  apply recurse_body_emits with (policy := default [] pbr); try done;
    try (intros; by apply deep_leaf).
  - intros sub'. apply emits_nested. intros s.
    constructor; [done|]. by apply IH.
  - right. split; [intros; by apply deep_leaf|].
    intros sub'. apply emits_nested. intros s.
    constructor; [|by apply IH].
    split; [done|]. by apply recurse_quiet.
Qed.

Lemma recurse_no_self_requirement fuel graph sub pbr lock apply_build_requires :
  emits (deep no_self_requirement)
    (_recurse_build_requires fuel graph sub pbr lock apply_build_requires).
Proof.
  revert sub pbr apply_build_requires.
  induction fuel as [|fuel IH]; intros sub pbr ap; [apply emits_out_of_fuel|].
  cbn [_recurse_build_requires].
  apply recurse_body_emits with (policy := default [] pbr); try done;
    try (intros; by apply deep_leaf).
  - intros sub'. apply emits_nested. intros s.
    constructor; [done|]. by apply IH.
  - right. split.
    + intros k node pkg. apply deep_leaf; [done|]. simpl.
      destruct (apply_profile_spec node (str_of_ref (n_ref node)) (default [] pbr) pkg)
        as (_ & _ & ->).
      apply Forall_forall. intros r [[_ ?] _]%list_elem_of_filter. done.
    + intros sub'. apply emits_nested. intros s.
      constructor; [done|]. by apply IH.
Qed.

End EventFacts.

(** ** The example installation satisfies the assumptions *)

Module DemoFacts.
Import Demo.

Lemma depth_bounded nm : name_depth nm <= 1.
Proof. unfold name_depth. repeat case_decide; lia. Qed.

Lemma analyzer_stable : analyzer_keeps_recipes name_depth.
Proof.
  intros g s s' [= <-] x d Hx. eapply settled_ext; [apply Hx | | | done]; simpl;
    by case_bool_decide.
Qed.

Lemma closure_add_recipe nm x n :
  n_conanfile (closure_add nm x n) = n_conanfile n
  /\ n_ref (closure_add nm x n) = n_ref n.
Proof. unfold closure_add. by destruct (n_public_closure n). Qed.

Lemma add_build_require_stable k s cf req :
  stable name_depth s (add_build_require k s cf req).2.
Proof.
  intros y d Hy. pose proof Hy as (Hlt & _).
  eapply settled_ext; [ | | | done]; simpl in *.
  - lia.
  - rewrite decide_False by lia. case_decide; [subst|done]. apply closure_add_recipe.
  - rewrite decide_False by lia. case_decide; [subst|done]. apply closure_add_recipe.
Qed.

Lemma get_Some_elem {K V} `{EqDecision K} (k : K) (v : V) d :
  OrderedDict.get k d = Some v -> (k, v) ∈ d.
Proof.
  induction d as [|[k' v'] d IH]; simpl; [done|].
  case_decide; [intros [= ->]; subst; by left | intros ?; right; by apply IH].
Qed.

Lemma registry_descends nm cf :
  OrderedDict.get nm registry = Some cf ->
  forall m, recipe_build_requires cf = Ok m -> Forall (shallower name_depth (name_depth nm)) m.
Proof.
  intros Hin%get_Some_elem m. unfold registry in Hin.
  repeat (apply elem_of_cons in Hin as [[= -> ->]|Hin]);
    try (intros [= <-]; repeat constructor; vm_compute; lia).
  by apply elem_of_nil in Hin.
Qed.

Lemma add_build_require_settled k s cf req d :
  OrderedDict.get (name req) registry = Some cf ->
  name_depth (name req) <= d ->
  settled name_depth (add_build_require k s cf req).2 (next_key s) d.
Proof.
  intros Hcf Hd. unfold settled, recipe_descends, node_name. simpl.
  rewrite decide_True by done. simpl. split_and!; [lia | | done].
  by apply registry_descends.
Qed.

Lemma extend_nodes_sound k reqs s xs s' :
  extend_nodes k reqs s = (Ok xs, s') ->
  stable name_depth s s'
  /\ forall d, Forall (fun r => name_depth (name r) <= d) reqs ->
               forall x, x ∈ xs -> settled name_depth s' x d.
Proof.
  revert s xs s'. induction reqs as [|req reqs IH]; intros s xs s'; cbn [extend_nodes].
  - intros [= <- <-]. split; [apply stable_refl|]. by intros d _ x ?%elem_of_nil.
  - destruct (OrderedDict.get (name req) registry) as [cf|] eqn:Hcf; [|done].
    pose proof (add_build_require_stable k s cf req) as Hst0.
    pose proof (add_build_require_settled k s cf req) as Hnew0.
    destruct (add_build_require k s cf req) as [x0 s0] eqn:Eadd.
    assert (x0 = next_key s) as -> by (by injection Eadd as <- _).
    cbn [snd] in *.
    destruct (extend_nodes k reqs s0) as [[xs'|e] s''] eqn:E; [|done].
    intros [= <- <-]. destruct (IH _ _ _ E) as (Hst & Hnew).
    split; [by eapply stable_trans|].
    intros d [Hd Hds]%Forall_cons x [->|Hx]%elem_of_cons; [|by eapply Hnew].
    apply Hst. by apply Hnew0.
Qed.

Lemma builder_sound : builder_follows_depth name_depth.
Proof.
  intros g k reqs lock s sub s'. simpl. unfold extend.
  destruct (extend_nodes k reqs s) as [[xs|e] s0] eqn:E; [|done].
  intros [= <- <-]. destruct (extend_nodes_sound _ _ _ _ _ E) as (Hst & Hnew).
  split; [done|]. intros d Hd s1 x _ Hx. by eapply Hnew.
Qed.

Lemma app_settled : graph_settled name_depth Whole app_store 1.
Proof.
  intros s1 x [= <-] Hx. simpl in Hx.
  apply list_elem_of_singleton in Hx as ->.
  split_and!; [simpl; lia | | vm_compute; lia].
  intros m [= <-]. repeat constructor; vm_compute; lia.
Qed.

End DemoFacts.

(** ** Termination and depth of the expansion *)

(** C1 (amended).  Let [name_depth] bound, by package name, the length of
    the chains of build-requirements ([L] at most), such that recipes only
    ask for packages below their own and the collaborators respect it.
    Then an expansion started on nodes of depth [d] does not run out of fuel
    with [d + L + 2] nested invocations; with an empty policy [d + 1]
    suffice and no requirement is ever added for the profile; and, whatever
    the policy, each invocation made for requirements that the profile adds
    receives the empty policy and runs without adding any for the profile
    again. *)
Theorem expansion_terminates `{C : Collaborators} (name_depth : pyname -> nat) (L : nat) :
  (forall nm, name_depth nm <= L) ->
  analyzer_keeps_recipes name_depth ->
  builder_follows_depth name_depth ->
  forall fuel graph sub pbr lock apply_build_requires s d,
    graph_settled name_depth sub s d ->
    let run := _recurse_build_requires fuel graph sub pbr lock apply_build_requires s in
    (d + L + 2 <= fuel -> out run ≠ OutOfFuel)
    /\ (default [] pbr = [] -> d + 1 <= fuel ->
        out run ≠ OutOfFuel /\ Forall (deep quiet) (events run))
    /\ Forall (deep profile_branch_quiet) (events run).
Proof.
  intros HL Han Hbu fuel graph sub pbr lock ap s d Hsub run. split_and!.
  - intros Hf. eapply wp_fuel, recurse_wp; eauto. lia.
  - intros Hp Hf. split.
    + eapply wp_fuel, recurse_wp_empty; eauto. lia.
    + by apply recurse_quiet.
  - apply recurse_profile_branch_quiet.
Qed.

(** C1 in the example installation: the consumer [app] with the policy that
    gives the tool [t] to every other package. *)
Lemma expansion_terminates_witness :
  let run := _recurse_build_requires (C := Demo.collaborators) 4 Demo.Whole Demo.Whole
               (Some Demo.tool_for_all) None true Demo.app_store in
  (1 + 1 + 2 <= 4 -> out run ≠ OutOfFuel)
  /\ (default [] (Some Demo.tool_for_all) = [] -> 1 + 1 <= 4 ->
      out run ≠ OutOfFuel /\ Forall (deep quiet) (events run))
  /\ Forall (deep profile_branch_quiet) (events run).
Proof.
  apply (expansion_terminates (C := Demo.collaborators) Demo.name_depth 1
           DemoFacts.depth_bounded DemoFacts.analyzer_stable DemoFacts.builder_sound
           4 Demo.Whole Demo.Whole (Some Demo.tool_for_all) None true Demo.app_store 1
           DemoFacts.app_settled).
Defined.

(** C1 as stated fails: the depth of the recursion is not bounded by the
    longest chain of declared build-requirements.  In the example
    installation no chain is longer than one step ([app] to [b1], [t] to
    [u]), yet three invocations nested in one another are not enough: the
    consumer declares [b1], the policy adds [t] to [b1], and [t] declares
    [u]. *)
Lemma expansion_deeper_than_longest_chain :
  ~ (forall (C : Collaborators) (name_depth : pyname -> nat) (L : nat),
       (forall nm, name_depth nm <= L) ->
       analyzer_keeps_recipes name_depth ->
       builder_follows_depth name_depth ->
       forall fuel graph sub pbr lock s,
         graph_settled name_depth sub s L ->
         L + 2 <= fuel ->
         out (_recurse_build_requires fuel graph sub pbr lock true s) ≠ OutOfFuel).
Proof.
  intros H.
  apply (H Demo.collaborators Demo.name_depth 1 DemoFacts.depth_bounded
           DemoFacts.analyzer_stable DemoFacts.builder_sound 3 Demo.Whole Demo.Whole
           (Some Demo.tool_for_all) None Demo.app_store DemoFacts.app_settled); [lia|].
  vm_compute. reflexivity.
Qed.

(** ** Unfolding runs *)

Lemma events_bind {S A B} (m : M S A) (f : A -> M S B) s :
  events ((m ≫= f) s) =
  (events (m s) ++
   match out (m s) with
   | Done a => events (f a (final (m s)))
   | _ => []
   end)%list.
Proof.
  unfold mbind, M_bind, bind. destruct (out (m s)); simpl; by rewrite ?app_nil_r.
Qed.

Lemma out_bind {S A B} (m : M S A) (f : A -> M S B) s :
  out ((m ≫= f) s) =
  match out (m s) with
  | Done a => out (f a (final (m s)))
  | Raised e => Raised e
  | OutOfFuel => OutOfFuel
  end.
Proof. unfold mbind, M_bind, bind. by destruct (out (m s)). Qed.

(** ** Which nodes are evaluated, and in which order *)

Section TurnFacts.
Context `{C : Collaborators}.

Lemma needs_build_requires_guards n :
  needs_build_requires n <-> is_virtual n = false /\ binary_is_settled n = false.
Proof.
  unfold needs_build_requires, is_virtual, binary_is_settled.
  repeat case_bool_decide; simpl; intuition congruence.
Qed.

Section Body.
Variable recurse : Branch -> ProfileBuildRequires -> DepsGraph -> M (Store World) unit.
Variable graph : DepsGraph.
Variable graph_lock : option GraphLock.
Hypothesis recurse_ok : forall b policy sub, emits below_a_turn (recurse b policy sub).

Lemma visit_node_turn pbr k s :
  exists e rest,
    events (visit_node recurse graph graph_lock pbr k s) = e :: rest
    /\ visited e = Some k
    /\ turn_justified e
    /\ Forall below_a_turn rest.
Proof.
  unfold visit_node. rewrite events_bind. simpl.
  destruct (is_virtual (heap s k)) eqn:Ev.
  { exists (EvSkip k (heap s k)), []. split_and!; [done | done | | done].
    simpl. rewrite needs_build_requires_guards. intros [? _]. congruence. }
  destruct (binary_is_settled (heap s k)) eqn:Eb.
  { exists (EvSkip k (heap s k)), []. split_and!; [done | done | | done].
    simpl. rewrite needs_build_requires_guards. intros [_ ?]. congruence. }
  rewrite events_bind. simpl.
  eexists _, _. split_and!; [done | done | | ].
  - simpl. by apply needs_build_requires_guards.
  - apply expand_node_emits with (policy := default [] pbr); [ | | | done].
    + intros. split; [done|]. by apply deep_leaf.
    + intros. apply recurse_ok.
    + right. split; [|intros; apply recurse_ok].
      intros. split; [done|]. by apply deep_leaf.
Qed.

Lemma omap_visited_cons e tr :
  omap visited (e :: tr) =
  match visited e with
  | Some k => k :: omap visited tr
  | None => omap visited tr
  end.
Proof. done. Qed.

Lemma omap_below_a_turn tr : Forall below_a_turn tr -> omap visited tr = [].
Proof.
  induction 1 as [|e tr [He _] _ IH]; [done|]. by rewrite omap_visited_cons, He.
Qed.

Lemma below_a_turn_deep tr : Forall below_a_turn tr -> Forall (deep turn_justified) tr.
Proof. intros H. eapply Forall_impl; [done|]. by intros e [_ ?]. Qed.

Lemma visit_nodes_turns nodes pbr s :
  let r := visit_nodes recurse graph graph_lock pbr nodes s in
  Forall (deep turn_justified) (events r)
  /\ omap visited (events r) `prefix_of` nodes
  /\ (out r = Done tt -> omap visited (events r) = nodes).
Proof.
  cbv zeta. revert pbr s. induction nodes as [|k nodes IH]; intros pbr s.
  - split_and!; [constructor | done | done].
  - cbn [visit_nodes]. rewrite events_bind, out_bind.
    destruct (visit_node_turn pbr k s) as (e & rest & -> & Hk & Hj & Hrest).
    assert (deep turn_justified e) as He.
    { apply deep_leaf; [by destruct e|done]. }
    rewrite <- app_comm_cons, omap_visited_cons, Hk, omap_app, (omap_below_a_turn rest) by done.
    cbn [app].
    destruct (out (visit_node recurse graph graph_lock pbr k s)) as [pbr'| |].
    + destruct (IH pbr' (final (visit_node recurse graph graph_lock pbr k s)))
        as (Hd & Hp & Hq).
      split_and!.
      * constructor; [done|]. apply Forall_app. split; [by apply below_a_turn_deep|done].
      * by apply prefix_cons.
      * intros Hout. by rewrite Hq.
    + rewrite app_nil_r. split_and!; [| |done].
      * constructor; [done|]. by apply below_a_turn_deep.
      * apply prefix_cons, prefix_nil.
    + rewrite app_nil_r. split_and!; [| |done].
      * constructor; [done|]. by apply below_a_turn_deep.
      * apply prefix_cons, prefix_nil.
Qed.

Lemma recurse_body_turns sub pbr apply_build_requires s :
  let r := recurse_body recurse graph graph_lock sub pbr apply_build_requires s in
  Forall (deep turn_justified) (events r)
  /\ (apply_build_requires = true ->
      forall s1, evaluate_graph sub s = (Ok tt, s1) ->
        omap visited (events r) `prefix_of` ordered_iterate sub s1
        /\ (out r = Done tt -> omap visited (events r) = ordered_iterate sub s1)).
Proof.
  cbv zeta. unfold recurse_body, mbind, M_bind, bind, tell, call, gets, ret. simpl.
  destruct (evaluate_graph sub s) as [[[]|e] s1] eqn:Eev; simpl.
  - destruct apply_build_requires; simpl.
    + destruct (visit_nodes_turns (ordered_iterate sub s1) pbr s1) as (Hd & Hp & Hq).
      split; [constructor; [by apply deep_leaf | done]|].
      intros _ s1' [= <-]. done.
    + split; [repeat constructor; by apply deep_leaf | done].
  - split; [repeat constructor; by apply deep_leaf | done].
Qed.

End Body.

Lemma recurse_turns fuel graph sub pbr lock apply_build_requires :
  emits (deep turn_justified)
    (_recurse_build_requires fuel graph sub pbr lock apply_build_requires).
Proof.
  revert sub pbr apply_build_requires.
  induction fuel as [|fuel IH]; intros sub pbr ap s; [constructor|].
  cbn [_recurse_build_requires]. apply recurse_body_turns.
  intros b policy sub'. apply emits_nested. intros s'. split; [done|].
  constructor; [done|]. apply IH.
Qed.

End TurnFacts.

(** C2.  In an invocation that applies build-requires, the turns of the loop
    are the nodes that the subgraph yields after the analysis, in that
    order, and in every invocation, nested ones included, a turn evaluates
    the build-requirements of its node if and only if the node is not
    virtual and is to be built, editable, the consumer or of undecided
    package id; any other node is skipped. *)
Theorem build_requires_evaluated_when_needed `{C : Collaborators}
    fuel graph sub pbr lock s :
  let run := _recurse_build_requires (S fuel) graph sub pbr lock true s in
  Forall (deep turn_justified) (events run)
  /\ (forall n, needs_build_requires n <->
                is_virtual n = false /\ binary_is_settled n = false)
  /\ (forall s1, evaluate_graph sub s = (Ok tt, s1) ->
        omap visited (events run) `prefix_of` ordered_iterate sub s1
        /\ (out run = Done tt -> omap visited (events run) = ordered_iterate sub s1)).
Proof.
  cbv zeta. split_and!.
  - apply recurse_turns.
  - apply needs_build_requires_guards.
  - cbn [_recurse_build_requires]. apply recurse_body_turns; [|done].
    intros b policy sub'. apply emits_nested. intros s'. split; [done|].
    constructor; [done|]. apply recurse_turns.
Qed.

(** C9.  A build-requirement of the profile that carries the name of the
    node and is not declared by the recipe is dropped; no requirement that
    the profile adds to a node carries the name of the node or a name the
    recipe declares; hence, in every invocation, nested ones included, no
    extension made for the profile asks for a package named after the node
    it extends. *)
Theorem profile_never_adds_self_requirement `{C : Collaborators}
    fuel graph sub pbr lock apply_build_requires s :
  (forall own pkg newp br,
      name br ∉ OrderedDict.keys pkg -> name br = own ->
      apply_build_require own (pkg, newp) br = (pkg, newp))
  /\ (forall node str_ref policy pkg r,
        r ∈ (apply_profile node str_ref policy pkg).2 ->
        name r ≠ node_name node /\ name r ∉ OrderedDict.keys pkg)
  /\ Forall (deep no_self_requirement)
       (events (_recurse_build_requires fuel graph sub pbr lock apply_build_requires s)).
Proof.
  split_and!.
  - intros own pkg newp br Hk Ho. rewrite apply_build_require_absent by done.
    by rewrite decide_False by (intros ?; done).
  - intros node str_ref policy pkg r.
    destruct (apply_profile_spec node str_ref policy pkg) as (_ & _ & ->).
    intros [[? ?] _]%list_elem_of_filter. done.
  - apply recurse_no_self_requirement.
Qed.

(** ** The profile overrides what the recipe declares *)

(** C3.  A build-requirement of the profile whose name is a key of the
    recipe's dictionary takes the place of the stored value: the keys stay
    as they were, in their order, the key holds the profile's reference and
    nothing is appended to the list of requirements that the profile adds.
    Over the whole policy, each declared name ends with the last applicable
    reference of the profile for it, or with the recipe's own.  Example: the
    consumer declares [toolX/1.0], the profile gives [toolX/2.0] under ["&"],
    and the node is extended with, and records, [toolX/2.0]. *)
Theorem profile_overrides_declared_build_requires `{C : Collaborators} :
  (forall own (pkg : RecipeBuildRequires) newp br,
      name br ∈ OrderedDict.keys pkg ->
      exists pkg',
        apply_build_require own (pkg, newp) br = (pkg', newp)
        /\ OrderedDict.keys pkg' = OrderedDict.keys pkg
        /\ OrderedDict.get (name br) pkg' = Some br
        /\ forall k, k ≠ name br -> OrderedDict.get k pkg' = OrderedDict.get k pkg)
  /\ (forall node policy (pkg : RecipeBuildRequires),
        let str_ref := str_of_ref (n_ref node) in
        let applied := apply_profile node str_ref policy pkg in
        OrderedDict.keys applied.1 = OrderedDict.keys pkg
        /\ (forall k, k ∈ OrderedDict.keys pkg ->
              OrderedDict.get k applied.1 =
              match last (filter (fun r => name r = k) (applicable node str_ref policy)) with
              | Some r => Some r
              | None => OrderedDict.get k pkg
              end)
        /\ (forall r, r ∈ applied.2 -> name r ∉ OrderedDict.keys pkg))
  /\ (let run := load_graph (C := Demo.collaborators) 4
                   (RefPath "tool_user/conanfile.py") None true
                   (Demo.start Demo.pin_toolX None) in
      out run = Done Demo.Whole
      /\ events run !! 6 =
         Some (EvExtend DeclaredBranch 0 (Some "tool_user") [Demo.ref_of "toolX" "2.0"])
      /\ cf_build_requires (n_conanfile (heap (lg_store (final run)) 0)) =
         AttrMap [(Some "toolX", Demo.ref_of "toolX" "2.0")]).
Proof.
  split_and!.
  - intros own pkg newp br Hin. eexists. split_and!.
    + by apply apply_build_require_present.
    + by apply OrderedDictFacts.set_present.
    + apply OrderedDictFacts.get_set_eq.
    + intros k Hk. by apply OrderedDictFacts.get_set_ne.
  - intros node policy pkg str_ref applied.
    destruct (apply_profile_spec node str_ref policy pkg) as (Hk & Hg & Hn).
    split_and!; [done | |].
    + intros k Hin. subst applied. rewrite Hg. by rewrite decide_True.
    + intros r. subst applied. rewrite Hn.
      intros [[? ?] _]%list_elem_of_filter. done.
  - vm_compute. done.
Qed.

(** ** [load_graph] *)

Section LoadGraphFacts.
Context `{C : Collaborators}.

(** C10.  With revisions disabled, [load_graph] on a single reference that
    carries a revision raises the exception before any collaborator is
    called: no recipe is loaded, no node is created, the store is
    untouched. *)
Theorem revision_refused_before_root_node fuel reference create_reference
    apply_build_requires (s : LGState World) :
  revisions_enabled = false ->
  revision reference ≠ None ->
  let run := load_graph fuel (RefOne reference) create_reference apply_build_requires s in
  out run = Raised (ConanException
    "Revisions not enabled in the client, specify a reference without revision")
  /\ events run = []
  /\ lg_store (final run) = lg_store s.
Proof.
  intros Hrev Hr. cbv zeta.
  unfold load_graph, load_graph_resolve, load_root.
  rewrite Hrev. rewrite bool_decide_eq_true_2 by done. done.
Qed.

Lemma keeps_lock_ret {A} (a : A) : keeps_lock (ret a).
Proof. done. Qed.

Lemma keeps_lock_bind {A B} (m : M (LGState World) A) (f : A -> M (LGState World) B) :
  keeps_lock m -> (forall a, keeps_lock (f a)) -> keeps_lock (m ≫= f).
Proof.
  intros Hm Hf s. unfold mbind, M_bind, bind.
  destruct (out (m s)) eqn:E; simpl; [|apply Hm..].
  rewrite Hf. apply Hm.
Qed.

Lemma keeps_lock_raise {A} e : keeps_lock (raise (A:=A) e).
Proof. done. Qed.

Lemma keeps_lock_tell e : keeps_lock (tell e).
Proof. done. Qed.

Lemma keeps_lock_gets {A} (f : LGState World -> A) : keeps_lock (gets f).
Proof. done. Qed.

Lemma keeps_lock_lift_result {A} (r : result A) : keeps_lock (lift_result r).
Proof. by destruct r. Qed.

Lemma keeps_lock_on_store {A} (m : M (Store World) A) : keeps_lock (on_store m).
Proof. done. Qed.

Lemma keeps_lock_modify_info f :
  (forall gi, gi_graph_lock (f gi) = gi_graph_lock gi) -> keeps_lock (modify_info f).
Proof. intros H s. apply H. Qed.

Lemma keeps_lock_for_each {A} (l : list A) body :
  (forall x, keeps_lock (body x)) -> keeps_lock (for_each l body).
Proof.
  intros H. induction l as [|x l IH]; [done|].
  cbn [for_each]. apply (keeps_lock_bind (body x)); [apply H | by intros _].
Qed.

Ltac keeps_lock_step :=
  first
    [ apply keeps_lock_ret | apply keeps_lock_raise | apply keeps_lock_tell
    | apply keeps_lock_gets | apply keeps_lock_lift_result
    | apply keeps_lock_on_store | apply keeps_lock_modify_info; by intros []
    | apply keeps_lock_bind; [|intros ?] ].

Lemma load_root_from_path_keeps_lock path create_reference profile lock :
  keeps_lock (load_root_from_path path create_reference profile lock).
Proof.
  unfold load_root_from_path. destruct (ends_with_py path).
  - apply keeps_lock_bind.
    + destruct lock as [lock|], create_reference as [r|]; try apply keeps_lock_ret.
      apply keeps_lock_bind; [apply keeps_lock_gets | intros root].
      apply keeps_lock_bind.
      { destruct (name root); [apply keeps_lock_ret|]. repeat keeps_lock_step. }
      intros _. repeat keeps_lock_step.
    + intros reqs. repeat keeps_lock_step.
      destruct create_reference; repeat keeps_lock_step.
  - repeat keeps_lock_step.
Qed.

Lemma load_root_keeps_lock reference create_reference profile lock :
  keeps_lock (load_root reference create_reference profile lock).
Proof.
  unfold load_root.
  destruct reference as [refs|r|path].
  - repeat keeps_lock_step.
  - destruct (negb revisions_enabled && _); repeat keeps_lock_step.
    destruct lock; repeat keeps_lock_step.
  - apply keeps_lock_bind; [apply load_root_from_path_keeps_lock | intros loaded].
    repeat keeps_lock_step. destruct lock; repeat keeps_lock_step.
Qed.

Lemma load_graph_resolve_keeps_lock fuel reference create_reference apply_build_requires :
  keeps_lock (load_graph_resolve fuel reference create_reference apply_build_requires).
Proof.
  unfold load_graph_resolve.
  apply keeps_lock_bind; [apply keeps_lock_modify_info; by intros [] | intros _].
  apply keeps_lock_bind; [apply keeps_lock_gets | intros profile].
  apply keeps_lock_bind; [apply keeps_lock_gets | intros lock].
  apply keeps_lock_bind; [apply load_root_keeps_lock | intros root].
  repeat keeps_lock_step. destruct (root.2); repeat keeps_lock_step.
Qed.

Lemma report_resolution_keeps_lock (deps_graph : DepsGraph) :
  keeps_lock (report_resolution deps_graph).
Proof.
  unfold report_resolution.
  apply keeps_lock_bind; [apply keeps_lock_gets | intros output].
  apply keeps_lock_bind; [|intros _; repeat keeps_lock_step].
  destruct output; [apply keeps_lock_ret|].
  apply keeps_lock_bind; [apply keeps_lock_tell | intros _].
  apply keeps_lock_bind; [|intros _; apply keeps_lock_tell].
  apply keeps_lock_for_each. intros msg. apply keeps_lock_tell.
Qed.

Lemma final_bind {S A B} (m : M S A) (f : A -> M S B) s :
  final ((m ≫= f) s) =
  match out (m s) with
  | Done a => final (f a (final (m s)))
  | _ => final (m s)
  end.
Proof. unfold mbind, M_bind, bind. by destruct (out (m s)). Qed.

Lemma GraphLock_update_check_disagrees lock nodes n :
  n ∈ nodes -> lock_disagrees lock n = true ->
  GraphLock_update_check lock nodes = Raise LockInconsistencyError.
Proof.
  intros Hin Hn. unfold GraphLock_update_check.
  rewrite (proj2 (existsb_exists _ _)); [done|].
  exists n. split; [by apply list_elem_of_In | done].
Qed.

(** C7.  Resolution leaves the lock of [graph_info] as it was loaded.  Once
    the graph is resolved, a missing lock is replaced by a lock seeded from
    the graph; a lock that was given stays in place, is checked against the
    graph, and [load_graph] raises [LockInconsistencyError] whenever a
    node identifier of the lock has another reference, revision or set of
    build-requirements in the graph. *)
Theorem lock_seeded_or_checked_after_resolution fuel reference create_reference
    apply_build_requires (s : LGState World) :
  let resolved := load_graph_resolve fuel reference create_reference
                    apply_build_requires s in
  let run := load_graph fuel reference create_reference apply_build_requires s in
  gi_graph_lock (lg_info (final resolved)) = gi_graph_lock (lg_info s)
  /\ forall deps_graph,
       out resolved = Done deps_graph ->
       let nodes := graph_node_objects deps_graph (lg_store (final resolved)) in
       match gi_graph_lock (lg_info s) with
       | None =>
           gi_graph_lock (lg_info (final run)) = Some (GraphLock_seed nodes)
       | Some lock =>
           gi_graph_lock (lg_info (final run)) = Some lock
           /\ ((exists n, n ∈ nodes /\ lock_disagrees lock n = true) ->
               out run = Raised LockInconsistencyError)
           /\ (forall g, out run = Done g ->
               GraphLock_update_check lock nodes = Ok tt)
       end.
Proof.
  cbv zeta.
  pose proof (load_graph_resolve_keeps_lock fuel reference create_reference
                apply_build_requires s) as Hkeep.
  split; [done|]. intros deps_graph Hout.
  unfold load_graph, load_graph_finish.
  rewrite !final_bind, !out_bind, Hout.
  set (s1 := final (load_graph_resolve fuel reference create_reference
                      apply_build_requires s)) in *.
  rewrite <- Hkeep.
  pose proof (report_resolution_keeps_lock deps_graph) as Hreport.
  unfold keeps_lock in Hreport.
  remember (report_resolution deps_graph) as report eqn:Hrep. clear Hrep.
  unfold settle_lock, mbind, M_bind, bind, gets. simpl.
  destruct (gi_graph_lock (lg_info s1)) as [lock|] eqn:Elock; simpl.
  - destruct (GraphLock_update_check lock _) as [[]|e] eqn:Echeck; simpl.
    + rewrite Hreport. simpl. split_and!; [done | | done].
      intros (n & Hin & Hn).
      by rewrite (GraphLock_update_check_disagrees _ _ _ Hin Hn) in Echeck.
    + split_and!; [done | | done].
      intros (n & Hin & Hn).
      rewrite (GraphLock_update_check_disagrees _ _ _ Hin Hn) in Echeck.
      by injection Echeck as <-.
  - rewrite Hreport. done.
Qed.

End LoadGraphFacts.

(** C10 in the example installation, where revisions are disabled. *)
Lemma revision_refused_witness :
  let run := load_graph (C := Demo.collaborators) 4
               (RefOne (mkRef (Some "lib") (Some "0.1") (Some "user") (Some "channel")
                          (Some "rev1")))
               None true (Demo.start [] None) in
  out run = Raised (ConanException
    "Revisions not enabled in the client, specify a reference without revision")
  /\ events run = []
  /\ lg_store (final run) = lg_store (Demo.start [] None).
Proof.
  apply (revision_refused_before_root_node (C := Demo.collaborators));
    [reflexivity | done].
Defined.

(** The three cases of the lock in the example installation: a missing lock
    is seeded with every node of the resolved graph, a lock that agrees with
    the graph lets [load_graph] return, and a lock that records another
    version for the consumer makes it raise. *)
Example lock_seeded_example :
  let run := load_graph (C := Demo.collaborators) 4
               (RefPath "tool_user/conanfile.py") None true
               (Demo.start Demo.pin_toolX None) in
  out run = Done Demo.Whole
  /\ (dom <$> gi_graph_lock (lg_info (final run))) = Some ({[ 0; 1 ]} : gset nat).
Proof. vm_compute. done. Qed.

Example lock_agrees_example :
  let lock : GraphLock :=
    {[ 0 := mkLockEntry
              (Some (mkRef (Some "tool_user") (Some "1.0") (Some "user")
                       (Some "channel") None))
              [Demo.ref_of "toolX" "2.0"] ]} in
  let run := load_graph (C := Demo.collaborators) 4
               (RefPath "tool_user/conanfile.py") None true
               (Demo.start Demo.pin_toolX (Some lock)) in
  out run = Done Demo.Whole
  /\ gi_graph_lock (lg_info (final run)) = Some lock.
Proof. vm_compute. done. Qed.

Example lock_disagrees_example :
  let lock : GraphLock :=
    {[ 0 := mkLockEntry (Some (Demo.ref_of "tool_user" "0.9")) [] ]} in
  out (load_graph (C := Demo.collaborators) 4
         (RefPath "tool_user/conanfile.py") None true
         (Demo.start Demo.pin_toolX (Some lock)))
  = Raised LockInconsistencyError.
Proof. vm_compute. done. Qed.

(** ** The stable sort *)

Section SortFacts.
Context {A : Type} (key : A -> nat).

Lemma insert_by_key_perm x l : insert_by_key key x l ≡ₚ x :: l.
Proof.
  induction l as [|y l IH]; simpl; [done|].
  destruct (key x <=? key y)%nat; [done|]. rewrite IH. apply Permutation_swap.
Qed.

Lemma sort_by_key_perm l : sort_by_key key l ≡ₚ l.
Proof.
  induction l as [|x l IH]; simpl; [done|].
  by rewrite insert_by_key_perm, IH.
Qed.

Lemma insert_by_key_sorted x l :
  StronglySorted (fun a b => key a <= key b) l ->
  StronglySorted (fun a b => key a <= key b) (insert_by_key key x l).
Proof.
  induction 1 as [|y l Hl IH Hy]; simpl.
  - repeat constructor.
  - destruct (Nat.leb_spec (key x) (key y)).
    + constructor; [by constructor|]. constructor; [done|].
      eapply Forall_impl; [done|]. intros z ?. simpl in *. lia.
    + constructor; [done|]. rewrite insert_by_key_perm.
      constructor; [lia | done].
Qed.

Lemma sort_by_key_sorted l :
  StronglySorted (fun a b => key a <= key b) (sort_by_key key l).
Proof.
  induction l as [|x l IH]; simpl; [constructor|]. by apply insert_by_key_sorted.
Qed.

Lemma insert_by_key_stable i x l :
  filter (fun a => key a = i) (insert_by_key key x l) =
  filter (fun a => key a = i) (x :: l).
Proof.
  induction l as [|y l IH]; simpl; [done|].
  destruct (Nat.leb_spec (key x) (key y)); [done|].
  rewrite (filter_cons _ y), IH, !(filter_cons _ x), (filter_cons _ y).
  repeat case_decide; try done. lia.
Qed.

Lemma sort_by_key_stable i l :
  filter (fun a => key a = i) (sort_by_key key l) = filter (fun a => key a = i) l.
Proof.
  induction l as [|x l IH]; simpl; [done|].
  by rewrite insert_by_key_stable, !filter_cons, IH.
Qed.

Lemma insert_by_key_fmap {B} (f : B -> A) x l :
  insert_by_key key (f x) (f <$> l) = f <$> insert_by_key (key ∘ f) x l.
Proof.
  induction l as [|y l IH]; [done|].
  rewrite fmap_cons. cbn [insert_by_key]. unfold compose at 1 2.
  destruct (key (f x) <=? key (f y))%nat; [done|]. rewrite fmap_cons. by rewrite IH.
Qed.

Lemma sort_by_key_fmap {B} (f : B -> A) l :
  sort_by_key key (f <$> l) = f <$> sort_by_key (key ∘ f) l.
Proof.
  induction l as [|x l IH]; [done|].
  rewrite fmap_cons. cbn [sort_by_key]. by rewrite IH, insert_by_key_fmap.
Qed.

End SortFacts.

Lemma sort_by_level_Some inv l order :
  sort_by_level inv l = Some order ->
  order = sort_by_key (level_in inv) l /\ Forall (fun n => is_Some (inv !! n)) l.
Proof.
  unfold sort_by_level, decorate. intros Hs.
  apply fmap_Some in Hs as (d & Hd & ->).
  apply mapM_Some in Hd.
  assert (d = (fun n => (level_in inv n, n)) <$> l /\ Forall (fun n => is_Some (inv !! n)) l)
    as [-> Hall].
  { induction Hd as [|n p l d Hp Hd [-> IH]]; [done|].
    apply fmap_Some in Hp as (i & Hi & ->).
    split; [|constructor; [by eexists | done]].
    rewrite fmap_cons. f_equal. unfold level_in. by rewrite Hi. }
  split; [|done].
  rewrite sort_by_key_fmap. change (fst ∘ _) with (level_in inv).
  rewrite <- list_fmap_compose. apply list_fmap_id.
Qed.


(** ** The ordering of the closures *)

Section ClosureFacts.
Context `{C : Collaborators}.

Lemma order_closure_Done inv k s :
  out (order_closure inv k s) = Done tt ->
  closure_ordered inv (heap s k) (heap (final (order_closure inv k s)) k)
  /\ forall x, x ≠ k -> heap (final (order_closure inv k s)) x = heap s x.
Proof.
  unfold order_closure, closure_ordered, mbind, M_bind, bind, tell, get_node, gets. simpl.
  destruct (n_public_closure (heap s k)) as [|closure|l] eqn:Ecl; simpl; [done| |done].
  unfold OrderedDict.pop.
  destruct (OrderedDict.get (node_name (heap s k)) closure) as [self|] eqn:Eget;
    simpl; [|done].
  destruct (sort_by_level inv _) as [order|] eqn:Esort; simpl; [|done].
  intros _. split.
  - exists closure, self, order. rewrite decide_True by done. done.
  - intros x Hx. by rewrite !decide_False by done.
Qed.

Lemma order_closure_KeyError inv k s closure :
  n_public_closure (heap s k) = ClosureMap closure ->
  OrderedDict.get (node_name (heap s k)) closure = None ->
  out (order_closure inv k s) = Raised KeyError.
Proof.
  intros Ecl Eget.
  unfold order_closure, mbind, M_bind, bind, tell, get_node, gets. simpl.
  rewrite Ecl. simpl. unfold OrderedDict.pop. by rewrite Eget.
Qed.

Lemma order_closures_loop inv nodes s :
  NoDup nodes ->
  out (for_each nodes (order_closure inv) s) = Done tt ->
  (forall k, k ∈ nodes ->
     closure_ordered inv (heap s k)
       (heap (final (for_each nodes (order_closure inv) s)) k))
  /\ (forall x, x ∉ nodes ->
       heap (final (for_each nodes (order_closure inv) s)) x = heap s x).
Proof.
  revert s. induction nodes as [|k nodes IH]; intros s Hnd.
  - intros _. split; [by intros k ?%elem_of_nil | done].
  - apply NoDup_cons in Hnd as [Hk Hnd]. cbn [for_each].
    change (bind ?m ?f) with (m ≫= f).
    rewrite out_bind, final_bind.
    destruct (out (order_closure inv k s)) as [[]| |] eqn:E1; [|done..].
    destruct (order_closure_Done _ _ _ E1) as (Hord & Hother).
    intros E2. destruct (IH _ Hnd E2) as (Hin & Hout).
    split.
    + intros x [->|Hx]%elem_of_cons.
      * by rewrite Hout.
      * rewrite <- (Hother x) by (intros ->; done). by apply Hin.
    + intros x [? ?]%not_elem_of_cons. rewrite Hout by done. by apply Hother.
Qed.

End ClosureFacts.

Section ClosureOrder.
Context `{C : Collaborators}.

Lemma order_closures_Done graph s :
  NoDup (graph_nodes graph s) ->
  out (order_closures graph s) = Done tt ->
  forall k, k ∈ graph_nodes graph s ->
    closure_ordered (inverse_levels_dict (inverse_levels graph s))
      (heap s k) (heap (final (order_closures graph s)) k).
Proof.
  intros Hnd Hout k Hk.
  by apply (order_closures_loop _ _ s Hnd Hout).
Qed.

(** C5.  When the ordering pass succeeds on a graph, the closure of each of
    its nodes, a dictionary before, is afterwards the list of the nodes of
    its entries other than the one under the node's own name; this list is
    a rearrangement of those entries, in ascending inverse level, in which
    the entries of any one level keep the order they had in the dictionary. *)
Theorem closures_sorted_by_inverse_level graph s :
  NoDup (graph_nodes graph s) ->
  out (order_closures graph s) = Done tt ->
  let inv := inverse_levels_dict (inverse_levels graph s) in
  forall k, k ∈ graph_nodes graph s ->
    exists closure order,
      n_public_closure (heap s k) = ClosureMap closure
      /\ heap (final (order_closures graph s)) k =
         node_with_closure (ClosureList order) (heap s k)
      /\ let entries :=
           OrderedDict.values (OrderedDict.remove (node_name (heap s k)) closure) in
         (NoDup (OrderedDict.keys closure) ->
          entries = (filter (fun kv => kv.1 ≠ node_name (heap s k)) closure).*2)
         /\ order ≡ₚ entries
         /\ Forall (fun n => is_Some (inv !! n)) entries
         /\ StronglySorted (fun a b => level_in inv a <= level_in inv b) order
         /\ forall i, filter (fun n => level_in inv n = i) order =
                      filter (fun n => level_in inv n = i) entries.
Proof.
  intros Hnd Hout inv k Hk.
  destruct (order_closures_Done graph s Hnd Hout k Hk)
    as (closure & self & order & Hcl & Hself & Hsort & Hafter).
  apply sort_by_level_Some in Hsort as [-> Hall].
  exists closure, (sort_by_key (level_in inv)
    (OrderedDict.values (OrderedDict.remove (node_name (heap s k)) closure))).
  split_and!; [done | done |]. cbv zeta. split_and!; [ | | done | |].
  - intros Hkeys. unfold OrderedDict.values.
    by rewrite OrderedDictFacts.remove_filter.
  - apply sort_by_key_perm.
  - apply sort_by_key_sorted.
  - intros i. apply sort_by_key_stable.
Qed.

(** C6 (amended).  When the ordering pass succeeds on a graph, the closure
    of each of its nodes held, before the pass, an entry under the node's
    own name; the pass takes this entry out, and the list it leaves is made
    of the other entries.  A node whose closure has no such entry makes the
    pass fail. *)
Theorem closure_holds_node_until_ordered graph s :
  NoDup (graph_nodes graph s) ->
  out (order_closures graph s) = Done tt ->
  forall k, k ∈ graph_nodes graph s ->
    exists closure self order,
      n_public_closure (heap s k) = ClosureMap closure
      /\ OrderedDict.get (node_name (heap s k)) closure = Some self
      /\ n_public_closure (heap (final (order_closures graph s)) k) = ClosureList order
      /\ order ≡ₚ OrderedDict.values (OrderedDict.remove (node_name (heap s k)) closure)
      /\ (NoDup (OrderedDict.keys closure) ->
          OrderedDict.get (node_name (heap s k))
            (OrderedDict.remove (node_name (heap s k)) closure) = None).
Proof.
  intros Hnd Hout k Hk.
  destruct (order_closures_Done graph s Hnd Hout k Hk)
    as (closure & self & order & Hcl & Hself & Hsort & Hafter).
  exists closure, self, order. split_and!; [done | done | by rewrite Hafter | |].
  - apply sort_by_level_Some in Hsort as [-> _]. apply sort_by_key_perm.
  - apply OrderedDictFacts.get_remove_eq.
Qed.

Lemma order_closures_KeyError graph s k rest closure :
  graph_nodes graph s = k :: rest ->
  n_public_closure (heap s k) = ClosureMap closure ->
  OrderedDict.get (node_name (heap s k)) closure = None ->
  out (order_closures graph s) = Raised KeyError.
Proof.
  intros Hnodes Hcl Hget. unfold order_closures.
  rewrite out_bind. unfold gets. cbn [out final].
  rewrite out_bind. cbn [out final].
  rewrite Hnodes. cbn [for_each].
  change (bind ?m ?f) with (m ≫= f). rewrite out_bind.
  by rewrite (order_closure_KeyError _ _ _ _ Hcl Hget).
Qed.

End ClosureOrder.

(** C5 on the resolved graph of the example installation: the consumer sees
    [x2; x1; x3] and is left with [x1; x3; x2]. *)
Lemma closures_sorted_witness :
  let s := Demo.linked_store in
  let inv := inverse_levels_dict (@inverse_levels Demo.collaborators Demo.Whole s) in
  exists closure order,
    n_public_closure (heap s 0) = ClosureMap closure
    /\ heap (final (order_closures (C := Demo.collaborators) Demo.Whole s)) 0 =
       node_with_closure (ClosureList order) (heap s 0)
    /\ let entries :=
         OrderedDict.values (OrderedDict.remove (node_name (heap s 0)) closure) in
       (NoDup (OrderedDict.keys closure) ->
        entries = (filter (fun kv => kv.1 ≠ node_name (heap s 0)) closure).*2)
       /\ order ≡ₚ entries
       /\ Forall (fun n => is_Some (inv !! n)) entries
       /\ StronglySorted (fun a b => level_in inv a <= level_in inv b) order
       /\ forall i, filter (fun n => level_in inv n = i) order =
                    filter (fun n => level_in inv n = i) entries.
Proof.
  apply (closures_sorted_by_inverse_level (C := Demo.collaborators)
           Demo.Whole Demo.linked_store).
  - compute_done.
  - vm_compute. reflexivity.
  - compute_done.
Defined.

Example closures_sorted_example :
  n_public_closure
    (heap (final (order_closures (C := Demo.collaborators) Demo.Whole Demo.linked_store)) 0)
  = ClosureList [1; 3; 2].
Proof. vm_compute. reflexivity. Qed.

(** C6 on the same graph. *)
Lemma closure_holds_node_witness :
  let s := Demo.linked_store in
  exists closure self order,
    n_public_closure (heap s 0) = ClosureMap closure
    /\ OrderedDict.get (node_name (heap s 0)) closure = Some self
    /\ n_public_closure
         (heap (final (order_closures (C := Demo.collaborators) Demo.Whole s)) 0)
       = ClosureList order
    /\ order ≡ₚ OrderedDict.values (OrderedDict.remove (node_name (heap s 0)) closure)
    /\ (NoDup (OrderedDict.keys closure) ->
        OrderedDict.get (node_name (heap s 0))
          (OrderedDict.remove (node_name (heap s 0)) closure) = None).
Proof.
  apply (closure_holds_node_until_ordered (C := Demo.collaborators)
           Demo.Whole Demo.linked_store).
  - compute_done.
  - vm_compute. reflexivity.
  - compute_done.
Defined.

(** C6 as stated fails: on a graph that the pass orders without error, the
    closure of the consumer holds the consumer itself when the pass
    begins. *)
Lemma closure_contains_node_before_ordering :
  ~ (forall (C : Collaborators) graph s k closure,
       k ∈ graph_nodes graph s ->
       out (order_closures graph s) = Done tt ->
       n_public_closure (heap s k) = ClosureMap closure ->
       OrderedDict.get (node_name (heap s k)) closure = None).
Proof.
  intros H.
  specialize (H Demo.collaborators Demo.Whole Demo.linked_store 0
                [(Some "app", 0); (Some "x2", 2); (Some "x1", 1); (Some "x3", 3)]).
  assert (0 ∈ @graph_nodes Demo.collaborators Demo.Whole Demo.linked_store) as Hin.
  { compute_done. }
  specialize (H Hin eq_refl eq_refl). vm_compute in H. discriminate.
Qed.

(* ===================================================================== *)
(** * Further properties *)
(* ===================================================================== *)

(** ** The container of recipe build-requirements, further *)

Section OrderedDictExtensionality.
Context {K V : Type} `{EqDecision K}.
Import OrderedDict OrderedDictFacts.

Lemma dict_ext (d1 d2 : OrderedDict.t K V) :
  NoDup (keys d1) ->
  keys d1 = keys d2 ->
  (forall k, get k d1 = get k d2) ->
  d1 = d2.
Proof.
  revert d2. induction d1 as [|[k v] d1 IH]; intros [|[k' v'] d2] Hnd Hk Hg; try done.
  unfold keys in *. rewrite !fmap_cons in Hk. simpl in Hk.
  injection Hk as <- Hk.
  rewrite fmap_cons in Hnd. apply NoDup_cons in Hnd as [Hnin Hnd].
  pose proof (Hg k) as Hgk. simpl in Hgk. rewrite !decide_True in Hgk by done.
  injection Hgk as <-. f_equal. apply IH; [done | done |].
  intros k0. destruct (decide (k = k0)) as [<-|Hne].
  - rewrite (proj2 (get_None_keys k d1)) by done.
    symmetry. apply get_None_keys. unfold keys. by rewrite <- Hk.
  - specialize (Hg k0). simpl in Hg. by rewrite !decide_False in Hg by done.
Qed.

End OrderedDictExtensionality.

Lemma filter_none {A} (P : A -> Prop) `{forall x, Decision (P x)} (l : list A) :
  (forall x, x ∈ l -> ~ P x) -> filter P l = [].
Proof.
  intros Hl. induction l as [|x l IH]; [done|].
  rewrite filter_cons_False by (apply Hl; left).
  apply IH. intros y Hy. apply Hl. by right.
Qed.

Section ContainerMore.
Variable loads : string -> result ConanFileReference.
Import OrderedDict OrderedDictFacts.

Lemma add_Ok b (d d' : RecipeBuildRequires) :
  RBR.add loads b d = Ok d' ->
  exists r, RBR.as_reference loads b = Ok r /\ d' = set (name r) r d.
Proof.
  unfold RBR.add. destruct (RBR.as_reference loads b) as [r|e]; [|done].
  intros [= <-]. by exists r.
Qed.

Lemma update_Ok bs (d d' : RecipeBuildRequires) :
  RBR.update loads bs d = Ok d' ->
  exists refs, Forall2 (fun b r => RBR.as_reference loads b = Ok r) bs refs.
Proof.
  revert d. induction bs as [|b bs IH]; intros d; simpl.
  - intros _. exists []. constructor.
  - destruct (RBR.add loads b d) as [d1|e] eqn:E; [|done].
    apply add_Ok in E as (r & Hr & ->). intros (refs & Hrefs)%IH.
    exists (r :: refs). by constructor.
Qed.

Lemma update_app bs1 bs2 (d : RecipeBuildRequires) :
  RBR.update loads (bs1 ++ bs2) d =
  match RBR.update loads bs1 d with
  | Ok d' => RBR.update loads bs2 d'
  | Raise e => Raise e
  end.
Proof.
  revert d. induction bs1 as [|b bs1 IH]; intros d; simpl; [done|].
  destruct (RBR.add loads b d); [apply IH | done].
Qed.

Lemma set_keyed k r (d : RecipeBuildRequires) :
  keyed_by_name d -> k = name r -> keyed_by_name (set k r d).
Proof.
  intros [Hnd Hall] ->. split; [by apply keys_set_NoDup|].
  by apply Forall_set.
Qed.

Lemma update_keyed bs (d d' : RecipeBuildRequires) :
  keyed_by_name d -> RBR.update loads bs d = Ok d' -> keyed_by_name d'.
Proof.
  revert d. induction bs as [|b bs IH]; intros d Hd; simpl.
  - by intros [= <-].
  - destruct (RBR.add loads b d) as [d1|e] eqn:E; [|done].
    apply add_Ok in E as (r & Hr & ->). apply IH. by apply set_keyed.
Qed.

End ContainerMore.

(** X1.  The container keeps its keys in step with its values: in a
    container built by [__init__], and after any [add], call or [update] on
    a container of this kind, no key occurs twice and every key is the name
    of the reference stored under it. *)
Theorem container_keyed_by_name (loads : string -> result ConanFileReference) :
  (forall cf d, RBR.init loads cf = Ok d -> keyed_by_name d)
  /\ (forall b d d', keyed_by_name d -> RBR.add loads b d = Ok d' -> keyed_by_name d')
  /\ (forall b d d', keyed_by_name d -> RBR.call loads b d = Ok d' -> keyed_by_name d')
  /\ (forall bs d d', keyed_by_name d -> RBR.update loads bs d = Ok d' -> keyed_by_name d').
Proof.
  assert (keyed_by_name OrderedDict.empty) as Hempty.
  { split; [apply NoDup_nil_2 | constructor]. }
  assert (forall b d d', keyed_by_name d -> RBR.add loads b d = Ok d' -> keyed_by_name d')
    as Hadd.
  { intros b d d' Hd (r & _ & ->)%add_Ok. by apply set_keyed. }
  split_and!; [| done | done | intros bs d d'; apply update_keyed].
  intros cf d. unfold RBR.init.
  destruct (cf_build_requires cf); try done; by apply update_keyed.
Qed.

(** X2.  [update], and with it [__init__], stops at the first element that
    the parser refuses: when the elements before it are accepted, the
    exception of the parser is raised as it is, whatever follows the
    element. *)
Theorem update_stops_at_first_failure (loads : string -> result ConanFileReference)
    bs1 refs b e bs2 (d : RecipeBuildRequires) :
  Forall2 (fun b r => RBR.as_reference loads b = Ok r) bs1 refs ->
  RBR.as_reference loads b = Raise e ->
  RBR.update loads (bs1 ++ b :: bs2) d = Raise e.
Proof.
  intros Hall Hb. rewrite update_app.
  destruct (update_from loads bs1 refs d Hall) as (d' & -> & _).
  simpl. unfold RBR.add. by rewrite Hb.
Qed.

(** X2 in the example installation: the second of three texts is no reference. *)
Lemma update_stops_at_first_failure_witness :
  RBR.update Demo.parse_reference
    ([BRText "b1/1.0@user/channel"] ++ BRText "b1" :: [BRText "t/1.0@user/channel"])
    OrderedDict.empty
  = Raise (ConanException "invalid reference").
Proof.
  apply (update_stops_at_first_failure Demo.parse_reference
           [BRText "b1/1.0@user/channel"] [Demo.ref_of "b1" "1.0"]).
  - repeat constructor.
  - reflexivity.
Defined.

(** X4.  Updating a container without duplicate keys once more with the
    build-requirements it was just updated with changes nothing. *)
Theorem update_idempotent (loads : string -> result ConanFileReference)
    bs (d d' : RecipeBuildRequires) :
  NoDup (OrderedDict.keys d) ->
  RBR.update loads bs d = Ok d' ->
  RBR.update loads bs d' = Ok d'.
Proof.
  intros Hnd Hupd.
  destruct (update_Ok _ _ _ _ Hupd) as (refs & Hrefs).
  destruct (update_from loads bs refs d Hrefs) as (d1 & Hd1 & Hk1 & Hg1).
  rewrite Hupd in Hd1. injection Hd1 as <-.
  destruct (update_from loads bs refs d' Hrefs) as (d2 & Hd2 & Hk2 & Hg2).
  rewrite Hd2. f_equal. symmetry. apply dict_ext.
  - rewrite Hk1. apply NoDup_app. split_and!; [done | |].
    + intros k Hk [Hn _]%list_elem_of_filter. done.
    + apply NoDup_filter.
      generalize (name <$> refs). intros l.
      induction l as [|x l IH]; simpl; [constructor|].
      apply NoDup_cons. split; [|by apply NoDup_filter].
      intros [? _]%list_elem_of_filter. done.
  - rewrite Hk2.
    assert (filter (fun k => k ∉ OrderedDict.keys d') (first_occurrences (name <$> refs)) = [])
      as ->; [|by rewrite app_nil_r].
    apply filter_none. intros k Hk Hn. apply Hn.
    rewrite Hk1, elem_of_app. destruct (decide (k ∈ OrderedDict.keys d)); [by left|].
    right. by apply list_elem_of_filter.
  - intros k. rewrite Hg2. by destruct (last _) eqn:E; rewrite Hg1, ?E.
Qed.

(** ** Printing the container *)

Lemma append_assoc3 (a b c : string) : (a +:+ b) +:+ c = a +:+ (b +:+ c).
Proof.
  induction a as [|x a IH]; [done|].
  change (String x ((a +:+ b) +:+ c) = String x (a +:+ (b +:+ c))). by f_equal.
Qed.

Lemma concat_snoc sep (l : list string) x :
  String.concat sep (l ++ [x]) =
  match l with
  | [] => x
  | _ => String.concat sep l +:+ sep +:+ x
  end.
Proof.
  induction l as [|h t IH]; [done|].
  change ((h :: t) ++ [x])%list with (h :: (t ++ [x]))%list.
  destruct t as [|h' t']; [done|].
  change (String.concat sep (h :: (h' :: t') ++ [x])%list)
    with (h +:+ sep +:+ String.concat sep ((h' :: t') ++ [x])%list).
  rewrite IH.
  change (String.concat sep (h :: h' :: t'))
    with (h +:+ sep +:+ String.concat sep (h' :: t')).
  by rewrite !append_assoc3.
Qed.

(** X5.  [__str__] prints the stored references in the order of the keys,
    joined by a comma and a space: a reference added under a new name is
    printed last, after the separator, and without separator when it is the
    only one. *)
Theorem str_appends_new_reference `{C : Collaborators}
    (self : RecipeBuildRequires) b r :
  RBR.as_reference loads b = Ok r ->
  name r ∉ OrderedDict.keys self ->
  exists self',
    RBR.add loads b self = Ok self'
    /\ RecipeBuildRequires_str self' =
       match self with
       | [] => str_of_ref (Some r)
       | _ => RecipeBuildRequires_str self +:+ ", " +:+ str_of_ref (Some r)
       end.
Proof.
  intros Hb Hn. exists (self ++ [(name r, r)])%list. split.
  - rewrite (add_parsed _ _ _ _ Hb). by rewrite OrderedDictFacts.set_absent.
  - unfold RecipeBuildRequires_str, OrderedDict.values.
    rewrite !fmap_app. simpl. rewrite concat_snoc. by destruct self.
Qed.

(** X5 in the example installation. *)
Lemma str_appends_new_reference_witness :
  exists self',
    RBR.add (@loads Demo.collaborators) (BRText "u/1.0@user/channel")
      [(Some "t", Demo.ref_of "t" "1.0")] = Ok self'
    /\ RecipeBuildRequires_str (C := Demo.collaborators) self' =
       "t/1.0@user/channel, u/1.0@user/channel".
Proof.
  apply (str_appends_new_reference (C := Demo.collaborators)
           [(Some "t", Demo.ref_of "t" "1.0")] (BRText "u/1.0@user/channel")
           (Demo.ref_of "u" "1.0")).
  - reflexivity.
  - compute_done.
Defined.

(** ** What the evaluation of a recipe does to the store *)

Section RecipeEvaluation.
Context `{C : Collaborators}.

(** X6.  [_get_recipe_build_requires] always ends, emits nothing, creates
    no node, leaves the collaborators' state alone and changes nothing but
    the [build_requires] attribute of the recipe of its node.  When it
    returns, its value is the dictionary the recipe ends with and the
    attribute holds that dictionary; when the declared attribute cannot be
    read, that exception is raised and the store is as before. *)
Theorem get_recipe_build_requires_effect k (s : Store World) :
  let run := _get_recipe_build_requires k s in
  let conanfile := n_conanfile (heap s k) in
  events run = []
  /\ out run ≠ OutOfFuel
  /\ next_key (final run) = next_key s
  /\ st_world (final run) = st_world s
  /\ (forall x, x ≠ k -> heap (final run) x = heap s x)
  /\ (exists a, heap (final run) k =
                node_with_conanfile (with_build_requires a conanfile) (heap s k))
  /\ (forall m, out run = Done m ->
        recipe_build_requires conanfile = Ok m
        /\ cf_build_requires (n_conanfile (heap (final run) k)) = AttrMap m)
  /\ (forall e, RBR.init loads conanfile = Raise e ->
        out run = Raised e /\ final run = s).
Proof.
  cbv zeta. unfold _get_recipe_build_requires, recipe_build_requires.
  unfold set_build_requires, get_node, set_node, mbind, M_bind, bind, gets, modify,
    lift_result. cbn [out final events].
  destruct (RBR.init loads (n_conanfile (heap s k))) as [m|e] eqn:Einit;
    cbn [out final events ret raise app].
  - destruct (cf_build_requirements (n_conanfile (heap s k))) as [method|] eqn:Em;
      cbn [out final events ret raise app heap next_key st_world store_set].
    + destruct (method m) as [m'|e] eqn:Emm;
        cbn [out final events ret raise app heap next_key st_world store_set].
      * rewrite !decide_True by done. simpl.
        split_and!; try done.
        -- intros x Hx. by rewrite !decide_False by done.
        -- by eexists.
        -- intros ? [= <-]. done.
      * rewrite !decide_True by done. simpl.
        split_and!; try done.
        -- intros x Hx. by rewrite !decide_False by done.
        -- by eexists.
    + rewrite !decide_True by done. simpl.
      split_and!; try done.
      -- intros x Hx. by rewrite !decide_False by done.
      -- by eexists.
      -- intros ? [= <-]. done.
  - split_and!; try done.
    + exists (cf_build_requires (n_conanfile (heap s k))).
      destruct (heap s k) as [? ? [] ? ? ? ? ?]. done.
    + by intros ? [= <-].
Qed.

(** X7.  An exception of [build_requirements()] leaves
    [_get_recipe_build_requires] as the exception formatter makes it for the
    display name of the recipe and the method name; by then the attribute no
    longer holds what the recipe declared but a dictionary. *)
Theorem build_requirements_failure_is_formatted k (s : Store World) m method e :
  RBR.init loads (n_conanfile (heap s k)) = Ok m ->
  cf_build_requirements (n_conanfile (heap s k)) = Some method ->
  method m = Raise e ->
  let run := _get_recipe_build_requires k s in
  out run = Raised (conanfile_exception_formatter
                      (cf_display (n_conanfile (heap s k))) "build_requirements" e)
  /\ exists m', cf_build_requires (n_conanfile (heap (final run) k)) = AttrMap m'.
Proof.
  intros Hinit Hm He. cbv zeta. unfold _get_recipe_build_requires.
  unfold set_build_requires, get_node, set_node, mbind, M_bind, bind, gets, modify,
    lift_result. cbn [out final events].
  rewrite Hinit. cbn [out final events ret raise app]. rewrite Hm, He.
  cbn [out final events ret raise app heap store_set].
  rewrite decide_True by done. split; [done | by eexists].
Qed.

Lemma get_recipe_build_requires_out k (s : Store World) :
  out (_get_recipe_build_requires k s) =
  match recipe_build_requires (n_conanfile (heap s k)) with
  | Ok m => Done m
  | Raise e => Raised e
  end.
Proof.
  unfold _get_recipe_build_requires, recipe_build_requires.
  rewrite out_bind. cbn [get_node gets out final]. rewrite out_bind.
  destruct (RBR.init loads (n_conanfile (heap s k))) as [m|e]; [|done].
  cbn [lift_result ret out final]. rewrite out_bind.
  unfold set_build_requires at 1. rewrite out_bind.
  cbn [get_node gets set_node modify out final].
  destruct (cf_build_requirements (n_conanfile (heap s k))) as [method|]; [|done].
  destruct (method m) as [m'|e]; [|done].
  rewrite out_bind. unfold set_build_requires at 1. rewrite out_bind. done.
Qed.

(** X3.  Declaring a build-requirement in the attribute or adding it in
    [build_requirements()] through the container comes to the same: a
    recipe that declares two lists one after the other, and a recipe that
    declares the first and updates the container with the second in its
    method, make [_get_recipe_build_requires] return the same dictionary,
    and one returns exactly when the other does. *)
Theorem declared_then_called_is_appended k (s s' : Store World) declared added d :
  cf_build_requires (n_conanfile (heap s k)) = AttrSeq (declared ++ added) ->
  cf_build_requirements (n_conanfile (heap s k)) = None ->
  cf_build_requires (n_conanfile (heap s' k)) = AttrSeq declared ->
  cf_build_requirements (n_conanfile (heap s' k)) = Some (RBR.update loads added) ->
  out (_get_recipe_build_requires k s) = Done d
  <-> out (_get_recipe_build_requires k s') = Done d.
Proof.
  intros Ha Hm Ha' Hm'. rewrite !get_recipe_build_requires_out.
  unfold recipe_build_requires, RBR.init. rewrite Ha, Hm, Ha', Hm', update_app.
  destruct (RBR.update loads declared OrderedDict.empty) as [d0|e]; [|done].
  destruct (RBR.update loads added d0); done.
Qed.

End RecipeEvaluation.

(** ** The expansion: the flag and the policy *)

Section ExpansionMore.
Context `{C : Collaborators}.

Lemma emits_for_each {S A} φ (l : list A) (body : A -> M S unit) :
  (forall x, emits φ (body x)) -> emits φ (for_each l body).
Proof.
  intros H. induction l as [|x l IH]; [apply emits_ret|].
  cbn [for_each]. apply (emits_bind φ (body x)); [apply H | by intros _].
Qed.

Lemma order_closures_emits φ graph :
  (forall k, φ (EvOrderClosure k)) -> emits φ (order_closures graph).
Proof.
  intros Hφ. unfold order_closures.
  apply emits_bind; [apply emits_gets | intros levels].
  apply emits_bind; [apply emits_gets | intros nodes].
  apply emits_for_each. intros k. unfold order_closure.
  apply emits_bind; [by apply emits_tell | intros _].
  apply emits_bind; [apply emits_gets | intros node].
  destruct (n_public_closure node); try apply emits_raise.
  apply emits_bind; [apply emits_lift_result | intros popped].
  apply emits_bind; [apply emits_modify | intros _].
  destruct (sort_by_level _ _); [apply emits_modify | apply emits_raise].
Qed.

Lemma load_graph_emits φ fuel root pbr apply_build_requires lock :
  φ (EvBuildGraph root) ->
  (forall k, φ (EvOrderClosure k)) ->
  (forall graph, emits φ (_recurse_build_requires fuel graph graph pbr lock
                            apply_build_requires)) ->
  emits φ (_load_graph fuel root pbr apply_build_requires lock).
Proof.
  intros Hb Ho Hr. unfold _load_graph.
  apply emits_bind; [by apply emits_tell | intros _].
  apply emits_bind; [apply emits_call | intros graph].
  apply emits_bind; [apply Hr | intros _].
  apply emits_bind; [by apply order_closures_emits | intros _; apply emits_ret].
Qed.

(** X8.  With [apply_build_requires] false, [_load_graph] evaluates and
    skips no node, never extends the graph and starts no nested invocation
    (the graph is analysed once and its closures are ordered); the profile
    policy and the number of nested invocations allowed play no part. *)
Theorem no_expansion_without_apply_build_requires fuel root pbr lock (s : Store World) :
  let run := _load_graph (S fuel) root pbr false lock s in
  Forall (fun e => ~ expansion_event e) (events run)
  /\ run = _load_graph 1 root None false lock s.
Proof.
  cbv zeta. split; [|done].
  apply load_graph_emits; [simpl; tauto | simpl; tauto |].
  intros graph. cbn [_recurse_build_requires]. unfold recurse_body.
  apply emits_bind; [apply emits_tell; simpl; tauto | intros _].
  apply emits_bind; [apply emits_call | intros _]. apply emits_ret.
Qed.

Lemma expand_node_policy recurse graph lock pbr pbr' k node :
  default [] pbr = default [] pbr' ->
  expand_node recurse graph lock pbr k node = expand_node recurse graph lock pbr' k node.
Proof. intros H. unfold expand_node. cbv zeta. by rewrite H. Qed.

Lemma visit_nodes_policy recurse graph lock pbr pbr' nodes s :
  default [] pbr = default [] pbr' ->
  visit_nodes recurse graph lock pbr nodes s = visit_nodes recurse graph lock pbr' nodes s.
Proof.
  revert pbr pbr' s. induction nodes as [|k nodes IH]; intros pbr pbr' s Hp; [done|].
  cbn [visit_nodes]. unfold mbind, M_bind, visit_node, mbind, M_bind, bind, get_node, gets.
  cbn [out final events].
  destruct (is_virtual (heap s k)).
  { unfold tell, ret. cbn [out final events]. by rewrite (IH pbr pbr'). }
  destruct (binary_is_settled (heap s k)).
  { unfold tell, ret. cbn [out final events]. by rewrite (IH pbr pbr'). }
  unfold tell. cbn [out final events].
  rewrite (expand_node_policy _ _ _ pbr pbr') by done. done.
Qed.

(** X9.  A policy that is [None] is an empty policy: the two runs of
    [_recurse_build_requires] are the same. *)
Theorem missing_policy_is_empty_policy fuel graph sub lock apply_build_requires
    (s : Store World) :
  _recurse_build_requires fuel graph sub None lock apply_build_requires s =
  _recurse_build_requires fuel graph sub (Some []) lock apply_build_requires s.
Proof.
  destruct fuel as [|fuel]; [done|]. cbn [_recurse_build_requires].
  unfold recurse_body, mbind, M_bind, bind. cbn [tell out final events].
  destruct (out (call (evaluate_graph sub) s)); [|done..].
  destruct apply_build_requires; [|done]. cbn [negb gets out final events].
  by rewrite (visit_nodes_policy _ _ _ None (Some [])).
Qed.

Lemma recurse_policy_inherited P fuel graph sub pbr lock apply_build_requires :
  default [] pbr = P \/ default [] pbr = [] ->
  emits (deep (policy_inherited P))
    (_recurse_build_requires fuel graph sub pbr lock apply_build_requires).
Proof.
  revert sub pbr apply_build_requires.
  induction fuel as [|fuel IH]; intros sub pbr ap Hp; [apply emits_out_of_fuel|].
  cbn [_recurse_build_requires].
  apply recurse_body_emits with (policy := default [] pbr); try done;
    try (intros; by apply deep_leaf).
  - intros sub'. apply emits_nested. intros s.
    constructor; [done|]. by apply IH.
  - right. split; [intros; by apply deep_leaf|].
    intros sub'. apply emits_nested. intros s.
    constructor; [done|]. apply IH. by right.
Qed.

(** X10.  The policy is never changed, only handed down or dropped: every
    nested invocation for declared requirements gets the policy of its
    caller, so that at any depth an invocation has the policy of the
    outermost call or the empty one. *)
Theorem policy_inherited_or_dropped fuel graph sub pbr lock apply_build_requires
    (s : Store World) :
  let run := _recurse_build_requires fuel graph sub pbr lock apply_build_requires s in
  Forall (policy_handed_down (default [] pbr)) (events run)
  /\ Forall (deep (policy_inherited (default [] pbr))) (events run).
Proof.
  cbv zeta. split; [|apply recurse_policy_inherited; by left].
  destruct fuel as [|fuel]; [constructor|]. cbn [_recurse_build_requires].
  apply recurse_body_emits with (policy := default [] pbr); try done.
  - intros sub'. by apply emits_nested.
  - right. split; [done|]. intros sub'. by apply emits_nested.
Qed.

End ExpansionMore.

(** ** Patterns with and without wildcards *)

Lemma matches_star s : Fnmatch.matches [Fnmatch.TStar] s = true.
Proof.
  induction s as [|c s IH]; [done|].
  change (Fnmatch.matches [Fnmatch.TStar] (c :: s))
    with (Fnmatch.matches [] (c :: s) || Fnmatch.matches [Fnmatch.TStar] s).
  by rewrite IH, orb_true_r.
Qed.

Lemma applicable_app node str_ref (p1 p2 : ProfileBuildRequires) :
  applicable node str_ref (p1 ++ p2) =
  (applicable node str_ref p1 ++ applicable node str_ref p2)%list.
Proof. unfold applicable. apply bind_app. Qed.

(** X11.  The pattern [*] applies to every node, whatever its printed
    reference and its recipe kind, and the build-requirements listed under
    it are among the applicable ones, at the place of the entry in the
    policy. *)
Theorem star_pattern_applies_to_every_node (node : Node) (str_ref : string)
    (before after : ProfileBuildRequires) (build_requires : list ConanFileReference) :
  pattern_applies node str_ref "*" = true
  /\ applicable node str_ref (before ++ ("*", build_requires) :: after) =
     (applicable node str_ref before ++ build_requires
      ++ applicable node str_ref after)%list.
Proof.
  assert (pattern_applies node str_ref "*" = true) as Hstar.
  { unfold pattern_applies, Fnmatch.fnmatch. cbv zeta.
    change (Fnmatch.tokens _ _) with [Fnmatch.TStar].
    by rewrite matches_star, orb_true_r. }
  split; [done|].
  rewrite applicable_app. f_equal.
  change (("*", build_requires) :: after) with ([("*", build_requires)] ++ after)%list.
  rewrite applicable_app. f_equal.
  unfold applicable. simpl. rewrite Hstar. apply app_nil_r.
Qed.





(** ** Runs that return *)

Section ReturnsFacts.
Context {S : Type} (φ : Event -> Prop).

Lemma returns_mono {A} (m : M S A) s (Q Q' : A -> S -> Prop) :
  returns φ m s Q -> (forall a s', Q a s' -> Q' a s') -> returns φ m s Q'.
Proof. intros (He & a & Ho & HQ) H. split; [done|]. exists a. auto. Qed.

Lemma returns_ret {A} (a : A) s (Q : A -> S -> Prop) : Q a s -> returns φ (ret a) s Q.
Proof. intros HQ. split; [constructor|]. by exists a. Qed.

Lemma returns_bind {A B} (m : M S A) (k : A -> M S B) s (Q : B -> S -> Prop) :
  returns φ m s (fun a s' => returns φ (k a) s' Q) -> returns φ (m ≫= k) s Q.
Proof.
  intros (He & a & Ho & He' & b & Ho' & HQ).
  split.
  - rewrite events_bind, Ho. by apply Forall_app.
  - exists b. by rewrite out_bind, final_bind, Ho.
Qed.

Lemma returns_tell e s (Q : unit -> S -> Prop) :
  φ e -> Q tt s -> returns φ (tell e) s Q.
Proof. intros He HQ. split; [by repeat constructor|]. by exists tt. Qed.

Lemma returns_gets {A} (f : S -> A) s (Q : A -> S -> Prop) :
  Q (f s) s -> returns φ (gets f) s Q.
Proof. intros HQ. split; [constructor|]. by eexists. Qed.

Lemma returns_modify (f : S -> S) s (Q : unit -> S -> Prop) :
  Q tt (f s) -> returns φ (modify f) s Q.
Proof. intros HQ. split; [constructor|]. by exists tt. Qed.

Lemma returns_lift_result {A} (r : result A) a s (Q : A -> S -> Prop) :
  r = Ok a -> Q a s -> returns φ (lift_result r) s Q.
Proof. intros -> HQ. by apply returns_ret. Qed.

End ReturnsFacts.

(** ** Where the recursion stops *)

Section Leaves.
Context `{C : Collaborators}.

Lemma same_but_node_refl k s : same_but_node k s s.
Proof. done. Qed.

Lemma same_but_node_trans k s1 s2 s3 :
  same_but_node k s1 s2 -> same_but_node k s2 s3 -> same_but_node k s1 s3.
Proof.
  intros (Hw & Hn & Hh) (Hw' & Hn' & Hh'). split_and!; [congruence..|].
  intros x Hx. rewrite Hh', Hh; done.
Qed.

Lemma returns_set_build_requires φ k m s (Q : unit -> Store World -> Prop) :
  (forall s', same_but_node k s s' -> Q tt s') ->
  returns φ (set_build_requires k m) s Q.
Proof.
  intros HQ. unfold set_build_requires, get_node, set_node.
  apply returns_bind, returns_gets, returns_modify, HQ.
  split_and!; [done | done |]. intros x Hx. simpl. by rewrite decide_False.
Qed.

Lemma returns_get_recipe_build_requires φ k s m (Q : RecipeBuildRequires -> Store World -> Prop) :
  recipe_build_requires (n_conanfile (heap s k)) = Ok m ->
  (forall s', same_but_node k s s' -> Q m s') ->
  returns φ (_get_recipe_build_requires k) s Q.
Proof.
  intros Hrec HQ. unfold _get_recipe_build_requires, recipe_build_requires in *.
  apply returns_bind, returns_gets.
  destruct (RBR.init loads (n_conanfile (heap s k))) as [m0|e] eqn:Einit; [|done].
  apply returns_bind. eapply returns_lift_result; [done|].
  apply returns_bind, returns_set_build_requires. intros s1 H1.
  destruct (cf_build_requirements (n_conanfile (heap s k))) as [method|].
  - destruct (method m0) as [m'|e] eqn:Em; [|done]. injection Hrec as ->.
    apply returns_bind, returns_set_build_requires. intros s2 H2.
    apply returns_ret, HQ. by eapply same_but_node_trans.
  - injection Hrec as ->. by apply returns_ret, HQ.
Qed.

Lemma apply_profile_nothing node policy :
  Forall (fun r => name r = node_name node)
    (applicable node (str_of_ref (n_ref node)) policy) ->
  apply_profile node (str_of_ref (n_ref node)) policy [] = ([], []).
Proof.
  intros Hpol.
  destruct (apply_profile_spec node (str_of_ref (n_ref node)) policy [])
    as (Hk & _ & Hnew).
  destruct (apply_profile _ _ _ _) as [pkg newp]. simpl in *.
  destruct pkg; [|done]. f_equal. rewrite Hnew. apply filter_none.
  intros r Hr [_ Hne]. rewrite Forall_forall in Hpol. by apply Hne, Hpol.
Qed.

Lemma visit_node_nothing recurse graph lock pbr k (s : Store World) :
  nothing_to_add (default [] pbr) (heap s k) ->
  returns (fun e => ~ extension_event e) (visit_node recurse graph lock pbr k) s
    (fun pbr' s' => default [] pbr' = default [] pbr /\ same_but_node k s s').
Proof.
  intros Hn. unfold visit_node.
  apply returns_bind, returns_gets.
  destruct (needs_build_requires_guards (heap s k)) as [Hg1 Hg2].
  destruct (is_virtual (heap s k)) eqn:Ev.
  { apply returns_bind, returns_tell; [simpl; tauto|]. by apply returns_ret. }
  destruct (binary_is_settled (heap s k)) eqn:Eb.
  { apply returns_bind, returns_tell; [simpl; tauto|]. by apply returns_ret. }
  destruct Hn as [Hn|[Hrec Hpol]]; [exfalso; by apply Hn, Hg2|].
  apply returns_bind, returns_tell; [simpl; tauto|].
  unfold expand_node.
  apply returns_bind. eapply returns_get_recipe_build_requires; [done|].
  intros s1 H1. cbv zeta. rewrite apply_profile_nothing by done.
  cbn [fst snd OrderedDict.truthy].
  apply returns_bind, returns_set_build_requires. intros s2 H2.
  apply returns_bind, returns_ret.
  rewrite bool_decide_eq_false_2 by (intros ?; done).
  apply returns_bind, returns_ret. apply returns_ret.
  split; [done|]. by eapply same_but_node_trans.
Qed.

Lemma visit_nodes_nothing recurse graph lock pbr nodes (s : Store World) :
  NoDup nodes ->
  (forall k, k ∈ nodes -> nothing_to_add (default [] pbr) (heap s k)) ->
  returns (fun e => ~ extension_event e) (visit_nodes recurse graph lock pbr nodes) s
    (fun _ s' => st_world s' = st_world s /\ next_key s' = next_key s
                 /\ forall x, x ∉ nodes -> heap s' x = heap s x).
Proof.
  revert pbr s. induction nodes as [|k nodes IH]; intros pbr s Hnd Hall.
  { by apply returns_ret. }
  apply NoDup_cons in Hnd as [Hk Hnd].
  cbn [visit_nodes]. apply returns_bind.
  eapply returns_mono; [apply visit_node_nothing, Hall; left|].
  intros pbr' s' (Hp & Hw & Hnk & Hh). cbv beta.
  eapply returns_mono; [apply IH; [done|]|].
  - intros x Hx. rewrite Hp, Hh by (intros ->; done). apply Hall. by right.
  - intros _ s'' (Hw' & Hnk' & Hh'). split_and!; [congruence..|].
    intros x [Hx1 Hx2]%not_elem_of_cons. rewrite Hh' by done. by apply Hh.
Qed.

(** X13.  On a subgraph whose nodes (as the analyzer leaves them) are
    skipped or have nothing to resolve, [_recurse_build_requires] returns
    within one invocation: it extends nothing and starts no nested
    invocation, leaves the collaborators' state as the analyzer left it,
    creates no node and changes no node outside the subgraph. *)
Theorem recursion_stops_where_nothing_is_required fuel graph sub pbr lock
    (s s1 : Store World) :
  evaluate_graph sub s = (Ok tt, s1) ->
  NoDup (ordered_iterate sub s1) ->
  (forall k, k ∈ ordered_iterate sub s1 -> nothing_to_add (default [] pbr) (heap s1 k)) ->
  let run := _recurse_build_requires (S fuel) graph sub pbr lock true s in
  out run = Done tt
  /\ Forall (fun e => ~ extension_event e) (events run)
  /\ st_world (final run) = st_world s1
  /\ next_key (final run) = next_key s1
  /\ forall x, x ∉ ordered_iterate sub s1 -> heap (final run) x = heap s1 x.
Proof.
  intros Hev Hnd Hall. cbv zeta. cbn [_recurse_build_requires].
  assert (returns (fun e => ~ extension_event e)
            (recurse_body
               (fun b policy sub0 =>
                  nested (EvRecurse b policy)
                    (_recurse_build_requires fuel graph sub0 (Some policy) lock true))
               graph lock sub pbr true) s
            (fun _ s' => st_world s' = st_world s1 /\ next_key s' = next_key s1
                         /\ forall x, x ∉ ordered_iterate sub s1 -> heap s' x = heap s1 x))
    as (He & [] & Ho & HQ); [|done].
  unfold recurse_body.
  apply returns_bind, returns_tell; [simpl; tauto|].
  apply returns_bind.
  assert (returns (fun e => ~ extension_event e) (call (evaluate_graph sub)) s
            (fun _ s' => s' = s1)) as Hcall.
  { unfold returns, call. rewrite Hev. split; [constructor|]. by exists tt. }
  eapply returns_mono; [apply Hcall|]. intros [] ? ->. cbn [negb].
  apply returns_bind, returns_gets. by apply visit_nodes_nothing.
Qed.

End Leaves.

(** ** The dictionary of inverse levels *)

Lemma fold_insert_lookup (i : nat) (level : list NodeKey) (d : gmap NodeKey nat) n :
  foldl (fun d n => <[n := i]> d) d level !! n =
  if decide (n ∈ level) then Some i else d !! n.
Proof.
  revert d. induction level as [|x level IH]; intros d; cbn [foldl].
  - rewrite decide_False by apply not_elem_of_nil. done.
  - rewrite IH. destruct (decide (n ∈ level)) as [Hin|Hin].
    + rewrite decide_True by (by right). done.
    + destruct (decide (n = x)) as [->|Hne].
      * rewrite decide_True by left. by rewrite lookup_insert_eq.
      * rewrite decide_False by (by intros [?|?]%elem_of_cons).
        by rewrite lookup_insert_ne.
Qed.

Lemma inverse_levels_dict_snoc levels level n :
  inverse_levels_dict (levels ++ [level]) !! n =
  if decide (n ∈ level) then Some (length levels) else inverse_levels_dict levels !! n.
Proof.
  unfold inverse_levels_dict. rewrite imap_app, foldl_app. simpl.
  rewrite fold_insert_lookup. by rewrite Nat.add_0_r.
Qed.

(** X14.  The dictionary of inverse levels gives a node the index of the
    last level that lists it, and has no entry exactly for the nodes that no
    level lists. *)
Theorem inverse_levels_last_level_wins (levels : list (list NodeKey)) (n : NodeKey) :
  (forall i, inverse_levels_dict levels !! n = Some i <->
     (exists level, levels !! i = Some level /\ n ∈ level)
     /\ forall j level, i < j -> levels !! j = Some level -> n ∉ level)
  /\ (inverse_levels_dict levels !! n = None <->
      forall level, level ∈ levels -> n ∉ level).
Proof.
  induction levels as [|level levels [IHs IHn]] using rev_ind.
  - split.
    + intros i. unfold inverse_levels_dict. simpl. rewrite lookup_empty.
      split; [done | by intros [(? & ? & _) _]].
    + split; [by intros _ ? ?%elem_of_nil | done].
  - split.
    + intros i. rewrite inverse_levels_dict_snoc.
      destruct (decide (n ∈ level)) as [Hin|Hin].
      * split.
        -- intros [= <-]. split.
           ++ exists level. by rewrite list_lookup_middle.
           ++ intros j l Hj Hl. apply lookup_lt_Some in Hl.
              rewrite length_app in Hl. simpl in Hl. lia.
        -- intros [(l & Hl & Hnl) Hlast]. f_equal.
           pose proof (lookup_lt_Some _ _ _ Hl) as Hlt.
           rewrite length_app in Hlt. simpl in Hlt.
           destruct (decide (i = length levels)) as [|Hne]; [done|].
           exfalso. apply (Hlast (length levels) level); [lia | | done].
           by rewrite list_lookup_middle.
      * rewrite IHs. split.
        -- intros [(l & Hl & Hnl) Hlast]. split.
           ++ exists l. split; [|done]. by apply lookup_app_l_Some.
           ++ intros j l' Hj Hl'.
              destruct (decide (j < length levels)) as [Hlt|Hge].
              ** rewrite lookup_app_l in Hl' by done. by eapply Hlast.
              ** pose proof (lookup_lt_Some _ _ _ Hl') as Hlt.
                 rewrite length_app in Hlt. simpl in Hlt.
                 assert (j = length levels) as -> by lia.
                 rewrite list_lookup_middle in Hl' by done. by injection Hl' as <-.
        -- intros [(l & Hl & Hnl) Hlast].
           pose proof (lookup_lt_Some _ _ _ Hl) as Hlt.
           rewrite length_app in Hlt. simpl in Hlt.
           destruct (decide (i = length levels)) as [->|Hne].
           { rewrite list_lookup_middle in Hl by done. injection Hl as <-. done. }
           rewrite lookup_app_l in Hl by lia. split; [by exists l|].
           intros j l' Hj Hl'. apply (Hlast j l' Hj). by apply lookup_app_l_Some.
    + rewrite inverse_levels_dict_snoc.
      destruct (decide (n ∈ level)) as [Hin|Hin].
      * split; [done|]. intros H. exfalso. apply (H level); [|done].
        apply elem_of_app. right. by left.
      * rewrite IHn. split.
        -- intros H l [Hl|Hl%list_elem_of_singleton]%elem_of_app; [by apply H | by subst].
        -- intros H l Hl. apply H, elem_of_app. by left.
Qed.

(** ** The ordering pass: what it changes, when it succeeds *)

Section ClosureMore.
Context `{C : Collaborators}.

Lemma same_but_closure_refl n : same_but_closure n n.
Proof. exists (n_public_closure n). by destruct n. Qed.

Lemma same_but_closure_trans n1 n2 n3 :
  same_but_closure n1 n2 -> same_but_closure n2 n3 -> same_but_closure n1 n3.
Proof. intros [c ->] [c' ->]. by exists c'. Qed.

Lemma order_closure_frame inv k (s : Store World) :
  let run := order_closure inv k s in
  out run ≠ OutOfFuel
  /\ next_key (final run) = next_key s
  /\ st_world (final run) = st_world s
  /\ same_but_closure (heap s k) (heap (final run) k)
  /\ forall x, x ≠ k -> heap (final run) x = heap s x.
Proof.
  cbv zeta. unfold order_closure, mbind, M_bind, bind, tell, get_node, set_node, gets,
    modify, lift_result. cbn [out final events].
  destruct (n_public_closure (heap s k)) as [|closure|l] eqn:Ecl;
    cbn [out final events raise ret];
    try (split_and!; [done | done | done | apply same_but_closure_refl | done]).
  destruct (OrderedDict.pop (node_name (heap s k)) closure) as [[self closure']|e];
    cbn [out final events raise ret heap next_key st_world store_set];
    [|split_and!; [done | done | done | apply same_but_closure_refl | done]].
  destruct (sort_by_level inv _) as [order|];
    cbn [out final events raise ret heap next_key st_world store_set].
  - rewrite !decide_True by done.
    split_and!; [done | done | done | by eexists |].
    intros x Hx. by rewrite !decide_False by done.
  - rewrite !decide_True by done.
    split_and!; [done | done | done | by eexists |].
    intros x Hx. by rewrite !decide_False by done.
Qed.

Lemma order_closures_loop_frame inv nodes (s : Store World) :
  let run := for_each nodes (order_closure inv) s in
  out run ≠ OutOfFuel
  /\ next_key (final run) = next_key s
  /\ st_world (final run) = st_world s
  /\ (forall x, same_but_closure (heap s x) (heap (final run) x))
  /\ forall x, x ∉ nodes -> heap (final run) x = heap s x.
Proof.
  cbv zeta. revert s. induction nodes as [|k nodes IH]; intros s.
  { split_and!; try done. intros x. apply same_but_closure_refl. }
  cbn [for_each]. change (bind ?m ?f) with (m ≫= f).
  rewrite out_bind, final_bind.
  destruct (order_closure_frame inv k s) as (Ho & Hn & Hw & Hk & Hx).
  assert (forall x, same_but_closure (heap s x) (heap (final (order_closure inv k s)) x))
    as Hall.
  { intros x. destruct (decide (x = k)) as [->|Hne]; [done|].
    rewrite Hx by done. apply same_but_closure_refl. }
  destruct (out (order_closure inv k s)) as [[]|e|] eqn:E; [| |done].
  - destruct (IH (final (order_closure inv k s))) as (Ho' & Hn' & Hw' & Hk' & Hx').
    split_and!; [done | congruence | congruence | |].
    + intros x. by eapply same_but_closure_trans.
    + intros x [? ?]%not_elem_of_cons. rewrite Hx' by done. by apply Hx.
  - split_and!; [done | done | done | done |].
    intros x [? ?]%not_elem_of_cons. by apply Hx.
Qed.

(** X15.  Whatever its outcome, the ordering pass always ends, creates no
    node, leaves the collaborators' state alone and changes nothing but the
    [public_closure] of nodes of the graph. *)
Theorem ordering_pass_changes_closures_only graph (s : Store World) :
  let run := order_closures graph s in
  out run ≠ OutOfFuel
  /\ next_key (final run) = next_key s
  /\ st_world (final run) = st_world s
  /\ (forall x, same_but_closure (heap s x) (heap (final run) x))
  /\ (forall x, x ∉ graph_nodes graph s -> heap (final run) x = heap s x).
Proof.
  cbv zeta. unfold order_closures.
  rewrite !out_bind, !final_bind. cbn [gets out final].
  rewrite !out_bind, !final_bind. cbn [gets out final].
  apply order_closures_loop_frame.
Qed.

Lemma order_closure_orderable inv k (s : Store World) :
  orderable inv (heap s k) ->
  out (order_closure inv k s) = Done tt.
Proof.
  intros (closure & self & Hcl & Hself & Hlev).
  unfold order_closure, mbind, M_bind, bind, tell, get_node, set_node, gets,
    modify, lift_result. cbn [out final events].
  rewrite Hcl. unfold OrderedDict.pop. rewrite Hself.
  cbn [out final events raise ret heap next_key st_world store_set snd].
  destruct (sort_by_level inv _) as [order|] eqn:Es; [done|]. exfalso.
  unfold sort_by_level, decorate in Es. apply fmap_None in Es.
  apply mapM_None, Exists_exists in Es as (m & Hm & Hnone).
  apply fmap_None in Hnone. rewrite Forall_forall in Hlev.
  destruct (Hlev m Hm) as [? ?]. congruence.
Qed.

Lemma order_closures_loop_orderable inv nodes (s : Store World) :
  NoDup nodes ->
  (forall k, k ∈ nodes -> orderable inv (heap s k)) ->
  out (for_each nodes (order_closure inv) s) = Done tt.
Proof.
  revert s. induction nodes as [|k nodes IH]; intros s Hnd Hall; [done|].
  apply NoDup_cons in Hnd as [Hk Hnd].
  cbn [for_each]. change (bind ?m ?f) with (m ≫= f). rewrite out_bind.
  rewrite order_closure_orderable by (apply Hall; left).
  apply IH; [done|]. intros x Hx.
  destruct (order_closure_frame inv k s) as (_ & _ & _ & _ & Hframe).
  rewrite Hframe by (intros ->; done). apply Hall. by right.
Qed.

(** X16.  The ordering pass returns on every graph whose nodes are listed
    once and are all orderable: each closure is a dictionary with an entry
    under the name of its node, and every other entry has a level. *)
Theorem ordering_pass_succeeds_on_orderable_nodes graph (s : Store World) :
  NoDup (graph_nodes graph s) ->
  (forall k, k ∈ graph_nodes graph s ->
     orderable (inverse_levels_dict (inverse_levels graph s)) (heap s k)) ->
  out (order_closures graph s) = Done tt.
Proof.
  intros Hnd Hall. unfold order_closures.
  rewrite out_bind. cbn [gets out final]. rewrite out_bind. cbn [gets out final].
  by apply order_closures_loop_orderable.
Qed.

End ClosureMore.

(** ** The ordering pass: where it fails *)

Lemma for_each_app_out {S A} (l1 l2 : list A) (body : A -> M S unit) s :
  out (for_each (l1 ++ l2) body s) =
  match out (for_each l1 body s) with
  | Done _ => out (for_each l2 body (final (for_each l1 body s)))
  | r => r
  end.
Proof.
  revert s. induction l1 as [|x l1 IH]; intros s; [done|].
  change ((x :: l1) ++ l2)%list with (x :: (l1 ++ l2))%list.
  cbn [for_each]. change (bind ?m ?f) with (m ≫= f).
  rewrite !out_bind, !final_bind.
  destruct (out (body x s)) as [[]| |]; [apply IH | done..].
Qed.

Lemma for_each_app_final {S A} (l1 l2 : list A) (body : A -> M S unit) s :
  final (for_each (l1 ++ l2) body s) =
  match out (for_each l1 body s) with
  | Done _ => final (for_each l2 body (final (for_each l1 body s)))
  | _ => final (for_each l1 body s)
  end.
Proof.
  revert s. induction l1 as [|x l1 IH]; intros s; [done|].
  change ((x :: l1) ++ l2)%list with (x :: (l1 ++ l2))%list.
  cbn [for_each]. change (bind ?m ?f) with (m ≫= f).
  rewrite !out_bind, !final_bind.
  destruct (out (body x s)) as [[]| |]; [apply IH | done..].
Qed.

Section ClosureErrors.
Context `{C : Collaborators}.

(** The pass up to a node [k] that makes it fail: the nodes before [k] are
    ordered, every other node is as it was. *)
Lemma order_closures_stops inv before k after (s : Store World) e :
  NoDup (before ++ k :: after) ->
  (forall x, x ∈ before -> orderable inv (heap s x)) ->
  (forall s', heap s' k = heap s k -> out (order_closure inv k s') = Raised e) ->
  let run := for_each (before ++ k :: after) (order_closure inv) s in
  let at_k := order_closure inv k (final (for_each before (order_closure inv) s)) in
  out run = Raised e
  /\ final run = final at_k
  /\ (forall x, x ∈ before ->
        closure_ordered inv (heap s x) (heap (final run) x))
  /\ (forall x, x ∉ before -> x ≠ k -> heap (final run) x = heap s x).
Proof.
  intros Hnd Hbefore Hk. cbv zeta.
  apply NoDup_app in Hnd as (Hnd1 & Hdisj & Hnd2).
  pose proof (order_closures_loop_orderable inv before s Hnd1 Hbefore) as Hdone.
  destruct (order_closures_loop inv before s Hnd1 Hdone) as (Hin & Hout).
  rewrite for_each_app_out, for_each_app_final, Hdone.
  cbn [for_each]. change (bind ?m ?f) with (m ≫= f).
  rewrite out_bind, final_bind.
  set (s1 := final (for_each before (order_closure inv) s)) in *.
  assert (heap s1 k = heap s k) as Hsame.
  { apply Hout. intros Hkin. apply (Hdisj k Hkin). left. }
  rewrite (Hk s1 Hsame).
  destruct (order_closure_frame inv k s1) as (_ & _ & _ & _ & Hframe).
  split_and!; [done | done | |].
  - intros x Hx. rewrite Hframe; [by apply Hin|].
    intros ->. apply (Hdisj k Hx). left.
  - intros x Hx Hne. rewrite Hframe by done. by apply Hout.
Qed.

(** X17.  The ordering pass stops with [KeyError] at the first node whose
    closure has no entry under the name of the node: the nodes before it are
    ordered, this node and all the others are as they were. *)
Theorem ordering_pass_stops_at_missing_own_entry graph (s : Store World)
    before k after closure :
  graph_nodes graph s = (before ++ k :: after)%list ->
  NoDup (graph_nodes graph s) ->
  let inv := inverse_levels_dict (inverse_levels graph s) in
  (forall x, x ∈ before -> orderable inv (heap s x)) ->
  n_public_closure (heap s k) = ClosureMap closure ->
  OrderedDict.get (node_name (heap s k)) closure = None ->
  let run := order_closures graph s in
  out run = Raised KeyError
  /\ (forall x, x ∈ before -> closure_ordered inv (heap s x) (heap (final run) x))
  /\ (forall x, x ∉ before -> heap (final run) x = heap s x).
Proof.
  intros Hnodes Hnd inv Hbefore Hcl Hget. cbv zeta.
  unfold order_closures. rewrite !out_bind, !final_bind. cbn [gets out final].
  rewrite !out_bind, !final_bind. cbn [gets out final]. fold inv.
  rewrite Hnodes in *.
  destruct (order_closures_stops inv before k after s KeyError Hnd Hbefore)
    as (Ho & Hf & Hin & Hout).
  { intros s' Hs'. eapply order_closure_KeyError; rewrite Hs'; done. }
  split_and!; [done | done |].
  intros x Hx. destruct (decide (x = k)) as [->|Hne]; [|by apply Hout].
  rewrite Hf.
  set (s1 := final (for_each before (order_closure inv) s)).
  assert (heap s1 k = heap s k) as Hsame.
  { apply NoDup_app in Hnd as (Hnd1 & _ & _).
    pose proof (order_closures_loop_orderable inv before s Hnd1 Hbefore) as Hdone.
    by apply (order_closures_loop inv before s Hnd1 Hdone). }
  rewrite <- Hsame.
  unfold order_closure, mbind, M_bind, bind, tell, get_node, gets, lift_result.
  cbn [out final events]. rewrite Hsame, Hcl. unfold OrderedDict.pop. rewrite Hget. done.
Qed.

(** X18.  The ordering pass stops with [KeyError] at the first node whose
    closure holds a node without level: the nodes before it are ordered, the
    nodes after it are as they were, and the closure of this node is left as
    the dictionary without the entry of the node itself. *)
Theorem ordering_pass_stops_at_missing_level graph (s : Store World)
    before k after closure self m :
  graph_nodes graph s = (before ++ k :: after)%list ->
  NoDup (graph_nodes graph s) ->
  let inv := inverse_levels_dict (inverse_levels graph s) in
  (forall x, x ∈ before -> orderable inv (heap s x)) ->
  n_public_closure (heap s k) = ClosureMap closure ->
  OrderedDict.get (node_name (heap s k)) closure = Some self ->
  m ∈ OrderedDict.values (OrderedDict.remove (node_name (heap s k)) closure) ->
  inv !! m = None ->
  let run := order_closures graph s in
  out run = Raised KeyError
  /\ heap (final run) k =
     node_with_closure
       (ClosureMap (OrderedDict.remove (node_name (heap s k)) closure)) (heap s k)
  /\ (forall x, x ∈ before -> closure_ordered inv (heap s x) (heap (final run) x))
  /\ (forall x, x ∉ before -> x ≠ k -> heap (final run) x = heap s x).
Proof.
  intros Hnodes Hnd inv Hbefore Hcl Hget Hm Hlev. cbv zeta.
  unfold order_closures. rewrite !out_bind, !final_bind. cbn [gets out final].
  rewrite !out_bind, !final_bind. cbn [gets out final]. fold inv.
  rewrite Hnodes in *.
  assert (sort_by_level inv
            (OrderedDict.values (OrderedDict.remove (node_name (heap s k)) closure)) = None)
    as Hsort.
  { unfold sort_by_level, decorate. apply fmap_None, mapM_None, Exists_exists.
    exists m. split; [done|]. by rewrite Hlev. }
  assert (forall s' : Store World, heap s' k = heap s k ->
            out (order_closure inv k s') = Raised KeyError
            /\ heap (final (order_closure inv k s')) k =
               node_with_closure
                 (ClosureMap (OrderedDict.remove (node_name (heap s k)) closure)) (heap s k))
    as Hat.
  { intros s' Hs'.
    unfold order_closure, mbind, M_bind, bind, tell, get_node, set_node, gets, modify,
      lift_result. cbn [out final events].
    rewrite Hs', Hcl. unfold OrderedDict.pop. rewrite Hget.
    cbn [out final events raise ret heap next_key st_world store_set snd].
    rewrite Hsort. cbn [out final events raise ret heap next_key st_world store_set].
    by rewrite decide_True. }
  destruct (order_closures_stops inv before k after s KeyError Hnd Hbefore)
    as (Ho & Hf & Hin & Hout).
  { intros s' Hs'. by apply Hat. }
  split_and!; [done | | done | done].
  rewrite Hf. apply Hat.
  apply NoDup_app in Hnd as (Hnd1 & Hdisj & _).
  pose proof (order_closures_loop_orderable inv before s Hnd1 Hbefore) as Hdone.
  apply (order_closures_loop inv before s Hnd1 Hdone).
  intros Hkin. apply (Hdisj k Hkin). left.
Qed.

(** X19.  The ordering pass cannot be repeated: after a pass that returned
    on a graph with at least one node, a second pass over the same nodes
    raises [TypeError], the closures being lists by then. *)
Theorem ordering_pass_cannot_be_repeated graph (s : Store World) :
  NoDup (graph_nodes graph s) ->
  graph_nodes graph s ≠ [] ->
  out (order_closures graph s) = Done tt ->
  let s' := final (order_closures graph s) in
  graph_nodes graph s' = graph_nodes graph s ->
  out (order_closures graph s') = Raised TypeError.
Proof.
  intros Hnd Hne Hdone s' Hsame.
  destruct (graph_nodes graph s) as [|k rest] eqn:Hnodes; [done|].
  destruct (order_closures_Done graph s) with (k := k)
    as (closure & self & order & _ & _ & _ & Hk);
    [by rewrite Hnodes | done | rewrite Hnodes; left |].
  unfold order_closures at 1. rewrite out_bind. cbn [gets out final].
  rewrite out_bind. cbn [gets out final]. rewrite Hsame.
  cbn [for_each]. change (bind ?m ?f) with (m ≫= f). rewrite out_bind.
  unfold order_closure, mbind, M_bind, bind, tell, get_node, gets.
  cbn [out final events]. fold s' in Hk. rewrite Hk. done.
Qed.

End ClosureErrors.

(** ** [load_graph]: what becomes of [graph_info] *)

Section InfoFacts.
Context `{C : Collaborators} {X : Type} (f : GraphInfo -> X).

Lemma keeps_info_bind {A B} (m : M (LGState World) A) (k : A -> M (LGState World) B) s :
  keeps_info f m s ->
  (forall a, out (m s) = Done a -> keeps_info f (k a) (final (m s))) ->
  keeps_info f (m ≫= k) s.
Proof.
  unfold keeps_info. intros Hm Hk. rewrite final_bind.
  destruct (out (m s)) as [a| |]; [|done..]. rewrite Hk; done.
Qed.

Lemma keeps_info_on_store {A} (m : M (Store World) A) s : keeps_info f (on_store m) s.
Proof. done. Qed.

Lemma keeps_info_modify g s :
  (forall gi, f (g gi) = f gi) -> keeps_info f (modify_info g) s.
Proof. intros H. apply H. Qed.

Lemma keeps_info_lift_result {A} (r : result A) s : keeps_info f (lift_result r) s.
Proof. by destruct r. Qed.

Lemma keeps_info_for_each {A} (l : list A) body s :
  (forall x s', keeps_info f (body x) s') -> keeps_info f (for_each l body) s.
Proof.
  intros H. revert s. induction l as [|x l IH]; intros s; [done|].
  cbn [for_each]. apply (keeps_info_bind (body x)); [apply H | intros _ _; apply IH].
Qed.

End InfoFacts.

Ltac keeps_info_step :=
  first
    [ apply keeps_info_on_store
    | apply keeps_info_lift_result
    | apply keeps_info_modify; by intros []
    | reflexivity
    | apply keeps_info_bind; [|intros ? ?] ].

Section LoadGraphMore.
Context `{C : Collaborators}.

Lemma report_resolution_keeps_info {X} (f : GraphInfo -> X) deps_graph s :
  keeps_info f (report_resolution deps_graph) s.
Proof.
  unfold report_resolution.
  apply keeps_info_bind; [reflexivity | intros output _].
  apply keeps_info_bind; [|intros; repeat keeps_info_step].
  destruct output; [reflexivity|].
  apply keeps_info_bind; [reflexivity | intros _ _].
  apply keeps_info_bind; [|intros; reflexivity].
  apply keeps_info_for_each. intros; reflexivity.
Qed.

Lemma load_graph_finish_keeps_info {X} (f : GraphInfo -> X) deps_graph s :
  (forall l gi, f (info_with_lock l gi) = f gi) ->
  keeps_info f (load_graph_finish deps_graph) s.
Proof.
  intros Hf. unfold load_graph_finish.
  apply keeps_info_bind; [|intros; apply report_resolution_keeps_info].
  unfold settle_lock.
  apply keeps_info_bind; [reflexivity | intros lock _].
  apply keeps_info_bind; [reflexivity | intros nodes _].
  destruct lock; repeat keeps_info_step.
Qed.

Lemma load_root_from_path_keeps_profile path create_reference profile lock s :
  keeps_info gi_profile (load_root_from_path path create_reference profile lock) s.
Proof.
  unfold load_root_from_path. destruct (ends_with_py path).
  - apply keeps_info_bind.
    + destruct lock as [lock|], create_reference as [r|]; try reflexivity.
      apply keeps_info_bind; [reflexivity | intros root _].
      apply keeps_info_bind.
      { destruct (name root); [reflexivity|]. repeat keeps_info_step. }
      intros _ _. repeat keeps_info_step.
    + intros reqs _. repeat keeps_info_step.
      destruct create_reference; repeat keeps_info_step.
  - repeat keeps_info_step.
Qed.

Lemma load_root_keeps_profile reference create_reference profile lock s :
  keeps_info gi_profile (load_root reference create_reference profile lock) s.
Proof.
  unfold load_root.
  destruct reference as [refs|r|path].
  - repeat keeps_info_step.
  - destruct (negb revisions_enabled && _); repeat keeps_info_step.
    destruct lock; repeat keeps_info_step.
  - apply keeps_info_bind; [apply load_root_from_path_keeps_profile | intros loaded _].
    repeat keeps_info_step. destruct lock; repeat keeps_info_step.
Qed.

Lemma load_graph_resolve_profile fuel reference create_reference
    apply_build_requires (s : LGState World) :
  gi_profile (lg_info (final (load_graph_resolve fuel reference create_reference
                                apply_build_requires s)))
  = profile_with_dev_reference create_reference (gi_profile (lg_info s)).
Proof.
  unfold load_graph_resolve. rewrite final_bind. cbn [modify_info modify out final].
  match goal with |- gi_profile (lg_info (final (?m ?s0))) = _ =>
    change (keeps_info gi_profile m s0) end.
  repeat keeps_info_step; try apply load_root_keeps_profile.
  destruct (_.2); repeat keeps_info_step.
Qed.

(** X20.  Whatever its outcome (even when it refuses a revision),
    [load_graph] leaves the profile of [graph_info] with [dev_reference] set
    to [create_reference] and otherwise as it was. *)
Theorem load_graph_records_dev_reference fuel reference create_reference
    apply_build_requires (s : LGState World) :
  gi_profile (lg_info (final (load_graph fuel reference create_reference
                                apply_build_requires s)))
  = profile_with_dev_reference create_reference (gi_profile (lg_info s)).
Proof.
  unfold load_graph. rewrite final_bind.
  destruct (out _) as [g| |];
    rewrite ?load_graph_finish_keeps_info by done;
    apply load_graph_resolve_profile.
Qed.

End LoadGraphMore.

Ltac bind_done H :=
  repeat (apply bind_Done in H as (? & _ & H); cbv beta in H).

Section RootFacts.
Context `{C : Collaborators}.

Lemma load_root_keeps_root reference create_reference profile lock s :
  is_recipe_path reference = false ->
  keeps_info gi_root (load_root reference create_reference profile lock) s.
Proof.
  intros Hp. unfold load_root.
  destruct reference as [refs|r|path].
  - repeat keeps_info_step.
  - destruct (negb revisions_enabled && _); repeat keeps_info_step.
    destruct lock; repeat keeps_info_step.
  - simpl in Hp. apply keeps_info_bind.
    { unfold load_root_from_path. rewrite Hp. repeat keeps_info_step. }
    intros loaded _.
    repeat keeps_info_step. destruct lock; repeat keeps_info_step.
Qed.

Lemma load_root_no_reference reference create_reference profile lock s root :
  is_recipe_path reference = false ->
  out (load_root reference create_reference profile lock s) = Done root ->
  root.2 = None.
Proof.
  intros Hp H. unfold load_root in H.
  destruct reference as [refs|r|path].
  - bind_done H. by injection H as <-.
  - destruct (negb revisions_enabled && _); [done|].
    bind_done H. by injection H as <-.
  - simpl in Hp. apply bind_Done in H as (loaded & Hl & H). cbv beta in H.
    bind_done H. injection H as <-. simpl.
    unfold load_root_from_path in Hl. rewrite Hp in Hl.
    bind_done Hl. by injection Hl as <-.
Qed.

(** X21.  Unless [reference] is the path of a recipe in Python,
    [load_graph] leaves [graph_info.root] as it was, whatever its
    outcome. *)
Theorem root_reference_kept_unless_recipe_path fuel reference create_reference
    apply_build_requires (s : LGState World) :
  is_recipe_path reference = false ->
  gi_root (lg_info (final (load_graph fuel reference create_reference
                             apply_build_requires s)))
  = gi_root (lg_info s).
Proof.
  intros Hp.
  assert (keeps_info gi_root
            (load_graph_resolve fuel reference create_reference apply_build_requires) s)
    as Hres.
  { unfold load_graph_resolve.
    apply keeps_info_bind; [by apply keeps_info_modify; intros [] | intros _ _].
    apply keeps_info_bind; [reflexivity | intros profile _].
    apply keeps_info_bind; [reflexivity | intros lock _].
    apply keeps_info_bind; [by apply load_root_keeps_root | intros root Hroot].
    apply load_root_no_reference in Hroot; [|done]. rewrite Hroot.
    repeat keeps_info_step. }
  unfold load_graph. rewrite final_bind.
  destruct (out _) as [g| |];
    rewrite ?load_graph_finish_keeps_info by done; apply Hres.
Qed.

End RootFacts.

Lemma final_bind_Done {S A B} (m : M S A) (k : A -> M S B) s a :
  out (m s) = Done a -> final ((m ≫= k) s) = final (k a (final (m s))).
Proof. intros H. by rewrite final_bind, H. Qed.

(** Steps into a run that returned: [H] is about the rest of the run, the
    goal about its final state. *)
Ltac step_done H :=
  let a := fresh "a" in
  let Ha := fresh "Ha" in
  apply bind_Done in H as (a & Ha & H); cbv beta in H;
  rewrite (final_bind_Done _ _ _ _ Ha).

Section TestPackage.
Context `{C : Collaborators}.

Lemma inject_require_user_channel conanfile ref conanfile' :
  _inject_require conanfile ref = Ok conanfile' ->
  cf_conan_user conanfile' = user ref
  /\ cf_conan_channel conanfile' = channel ref
  /\ cf_name conanfile' = cf_name conanfile
  /\ cf_version conanfile' = cf_version conanfile
  /\ cf_build_requires conanfile' = cf_build_requires conanfile
  /\ cf_build_requirements conanfile' = cf_build_requirements conanfile.
Proof.
  unfold _inject_require.
  destruct (OrderedDict.get _ _); [by intros [= <-]|].
  destruct (requires_add_ref _ _); [by intros [= <-] | done].
Qed.

Lemma load_root_from_path_reference path ref profile lock s loaded :
  ends_with_py path = true ->
  out (load_root_from_path path (Some ref) profile lock s) = Done loaded ->
  exists r, loaded.2 = Some r
    /\ user r = user ref /\ channel r = channel ref /\ revision r = None
    /\ name r = cf_name loaded.1 /\ version r = cf_version loaded.1.
Proof.
  intros Hp H. unfold load_root_from_path in H. rewrite Hp in H.
  apply bind_Done in H as (reqs & _ & H). cbv beta in H.
  apply bind_Done in H as (root & _ & H). cbv beta in H.
  apply bind_Done in H as (? & _ & H). cbv beta in H.
  apply bind_Done in H as (cf & _ & H). cbv beta in H.
  apply bind_Done in H as (cf' & Hinj & H). cbv beta in H.
  injection H as <-. simpl.
  destruct (_inject_require cf ref) as [cf''|e] eqn:E; [|done].
  simpl in Hinj. injection Hinj as <-.
  destruct (inject_require_user_channel _ _ _ E) as (Hu & Hc & _).
  eexists. split; [done|]. simpl. by rewrite Hu, Hc.
Qed.

(** X22.  When [load_graph] returns for the path of a recipe in Python
    and a [create_reference] (the test of a package), [graph_info.root] has
    the user and the channel of [create_reference] and no revision. *)
Theorem test_package_root_takes_user_and_channel fuel path ref
    apply_build_requires (s : LGState World) deps_graph :
  ends_with_py path = true ->
  let run := load_graph fuel (RefPath path) (Some ref) apply_build_requires s in
  out run = Done deps_graph ->
  let root := gi_root (lg_info (final run)) in
  user root = user ref /\ channel root = channel ref /\ revision root = None.
Proof.
  intros Hp run H. subst run. cbv zeta.
  unfold load_graph in *.
  apply bind_Done in H as (g & Hres & _).
  rewrite (final_bind_Done _ _ _ _ Hres).
  rewrite load_graph_finish_keeps_info by done.
  unfold load_graph_resolve in *.
  step_done Hres. step_done Hres. step_done Hres.
  step_done Hres.
  unfold load_root in Ha2.
  apply bind_Done in Ha2 as (loaded & Hl & Hroot). cbv beta in Hroot.
  apply load_root_from_path_reference in Hl as (r & Hr & Hu & Hc & Hrev & _); [|done].
  bind_done Hroot. injection Hroot as <-. cbn [fst snd] in *.
  do 6 step_done Hres.
  rewrite Hr in *. step_done Hres.
  cbn [ret final modify_info modify lg_info gi_root info_with_root]. done.
Qed.

End TestPackage.

(** ** [load_graph]: calls on the lock *)

Section TraceFacts.
Context {S : Type}.

Lemma events_bind_Forall {A B} φ (m : M S A) (k : A -> M S B) s :
  Forall φ (events (m s)) ->
  (forall a, out (m s) = Done a -> Forall φ (events (k a (final (m s))))) ->
  Forall φ (events ((m ≫= k) s)).
Proof.
  intros Hm Hk. rewrite events_bind. apply Forall_app. split; [done|].
  destruct (out (m s)); [by apply Hk | constructor..].
Qed.

Lemma emits_zoom {T A} φ (proj : T -> S) inj (m : M S A) :
  emits φ m -> emits φ (zoom proj inj m).
Proof. intros H t. apply H. Qed.

End TraceFacts.

Section LockLookups.
Context `{C : Collaborators}.

(** Events that every invocation of the expansion may produce satisfy [φ]. *)
Lemma recurse_emits_deep φ fuel graph sub pbr lock apply_build_requires :
  φ EvAnalyze ->
  (forall k n, φ (EvSkip k n)) ->
  (forall k n, φ (EvEvaluate k n)) ->
  (forall b k nm reqs, φ (EvExtend b k nm reqs)) ->
  (forall b p tr, φ (EvRecurse b p tr)) ->
  emits (deep φ) (_recurse_build_requires fuel graph sub pbr lock apply_build_requires).
Proof.
  intros H1 H2 H3 H4 H5. revert sub pbr apply_build_requires.
  induction fuel as [|fuel IH]; intros sub pbr ap; [apply emits_out_of_fuel|].
  cbn [_recurse_build_requires].
  apply recurse_body_emits with (policy := default [] pbr); try done;
    try (intros; by apply deep_leaf).
  - intros sub'. apply emits_nested. intros s. constructor; [done|]. by apply IH.
  - right. split; [intros; by apply deep_leaf|].
    intros sub'. apply emits_nested. intros s. constructor; [done|]. by apply IH.
Qed.

Lemma on_store_emits {A} φ (m : M (Store World) A) : emits φ m -> emits φ (on_store m).
Proof. apply emits_zoom. Qed.

Lemma load_graph_finish_emits φ deps_graph :
  φ EvSeedLock -> φ EvUpdateCheck -> (forall line, φ (EvOutput line)) ->
  emits φ (load_graph_finish deps_graph).
Proof.
  intros H1 H2 H3. unfold load_graph_finish, settle_lock, report_resolution.
  apply emits_bind.
  { apply emits_bind; [apply emits_gets | intros lock].
    apply emits_bind; [apply emits_gets | intros nodes].
    destruct lock.
    - apply emits_bind; [by apply emits_tell | intros; apply emits_lift_result].
    - apply emits_bind; [by apply emits_tell | intros; apply emits_modify]. }
  intros _. apply emits_bind; [apply emits_gets | intros output].
  apply emits_bind.
  { destruct output; [apply emits_ret|].
    apply emits_bind; [by apply emits_tell | intros _].
    apply emits_bind; [|intros; by apply emits_tell].
    apply emits_for_each. intros msg. by apply emits_tell. }
  intros _. apply emits_bind; [|intros; apply emits_ret].
  apply on_store_emits, emits_call.
Qed.

Lemma new_node_emits φ ref conanfile recipe path :
  (forall k, φ (EvNode k)) -> emits φ (new_node ref conanfile recipe path).
Proof.
  intros H. unfold new_node.
  apply emits_bind; [apply emits_gets | intros k].
  apply emits_bind; [apply emits_modify | intros _].
  apply emits_bind; [by apply emits_tell | intros; apply emits_ret].
Qed.

Lemma leaf_no_lock_lookup e :
  nested_events e = [] -> ~ lock_lookup_event e -> no_lock_lookup e.
Proof. intros. by apply deep_leaf. Qed.

Lemma find_consumer_not_lookup : no_lock_lookup (EvLock "find_consumer_node").
Proof. apply leaf_no_lock_lookup; [done|]. simpl. by intros [|]. Qed.

Lemma load_root_no_lock_lookup reference create_reference profile lock :
  lock = None \/ create_reference ≠ None \/ is_recipe_path reference = false ->
  emits no_lock_lookup (load_root reference create_reference profile lock).
Proof.
  intros Hcase.
  assert (forall m, m ≠ "load_class" -> no_lock_lookup (EvLoader m)) as Hloader.
  { intros m Hm. by apply leaf_no_lock_lookup. }
  assert (forall k, no_lock_lookup (EvNode k)) as Hnode.
  { intros k. apply leaf_no_lock_lookup; [done | simpl; tauto]. }
  unfold load_root. destruct reference as [refs|r|path].
  - apply emits_bind; [by apply emits_tell, Hloader | intros _].
    apply emits_bind; [apply on_store_emits, emits_call | intros cf].
    apply emits_bind; [by apply on_store_emits, new_node_emits | intros k].
    apply emits_ret.
  - destruct (negb revisions_enabled && _); [apply emits_raise|].
    apply emits_bind; [by apply emits_tell, Hloader | intros _].
    apply emits_bind; [apply on_store_emits, emits_call | intros cf].
    apply emits_bind; [by apply on_store_emits, new_node_emits | intros k].
    apply emits_bind; [|intros; apply emits_ret].
    destruct lock; [|apply emits_ret].
    apply emits_bind; [apply emits_tell, find_consumer_not_lookup | intros _].
    apply on_store_emits, emits_call.
  - apply emits_bind.
    2:{ intros loaded.
        apply emits_bind; [by apply on_store_emits, new_node_emits | intros k].
        apply emits_bind; [|intros; apply emits_ret].
        destruct lock; [|apply emits_ret].
        apply emits_bind; [apply emits_tell, find_consumer_not_lookup | intros _].
        apply on_store_emits, emits_call. }
    unfold load_root_from_path. simpl in Hcase.
    destruct (ends_with_py path).
    + apply emits_bind.
      { destruct lock as [l|]; [|apply emits_ret].
        destruct create_reference as [cr|]; [apply emits_ret|].
        exfalso. by destruct Hcase as [?|[?|?]]. }
      intros reqs. apply emits_bind; [apply emits_gets | intros root].
      apply emits_bind; [by apply emits_tell, Hloader | intros _].
      apply emits_bind; [apply on_store_emits, emits_call | intros cf].
      apply emits_bind; [|intros; apply emits_ret].
      destruct create_reference; [apply emits_lift_result | apply emits_ret].
    + apply emits_bind; [apply emits_gets | intros root].
      apply emits_bind; [by apply emits_tell, Hloader | intros _].
      apply emits_bind; [apply on_store_emits, emits_call | intros cf].
      apply emits_ret.
Qed.

(** X23.  Without a lock, with a [create_reference], or for a
    [reference] that is no path of a recipe in Python, [load_graph] never
    looks up the locked [python_requires]: neither [get_node] nor
    [python_requires] of the lock nor [load_class] of the loader is called,
    at any depth of the run. *)
Theorem locked_python_requires_only_for_plain_consumer fuel reference
    create_reference apply_build_requires (s : LGState World) :
  gi_graph_lock (lg_info s) = None
  \/ create_reference ≠ None
  \/ is_recipe_path reference = false ->
  Forall (deep (fun e => ~ lock_lookup_event e))
    (events (load_graph fuel reference create_reference apply_build_requires s)).
Proof.
  intros Hcase.
  pose (leaf := fun e (H : ~ lock_lookup_event e) (E : nested_events e = []) =>
                  leaf_no_lock_lookup e E H).
  unfold load_graph.
  apply events_bind_Forall.
  2:{ intros g _.
      apply load_graph_finish_emits; intros; (apply leaf; [simpl; tauto | done]). }
  unfold load_graph_resolve.
  apply events_bind_Forall; [constructor | intros _ _].
  apply events_bind_Forall; [constructor | intros profile _].
  apply events_bind_Forall; [constructor | intros lock Hlock].
  cbn in Hlock. injection Hlock as <-.
  apply events_bind_Forall.
  { by apply load_root_no_lock_lookup. }
  intros root _.
  apply emits_bind; [apply emits_tell, leaf; [simpl; tauto | done] | intros _].
  apply emits_bind; [apply on_store_emits, emits_call | intros _].
  apply emits_bind; [apply emits_gets | intros profile'].
  apply emits_bind.
  { apply on_store_emits, load_graph_emits;
      [apply leaf; [simpl; tauto | done] | intros; apply leaf; [simpl; tauto | done] |].
    intros graph. apply recurse_emits_deep; intros; simpl; tauto. }
  intros g. apply emits_bind; [apply on_store_emits, emits_gets | intros node].
  apply emits_bind; [apply emits_modify | intros _].
  apply emits_bind; [|intros; apply emits_ret].
  destruct (root.2); [apply emits_modify | apply emits_ret].
Qed.

End LockLookups.

(** ** [_inject_require] and the report of version ranges *)

Lemma set_set {K V} `{EqDecision K} (k : K) (v v' : V) (d : OrderedDict.t K V) :
  OrderedDict.set k v (OrderedDict.set k v' d) = OrderedDict.set k v d.
Proof.
  induction d as [|[k0 v0] d IH]; simpl.
  - by rewrite decide_True.
  - destruct (decide (k0 = k)) as [->|Hne]; simpl.
    + by rewrite decide_True.
    + rewrite decide_False by done. by rewrite IH.
Qed.

Section InjectAndReport.
Context `{C : Collaborators}.

(** X24.  [_inject_require] on a recipe that already requires a package
    of the name of [ref]: the requirement is replaced where it stands by one
    whose reference and range reference are [ref], the other requirements
    and the order of all stay, the recipe takes the user and the channel of
    [ref], and injecting [ref] once more changes nothing. *)
Theorem inject_require_replaces_in_place (conanfile : ConanFile)
    (ref : ConanFileReference) :
  name ref ∈ OrderedDict.keys (cf_requires conanfile) ->
  exists conanfile',
    _inject_require conanfile ref = Ok conanfile'
    /\ OrderedDict.keys (cf_requires conanfile') = OrderedDict.keys (cf_requires conanfile)
    /\ OrderedDict.get (name ref) (cf_requires conanfile') = Some (mkRequirement ref ref)
    /\ (forall k, k ≠ name ref ->
          OrderedDict.get k (cf_requires conanfile') =
          OrderedDict.get k (cf_requires conanfile))
    /\ cf_conan_user conanfile' = user ref
    /\ cf_conan_channel conanfile' = channel ref
    /\ _inject_require conanfile' ref = Ok conanfile'.
Proof.
  intros Hin. unfold _inject_require.
  destruct (OrderedDict.get (name ref) (cf_requires conanfile)) as [req|] eqn:Eget.
  2:{ by apply OrderedDictFacts.get_None_keys in Eget. }
  eexists. split; [done|]. simpl. split_and!; try done.
  - by apply OrderedDictFacts.set_present.
  - apply OrderedDictFacts.get_set_eq.
  - intros k Hk. by apply OrderedDictFacts.get_set_ne.
  - rewrite OrderedDictFacts.get_set_eq. unfold conanfile_with_requires. simpl.
    by rewrite set_set.
Qed.

Lemma events_bind_silent {S A B} (m : M S A) (k : A -> M S B) s :
  (forall a s', events (k a s') = []) -> events ((m ≫= k) s) = events (m s).
Proof.
  intros Hk. rewrite events_bind. destruct (out (m s)); rewrite ?Hk; apply app_nil_r.
Qed.

Lemma for_each_tell {S A} (l : list A) (f : A -> Event) (s : S) :
  for_each l (fun x => tell (f x)) s = mkRes (f <$> l) (Done tt) s.
Proof.
  induction l as [|x l IH]; [done|].
  cbn [for_each]. unfold bind. cbn [tell out final events]. by rewrite IH.
Qed.

(** X25.  [load_graph] prints nothing about version ranges when the
    resolver has no output; otherwise it prints the line "Version ranges
    solved", each message of the resolver behind four spaces, in order, and
    an empty line. *)
Theorem version_ranges_report deps_graph (s : LGState World) :
  events (report_resolution deps_graph s) =
  match resolver_output (lg_store s) with
  | [] => []
  | msgs =>
      EvOutput "Version ranges solved"
      :: ((fun msg => EvOutput ("    " +:+ msg)) <$> msgs) ++ [EvOutput ""]
  end.
Proof.
  unfold report_resolution. rewrite events_bind. cbn [gets events out final app].
  rewrite events_bind_silent.
  2:{ intros _ s'. rewrite events_bind_silent by done.
      unfold on_store, zoom, call. cbn [events].
      by destruct (report_matches _) as [[[]|e] ?]. }
  destruct (resolver_output (lg_store s)) as [|msg msgs]; [done|].
  rewrite events_bind. cbn [tell events out final app]. f_equal.
  rewrite events_bind, for_each_tell. done.
Qed.

End InjectAndReport.

(** ** Outcomes of [load_deps_info] *)

Section DepsInfoFacts.
Context `{F : BuildInfoFiles}.

(** X26.  [load_deps_info] when the build-info file cannot be read
    ([IOError]): with [required] it raises the exception that names the file
    and the folder, and leaves the recipe object alone; without, it returns,
    [deps_cpp_info] and [deps_user_info] are objects that raise on every
    access an exception naming the attribute, and [deps_env_info] is as it
    was. *)
Theorem load_deps_info_missing_file (current_path : string)
    (conanfile : DepsInfoAttrs) (required : bool) e :
  current_path ≠ "" ->
  read_build_info (path_join current_path BUILD_INFO) = Raise e ->
  is_IOError e = true ->
  let run := load_deps_info (Some current_path) conanfile required in
  if required then
    run = (Raise (ConanException
             (BUILD_INFO +:+ " file not found in " +:+ current_path +:+ newline
              +:+ "It is required for this command" +:+ newline
              +:+ "You can generate it using 'conan install'")),
           conanfile)
  else
    run.1 = Ok tt
    /\ deps_env_info run.2 = deps_env_info conanfile
    /\ (forall A (lookup : DepsCppInfo -> string -> result A) item,
          deps_getitem lookup (deps_cpp_info run.2) item =
          Raise (ConanException
            "self.deps_cpp_info not defined. If you need it for a local command run 'conan install'"))
    /\ (forall A (lookup : DepsUserInfo -> string -> result A) item,
          deps_getitem lookup (deps_user_info run.2) item =
          Raise (ConanException
            "self.deps_user_info not defined. If you need it for a local command run 'conan install'")).
Proof.
  intros Hp Hread Hio. cbv zeta. unfold load_deps_info.
  rewrite decide_False by done. rewrite Hread, Hio.
  destruct required; [done|]. done.
Qed.

(** X27.  All outcomes of [load_deps_info].  It returns in three cases
    only: without folder (nothing changes), with the file read and parsed
    (the three attributes hold what was read), or with an unreadable file
    that is not required.  Whenever it raises, the recipe object is as it
    was, and the exception is the one for a missing required file, "Parse
    error in ..." in place of any [ConanException] of the parser (whose
    message is lost), or an exception of another kind, passed as it is. *)
Theorem load_deps_info_outcomes (current_path : pyname)
    (conanfile : DepsInfoAttrs) (required : bool) :
  let run := load_deps_info current_path conanfile required in
  match run.1 with
  | Ok _ =>
      run.2 = conanfile /\ (current_path = None \/ current_path = Some "")
      \/ (exists path cpp user env,
            current_path = Some path
            /\ read_build_info (path_join path BUILD_INFO) = Ok (cpp, user, env)
            /\ run.2 = mkDepsInfoAttrs (DepsLoaded cpp) (DepsLoaded user) (DepsLoaded env))
      \/ (exists path e,
            current_path = Some path
            /\ read_build_info (path_join path BUILD_INFO) = Raise e
            /\ is_IOError e = true /\ required = false
            /\ run.2 = mkDepsInfoAttrs (DepsForbidden "deps_cpp_info")
                         (DepsForbidden "deps_user_info") (deps_env_info conanfile))
  | Raise e =>
      run.2 = conanfile
      /\ exists path e0,
           current_path = Some path /\ path ≠ ""
           /\ read_build_info (path_join path BUILD_INFO) = Raise e0
           /\ ((is_IOError e0 = true /\ required = true
                /\ e = ConanException
                     (BUILD_INFO +:+ " file not found in " +:+ path +:+ newline
                      +:+ "It is required for this command" +:+ newline
                      +:+ "You can generate it using 'conan install'"))
               \/ ((exists msg, e0 = ConanException msg)
                   /\ e = ConanException
                        ("Parse error in '" +:+ BUILD_INFO +:+ "' file in " +:+ path))
               \/ (is_IOError e0 = false /\ (forall msg, e0 ≠ ConanException msg)
                   /\ e = e0))
  end.
Proof.
  cbv zeta. unfold load_deps_info.
  destruct current_path as [path|]; [|left; auto].
  destruct (decide (path = "")) as [->|Hp]; [left; auto|].
  destruct (read_build_info _) as [[[cpp user] env]|e0] eqn:Hread.
  { right. left. by exists path, cpp, user, env. }
  destruct (is_IOError e0) eqn:Hio.
  - destruct required; simpl.
    + split; [done|]. exists path, e0. split_and!; try done. left. done.
    + right. right. by exists path, e0.
  - destruct e0; simpl; (split; [done|]); eexists path, _;
      (split_and!; [done | done | done |]).
    + right. left. split; [by eexists | done].
    + right. right. done.
    + right. right. done.
    + right. right. done.
    + right. right. done.
Qed.

End DepsInfoFacts.

(** ** [load_consumer_conanfile] *)

Section LocalFlowFacts.
Context `{L : LocalFlow}.

Lemma local_recipe_tail_emits φ (conanfile_path : string) processed_profile test root
    (lock_python_requires : option PythonRequires) :
  φ (EvLoader "load_consumer") ->
  emits φ
    (tell (EvLoader "load_consumer");;
     conanfile ← call (load_consumer conanfile_path processed_profile test root
                         lock_python_requires);
     conanfile ← lift_result (formatted (cf_display conanfile) "config_options"
                                (config_options conanfile));
     conanfile ← lift_result (formatted (cf_display conanfile) "configure"
                                (configure conanfile));
     lift_result (settings_validate conanfile);;
     lift_result (options_validate conanfile);;
     ret conanfile).
Proof.
  intros H.
  apply emits_bind; [by apply emits_tell | intros _].
  apply emits_bind; [apply emits_call | intros cf].
  apply emits_bind; [apply emits_lift_result | intros cf1].
  apply emits_bind; [apply emits_lift_result | intros cf2].
  apply emits_bind; [apply emits_lift_result | intros _].
  apply emits_bind; [apply emits_lift_result | intros _]. apply emits_ret.
Qed.

Lemma deps_tail_emits φ info_folder deps_info_required (conanfile : ConanFile) :
  emits (S := Store World) φ
    (let loaded := load_deps_info info_folder (deps_attrs_of conanfile)
                     deps_info_required in
     lift_result loaded.1;; ret (conanfile, loaded.2)).
Proof.
  cbv zeta. apply emits_bind; [apply emits_lift_result | intros; apply emits_ret].
Qed.

(** X28.  [load_consumer_conanfile] when the graph info or the lock file
    cannot be loaded.  After an [IOError] in either load it goes on without
    them: no line about a lock file is printed and the lock is never asked.
    Any other exception is raised as it is, before anything is printed or
    loaded. *)
Theorem local_flow_without_info_files conanfile_path info_folder deps_info_required
    test (s : Store World) e :
  (GraphInfo_load info_folder s = Raise e
   \/ (exists graph_info, GraphInfo_load info_folder s = Ok graph_info)
      /\ GraphLockFile_load info_folder revisions_enabled s = Raise e) ->
  let run := load_consumer_conanfile conanfile_path info_folder deps_info_required
               test s in
  if is_IOError e
  then Forall (fun e => ~ output_or_lock_event e) (events run)
  else out run = Raised e /\ events run = [] /\ final run = s.
Proof.
  intros Hload. cbv zeta.
  assert (read_info_files info_folder s = if is_IOError e then Ok None else Raise e)
    as Hread.
  { unfold read_info_files.
    destruct Hload as [->|[[gi ->] ->]]; done. }
  unfold load_consumer_conanfile.
  destruct (is_IOError e).
  - apply events_bind_Forall.
    { apply events_bind_Forall; [constructor | intros s0 _]. apply emits_lift_result. }
    intros found Hfound.
    assert (found = None) as ->.
    { rewrite out_bind in Hfound. cbn [gets out final id] in Hfound.
      rewrite Hread in Hfound. by injection Hfound as <-. }
    apply emits_bind.
    { apply emits_bind; [apply emits_call | intros; apply emits_call]. }
    intros profile. cbv zeta. apply emits_bind; [|intros cf; apply deps_tail_emits].
    destruct (ends_with_py conanfile_path).
    + apply emits_bind; [apply emits_ret | intros reqs].
      apply local_recipe_tail_emits. simpl. tauto.
    + apply emits_bind; [apply emits_tell; simpl; tauto | intros; apply emits_call].
  - set (m0 := s0 ← gets id; lift_result (read_info_files info_folder s0)).
    assert (m0 s = mkRes [] (Raised e) s) as Hm0.
    { unfold m0, mbind, M_bind, bind. cbn [gets out final events id]. by rewrite Hread. }
    rewrite out_bind, events_bind, final_bind, Hm0. done.
Qed.

(** X29.  [load_consumer_conanfile] never asks the lock for
    [python_requires] when [test] is given, nor for a recipe that is no
    Python file. *)
Theorem local_flow_lock_lookup conanfile_path info_folder deps_info_required
    test (s : Store World) :
  py_truthy test = true \/ ends_with_py conanfile_path = false ->
  Forall (fun e => ~ lock_event e)
    (events (load_consumer_conanfile conanfile_path info_folder deps_info_required
               test s)).
Proof.
  intros Hcase. unfold load_consumer_conanfile.
  apply emits_bind.
  { apply emits_bind; [apply emits_gets | intros; apply emits_lift_result]. }
  intros found. apply emits_bind.
  { destruct found as [files|].
    - apply emits_bind; [apply emits_tell; simpl; tauto | intros _].
      apply emits_bind; [apply emits_tell; simpl; tauto | intros _].
      apply emits_bind; [apply emits_call | intros; apply emits_ret].
    - apply emits_bind; [apply emits_call | intros; apply emits_call]. }
  intros profile. cbv zeta. apply emits_bind; [|intros cf; apply deps_tail_emits].
  destruct (ends_with_py conanfile_path).
  - destruct Hcase as [Ht|?]; [|done]. rewrite Ht.
    apply emits_bind.
    { destruct found; apply emits_ret. }
    intros reqs. apply local_recipe_tail_emits. simpl. tauto.
  - apply emits_bind; [apply emits_tell; simpl; tauto | intros; apply emits_call].
Qed.

(** X30.  When [load_consumer_conanfile] returns for a folder and with
    [deps_info_required], the three [deps_*] attributes of the recipe hold
    what was read from the build-info file of the folder. *)
Theorem local_flow_required_deps_info conanfile_path info_folder test
    (s : Store World) conanfile deps :
  py_truthy info_folder = true ->
  out (load_consumer_conanfile conanfile_path info_folder true test s)
    = Done (conanfile, deps) ->
  exists folder cpp user env,
    info_folder = Some folder
    /\ read_build_info (path_join folder BUILD_INFO) = Ok (cpp, user, env)
    /\ deps = mkDepsInfoAttrs (DepsLoaded cpp) (DepsLoaded user) (DepsLoaded env).
Proof.
  intros Hfolder H. unfold load_consumer_conanfile in H.
  apply bind_Done in H as (found & _ & H). cbv beta in H.
  apply bind_Done in H as (profile & _ & H). cbv beta zeta in H.
  apply bind_Done in H as (cf & _ & H). cbv beta zeta in H.
  apply bind_Done in H as ([] & Hdeps & H). cbv beta in H.
  injection H as <- <-.
  unfold load_deps_info in *.
  destruct info_folder as [folder|]; [|done]. simpl in Hfolder.
  apply bool_decide_eq_true in Hfolder.
  rewrite decide_False in * by done.
  destruct (read_build_info _) as [[[cpp user] env]|e0] eqn:Hread.
  - by exists folder, cpp, user, env.
  - exfalso. destruct (is_IOError e0); [done|]. by destruct e0.
Qed.

End LocalFlowFacts.

(** ** The further properties in the example installation *)

(** X3 on two recipes of the consumer [app]. *)
Lemma declared_then_called_is_appended_witness :
  let d := [(Some "b1", Demo.ref_of "b1" "1.0"); (Some "t", Demo.ref_of "t" "1.0")] in
  out (_get_recipe_build_requires (C := Demo.collaborators) 0 Scenes.declaring_store)
    = Done d
  <-> out (_get_recipe_build_requires (C := Demo.collaborators) 0 Scenes.calling_store)
    = Done d.
Proof.
  apply (declared_then_called_is_appended (C := Demo.collaborators) 0
           Scenes.declaring_store Scenes.calling_store
           [BRText "b1/1.0@user/channel"] [BRText "t/1.0@user/channel"]);
    reflexivity.
Defined.

(** X4 on three build-requirements, two of the same name. *)
Lemma update_idempotent_witness :
  RBR.update Demo.parse_reference
    [BRText "b1/1.0@user/channel"; BRRef (Demo.ref_of "t" "1.0");
     BRRef (Demo.ref_of "b1" "2.0")]
    [(Some "b1", Demo.ref_of "b1" "2.0"); (Some "t", Demo.ref_of "t" "1.0")]
  = Ok [(Some "b1", Demo.ref_of "b1" "2.0"); (Some "t", Demo.ref_of "t" "1.0")].
Proof.
  apply (update_idempotent Demo.parse_reference _ OrderedDict.empty).
  - apply NoDup_nil_2.
  - reflexivity.
Defined.

(** X7 on the recipe whose method raises. *)
Lemma build_requirements_failure_is_formatted_witness :
  let run := _get_recipe_build_requires (C := Demo.collaborators) 0 Scenes.failing_store in
  out run = Raised (ConanException
                      "bad/1.0@user/channel: Error in build_requirements() method")
  /\ exists m', cf_build_requires (n_conanfile (heap (final run) 0)) = AttrMap m'.
Proof.
  apply (build_requirements_failure_is_formatted (C := Demo.collaborators) 0
           Scenes.failing_store [(Some "b1", Demo.ref_of "b1" "1.0")]
           (fun _ => Raise (OtherError "ZeroDivisionError")) (OtherError "ZeroDivisionError"));
    reflexivity.
Defined.


(** X13 on the three libraries of the linked graph, which declare nothing. *)
Lemma recursion_stops_where_nothing_is_required_witness :
  let run := _recurse_build_requires (C := Demo.collaborators) 1 Demo.Whole
               (Demo.Part [1; 2; 3]) None None true Demo.linked_store in
  let s1 := (Demo.analyze (Demo.Part [1; 2; 3]) Demo.linked_store).2 in
  out run = Done tt
  /\ Forall (fun e => ~ extension_event e) (events run)
  /\ st_world (final run) = st_world s1
  /\ next_key (final run) = next_key s1
  /\ forall x, x ∉ [1; 2; 3] -> heap (final run) x = heap s1 x.
Proof.
  apply (recursion_stops_where_nothing_is_required (C := Demo.collaborators) 0 Demo.Whole
           (Demo.Part [1; 2; 3]) None None Demo.linked_store).
  - reflexivity.
  - compute_done.
  - intros k Hk. right. simpl in Hk.
    repeat (apply elem_of_cons in Hk as [->|Hk]; [split; [reflexivity | constructor]|]).
    by apply elem_of_nil in Hk.
Defined.

Ltac orderable_by_computation :=
  eexists _, _; split_and!; [reflexivity | reflexivity | compute_done].

(** X16 on the linked graph. *)
Lemma ordering_pass_succeeds_on_orderable_nodes_witness :
  out (order_closures (C := Demo.collaborators) Demo.Whole Demo.linked_store) = Done tt.
Proof.
  apply (ordering_pass_succeeds_on_orderable_nodes (C := Demo.collaborators)).
  - compute_done.
  - intros k Hk. simpl in Hk.
    repeat (apply elem_of_cons in Hk as [->|Hk]; [orderable_by_computation|]).
    by apply elem_of_nil in Hk.
Defined.

(** X17 on the graph whose third node has a closure keyed by another name. *)
Lemma ordering_pass_stops_at_missing_own_entry_witness :
  let s := Scenes.headless_store in
  let inv := inverse_levels_dict (@inverse_levels Demo.collaborators Demo.Whole s) in
  let run := order_closures (C := Demo.collaborators) Demo.Whole s in
  out run = Raised KeyError
  /\ (forall x, x ∈ [0; 1] -> closure_ordered inv (heap s x) (heap (final run) x))
  /\ (forall x, x ∉ [0; 1] -> heap (final run) x = heap s x).
Proof.
  apply (ordering_pass_stops_at_missing_own_entry (C := Demo.collaborators)
           Demo.Whole Scenes.headless_store [0; 1] 2 [3] [(Some "x9", 2)]).
  - reflexivity.
  - compute_done.
  - intros k Hk.
    repeat (apply elem_of_cons in Hk as [->|Hk]; [orderable_by_computation|]).
    by apply elem_of_nil in Hk.
  - reflexivity.
  - reflexivity.
Defined.

(** X18 on the graph whose second node has a stranger in its closure. *)
Lemma ordering_pass_stops_at_missing_level_witness :
  let s := Scenes.unlevelled_store in
  let run := order_closures (C := Demo.collaborators) Demo.Whole s in
  out run = Raised KeyError
  /\ heap (final run) 1 =
     node_with_closure (ClosureMap [(Some "x9", 9)]) (heap s 1).
Proof.
  destruct (ordering_pass_stops_at_missing_level (C := Demo.collaborators)
              Demo.Whole Scenes.unlevelled_store [0] 1 [2; 3]
              [(Some "x1", 1); (Some "x9", 9)] 1 9) as (Hout & Hk & _).
  - reflexivity.
  - compute_done.
  - intros k Hk.
    repeat (apply elem_of_cons in Hk as [->|Hk]; [orderable_by_computation|]).
    by apply elem_of_nil in Hk.
  - reflexivity.
  - reflexivity.
  - compute_done.
  - reflexivity.
  - split; [exact Hout | exact Hk].
Defined.

(** X19 on the linked graph. *)
Lemma ordering_pass_cannot_be_repeated_witness :
  out (order_closures (C := Demo.collaborators) Demo.Whole
         (final (order_closures (C := Demo.collaborators) Demo.Whole Demo.linked_store)))
  = Raised TypeError.
Proof.
  apply (ordering_pass_cannot_be_repeated (C := Demo.collaborators)
           Demo.Whole Demo.linked_store).
  - compute_done.
  - discriminate.
  - vm_compute. reflexivity.
  - reflexivity.
Defined.

(** X21 for the installation of one reference. *)
Lemma root_reference_kept_unless_recipe_path_witness :
  gi_root (lg_info (final (load_graph (C := Demo.collaborators) 4
                             (RefOne (Demo.ref_of "b1" "1.0")) None true
                             (Demo.start [] None))))
  = mkRef None None None None None.
Proof.
  apply (root_reference_kept_unless_recipe_path (C := Demo.collaborators) 4
           (RefOne (Demo.ref_of "b1" "1.0")) None true (Demo.start [] None)).
  reflexivity.
Defined.

(** X22 for the test of [b1] of another user and channel. *)
Lemma test_package_root_takes_user_and_channel_witness :
  let ref := mkRef (Some "b1") (Some "1.0") (Some "me") (Some "testing") None in
  let root := gi_root (lg_info (final (load_graph (C := Demo.collaborators) 4
                (RefPath "app/conanfile.py") (Some ref) true (Demo.start [] None)))) in
  user root = Some "me" /\ channel root = Some "testing" /\ revision root = None.
Proof.
  apply (test_package_root_takes_user_and_channel (C := Demo.collaborators) 4
           "app/conanfile.py"
           (mkRef (Some "b1") (Some "1.0") (Some "me") (Some "testing") None)
           true (Demo.start [] None) Demo.Whole).
  - reflexivity.
  - vm_compute. reflexivity.
Defined.

(** X23 for a test of a package under a lock. *)
Lemma locked_python_requires_only_for_plain_consumer_witness :
  Forall (deep (fun e => ~ lock_lookup_event e))
    (events (load_graph (C := Demo.collaborators) 4 (RefPath "app/conanfile.py")
               (Some (Demo.ref_of "b1" "1.0")) true
               (Demo.start [] (Some ∅)))).
Proof.
  apply (locked_python_requires_only_for_plain_consumer (C := Demo.collaborators)).
  right. left. discriminate.
Defined.

(** X24 on the recipe under test. *)
Lemma inject_require_replaces_in_place_witness :
  exists conanfile',
    _inject_require (C := Demo.collaborators) Scenes.test_recipe (Demo.ref_of "b1" "1.0")
      = Ok conanfile'
    /\ OrderedDict.keys (cf_requires conanfile') = [Some "zlib"; Some "b1"]
    /\ OrderedDict.get (Some "b1") (cf_requires conanfile') =
       Some (mkRequirement (Demo.ref_of "b1" "1.0") (Demo.ref_of "b1" "1.0"))
    /\ (forall k, k ≠ Some "b1" ->
          OrderedDict.get k (cf_requires conanfile') =
          OrderedDict.get k (cf_requires Scenes.test_recipe))
    /\ cf_conan_user conanfile' = Some "user"
    /\ cf_conan_channel conanfile' = Some "channel"
    /\ _inject_require (C := Demo.collaborators) conanfile' (Demo.ref_of "b1" "1.0")
       = Ok conanfile'.
Proof.
  apply (inject_require_replaces_in_place (C := Demo.collaborators)
           Scenes.test_recipe (Demo.ref_of "b1" "1.0")).
  compute_done.
Defined.

(** X26 on a folder without build-info file. *)
Lemma load_deps_info_missing_file_witness :
  let run := load_deps_info (F := DemoFiles.files) (Some "src") DemoFiles.fresh false in
  run.1 = Ok tt
  /\ deps_env_info run.2 = DepsUnset
  /\ (forall A (lookup : string -> string -> result A) item,
        deps_getitem lookup (deps_cpp_info run.2) item =
        Raise (ConanException
          "self.deps_cpp_info not defined. If you need it for a local command run 'conan install'"))
  /\ (forall A (lookup : string -> string -> result A) item,
        deps_getitem lookup (deps_user_info run.2) item =
        Raise (ConanException
          "self.deps_user_info not defined. If you need it for a local command run 'conan install'")).
Proof.
  apply (load_deps_info_missing_file (F := DemoFiles.files) "src" DemoFiles.fresh false
           (OtherError "IOError")); [discriminate | reflexivity | reflexivity].
Defined.

(** X28 on a folder without graph info. *)
Lemma local_flow_without_info_files_witness :
  Forall (fun e => ~ output_or_lock_event e)
    (events (load_consumer_conanfile (L := DemoLocal.local_flow) "app/conanfile.py"
               (Some "src") false None Demo.empty_store)).
Proof.
  apply (local_flow_without_info_files (L := DemoLocal.local_flow) "app/conanfile.py"
           (Some "src") false None Demo.empty_store (OtherError "IOError")).
  left. reflexivity.
Defined.

(** X29 with [test] given. *)
Lemma local_flow_lock_lookup_witness :
  Forall (fun e => ~ lock_event e)
    (events (load_consumer_conanfile (L := DemoLocal.local_flow)
               "tool_user/conanfile.py" (Some "build") false (Some "tool_user/1.0")
               Demo.empty_store)).
Proof.
  apply (local_flow_lock_lookup (L := DemoLocal.local_flow)).
  left. reflexivity.
Defined.

(** X30 on the folder [build]. *)
Lemma local_flow_required_deps_info_witness :
  exists folder cpp user env,
    Some "build" = Some folder
    /\ read_build_info (F := DemoFiles.files)
         (@path_join DemoFiles.files folder (@BUILD_INFO DemoFiles.files))
       = Ok (cpp, user, env)
    /\ mkDepsInfoAttrs (F := DemoFiles.files) (DepsLoaded "[includedirs]")
         (DepsLoaded "user") (DepsLoaded "env")
       = mkDepsInfoAttrs (DepsLoaded cpp) (DepsLoaded user) (DepsLoaded env).
Proof.
  apply (local_flow_required_deps_info (L := DemoLocal.local_flow)
           "tool_user/conanfile.py" (Some "build") None Demo.empty_store
           (Demo.recipe "tool_user" [BRRef (Demo.ref_of "toolX" "1.0")])).
  - reflexivity.
  - vm_compute. reflexivity.
Defined.

Example local_flow_example :
  let run := load_consumer_conanfile (L := DemoLocal.local_flow)
               "tool_user/conanfile.py" (Some "build") true None Demo.empty_store in
  events run =
    [EvOutput "Using lockfile: 'build/conan.lock'";
     EvOutput "Using cached profile from lockfile";
     EvLock "get_node"; EvLock "python_requires"; EvLoader "load_consumer"].
Proof. vm_compute. reflexivity. Qed.
